(** * Lane-centre detection: geometric core of [center_of_lane_detection.py]

    A shallow embedding of the segment classifier, the slope grouper
    ([group_lines]), the lane-centre estimator ([detect_lane_center]) and the
    steering-angle calculator ([calculate_steering_angle]).

    Numbers.  Pixel coordinates are the 32-bit integers of the array
    returned by [cv2.HoughLinesP]; they are modelled as [Z], and their sums
    and differences are taken to stay in range, as they do for the
    coordinates of a frame.  The squared length of a segment need not: it
    is wrapped to 32 bits ([wrap32]), a negative radicand makes the stored
    length [nan], and a comparison with [nan] is false.  A float64 value is
    the rational number it stands for.  The slope of a segment is the
    quotient rounded to the nearest double ([round64]), and the slope test
    of the grouper is the program's: the difference of two stored slopes,
    rounded, against the double nearest to 0.3.  Midpoints, the squared
    midpoint distance, lane centres and the angle are computed without
    rounding: on pixel coordinates the first three are exact in binary64
    (halves and quarters of small integers), and the angle is a value, used
    in no test.  A value [np.sqrt v] is kept symbolic ([NpSqrt v]): the
    program only ever compares such values, and the comparison is carried
    out on the radicands ([root_gtb_sound] and [root_lt_const_sound] relate
    this to the real square root).

    Errors.  A Python exception is [None] in the error monad [option];
    [nth_error] and [last_error] are indexing that fails out of range.
    [true_div] gives no number for a zero divisor: Python's own numbers
    raise there, NumPy's float64 answers with an infinity or [nan], which
    the rationals do not have.  The classifier divides only after its test
    for a zero divisor, and [main] calls the angle calculator with the
    width 315.

    Collaborators.  The image operations of [cv2] are not part of the
    model.  [detect_lane_center] takes the result of [cv2.HoughLinesP] as
    its argument [lines]; the frame is its height together with the
    [cv2.line] calls applied to it, which is all the function reads from it
    and writes to it after the segments have been found.

    Two models.  The first treats lists as values.  The second keeps the
    list objects in a store and appends in place, as the program does; it is
    proved to compute what the first computes. *)

From Stdlib Require Import Reals Qreals Lra.
From Stdlib Require Import ZArith QArith Qabs Qpower Qreduction List Bool Lia Lqa.
From Stdlib Require Import Permutation Sorted.
Import ListNotations.

Open Scope Q_scope.

(** ** The error monad *)

Definition bind {A B : Type} (m : option A) (k : A -> option B) : option B :=
  match m with
  | Some a => k a
  | None => None
  end.

Notation "x <- m ;; k" := (bind m (fun x => k))
  (at level 61, m at next level, right associativity).
Notation "' p <- m ;; k" := (bind m (fun x => let p := x in k))
  (at level 61, p pattern, m at next level, right associativity).

(** A [for] loop whose body may raise. *)
Fixpoint for_each {A S : Type} (body : S -> A -> option S) (l : list A) (s : S)
  : option S :=
  match l with
  | [] => Some s
  | a :: t => s' <- body s a ;; for_each body t s'
  end.

(** ** Rational comparisons *)

Definition Qltb (a b : Q) : bool :=
  (Qnum a * QDen b <? Qnum b * QDen a)%Z.

(** [a / b] where it is a number.  For a zero divisor there is none
    ([None]): Python's numbers raise [ZeroDivisionError], a float64 operand
    gives an infinity or [nan]. *)
Definition true_div (a b : Q) : option Q :=
  if Qeq_bool b 0 then None else Some (a / b).

(** ** Binary64 rounding *)

(** The integer nearest to [num / den], ties to the even one. *)
Definition round_half_even (num den : Z) : Z :=
  let q := (num / den)%Z in
  let r := (num mod den)%Z in
  match (2 * r ?= den)%Z with
  | Lt => q
  | Gt => (q + 1)%Z
  | Eq => if Z.even q then q else (q + 1)%Z
  end.

(** The double nearest to [n / d]: a 53-bit significand times a power of
    two.  The fraction is scaled by [2 ^ - e] so that its integer part has
    53 or 54 bits; with 54 bits one more binary place is dropped. *)
Definition round64_pos (n d : positive) : Q :=
  let e := (Z.log2 (Z.pos n) - Z.log2 (Z.pos d) - 53)%Z in
  let num := if (0 <=? e)%Z then Z.pos n else (Z.pos n * 2 ^ (- e))%Z in
  let den := if (0 <=? e)%Z then (Z.pos d * 2 ^ e)%Z else Z.pos d in
  if (num / den <? 2 ^ 53)%Z
  then inject_Z (round_half_even num den) * 2 ^ e
  else inject_Z (round_half_even num (2 * den)) * 2 ^ (e + 1).

(** The result of a float64 operation whose exact value is [q]: round to
    nearest, ties to even.  The exponent is not bounded; the slopes of
    32-bit pixel coordinates and their differences stay far inside the
    exponent range of binary64. *)
Definition round64 (q : Q) : Q :=
  match Qnum (Qred q) with
  | Z0 => 0
  | Z.pos n => round64_pos n (Qden (Qred q))
  | Z.neg n => - round64_pos n (Qden (Qred q))
  end.

(** The value an [int32] array element holds after an operation whose exact
    result is [z]: two's complement wrap-around. *)
Definition wrap32 (z : Z) : Z := ((z + 2 ^ 31) mod 2 ^ 32 - 2 ^ 31)%Z.

(** ** Steering angle calculator (source lines 164-180) *)

(** The arguments are numbers; for the width zero no angle is produced. *)
Definition calculate_steering_angle
  (image_width lane_center_x max_steering_angle : Q) : option Q :=
  let deviation := lane_center_x - image_width / 2 in
  normalized <- true_div deviation (image_width / 2) ;;
  let steering_angle := normalized * max_steering_angle in
  Some steering_angle.

(** ** Data model *)

(** One row of the [HoughLinesP] array, [line.reshape(4)]. *)
Record segment : Set := Segment { x1 : Z; y1 : Z; x2 : Z; y2 : Z }.

(** [np.sqrt v], kept symbolic; it is [nan] when [v] is negative. *)
Inductive root : Set := NpSqrt (radicand : Q).

Definition radicand (r : root) : Q := let 'NpSqrt v := r in v.

Definition is_nan (r : root) : bool := Qltb (radicand r) 0.

(** [np.sqrt u > np.sqrt v]; a comparison with [nan] is [False]. *)
Definition root_gtb (a b : root) : bool :=
  negb (is_nan a) && negb (is_nan b) && Qltb (radicand b) (radicand a).

(** [np.sqrt v < c] for a non-negative constant [c]. *)
Definition root_lt_const (a : root) (c : Q) : bool := Qltb (radicand a) (c * c).

(** The tuples [(slope_line, line_length, line)]. *)
Definition line_tuple : Set := (Q * root * segment)%type.

Definition item0 (t : line_tuple) : Q := fst (fst t).
Definition item1 (t : line_tuple) : root := snd (fst t).
Definition item2 (t : line_tuple) : segment := snd t.

(** The frame: its height [image.shape[0]] and the [cv2.line] calls that
    have been applied to the array, oldest first. *)
Record Image : Set := MkImage {
  shape0 : Z;
  strokes : list ((Z * Z) * (Z * Z))
}.

(** [cv2.line(image, p, q, (0, 255, 0), 4)] writes into [image] itself. *)
Definition cv2_line (image : Image) (p q : Z * Z) : Image :=
  {| shape0 := shape0 image; strokes := strokes image ++ [(p, q)] |}.

(** ** Python builtins *)

Definition truthy {A : Type} (l : list A) : bool :=
  match l with [] => false | _ :: _ => true end.

(** [l[-1]] *)
Fixpoint last_error {A : Type} (l : list A) : option A :=
  match l with
  | [] => None
  | [a] => Some a
  | _ :: t => last_error t
  end.

(** [max(l, key=key)] and [min(l, key=key)]: the running best is replaced
    only by a strictly better item, so the first of several equal ones is
    kept.  The order on keys is [better]. *)
Fixpoint best_from {A K : Type} (key : A -> K) (better : K -> K -> bool)
  (best : A) (l : list A) : A :=
  match l with
  | [] => best
  | a :: t =>
      if better (key a) (key best)
      then best_from key better a t
      else best_from key better best t
  end.

Definition best_by {A K : Type} (key : A -> K) (better : K -> K -> bool)
  (l : list A) : option A :=
  match l with
  | [] => None
  | a :: t => Some (best_from key better a t)
  end.

Definition py_max {A : Type} (key : A -> Z) := best_by key Z.gtb.
Definition py_min {A : Type} (key : A -> Z) := best_by key Z.ltb.

(** [sorted(lines, key=lambda x: x[0])]: a stable sort; an item is placed
    behind the items of strictly smaller slope only. *)
Fixpoint insert_sorted (e : line_tuple) (l : list line_tuple) : list line_tuple :=
  match l with
  | [] => [e]
  | h :: t =>
      if Qltb (item0 h) (item0 e) then h :: insert_sorted e t else e :: h :: t
  end.

Fixpoint sorted (lines : list line_tuple) : list line_tuple :=
  match lines with
  | [] => []
  | e :: t => insert_sorted e (sorted t)
  end.

(** ** Slope grouper (source lines 35-72) *)

Abbreviation groups := (list (list line_tuple)).

(** Body of the loop at line 54, for index [i].  The slopes are doubles;
    their difference is rounded and compared with the double [0.3]. *)
Definition group_lines_body (lines_sorted : list line_tuple)
  (st : groups * list line_tuple) (i : nat) : option (groups * list line_tuple) :=
  let '(grouped_lines, current_group) := st in
  new <- nth_error lines_sorted i ;;
  cur <- last_error current_group ;;
  if Qltb (Qabs (round64 (item0 new - item0 cur))) (round64 (3 # 10)) then
    let '(Segment x1_cur y1_cur x2_cur y2_cur) := item2 cur in
    let '(Segment x1_new y1_new x2_new y2_new) := item2 new in
    let cx_cur := inject_Z (x1_cur + x2_cur) / 2 in
    let cy_cur := inject_Z (y1_cur + y2_cur) / 2 in
    let cx_new := inject_Z (x1_new + x2_new) / 2 in
    let cy_new := inject_Z (y1_new + y2_new) / 2 in
    if root_lt_const (NpSqrt ((cx_cur - cx_new) ^ 2 + (cy_cur - cy_new) ^ 2)) 90
    then Some (grouped_lines, current_group ++ [new])
    else Some (grouped_lines ++ [current_group], [new])
  else Some (grouped_lines ++ [current_group], [new]).

Definition group_lines (lines : list line_tuple) : option groups :=
  if negb (truthy lines) then Some []
  else
    let grouped_lines := [] in
    let lines_sorted := sorted lines in
    first <- nth_error lines_sorted 0 ;;
    let current_group := [first] in
    '(grouped_lines, current_group) <-
      for_each (group_lines_body lines_sorted)
               (seq 1 (length lines_sorted - 1))
               (grouped_lines, current_group) ;;
    Some (grouped_lines ++ [current_group]).

(** ** Segment classifier (source lines 99-110) *)

Definition classify_body (st : list line_tuple * list line_tuple)
  (line : segment) : option (list line_tuple * list line_tuple) :=
  let '(positive_slopes, negative_slopes) := st in
  let '(Segment x1 y1 x2 y2) := line in
  if (x2 - x1 =? 0)%Z then Some st
  else
    quotient <- true_div (inject_Z (y2 - y1)) (inject_Z (x2 - x1)) ;;
    let slope_line := round64 quotient in
    let line_length :=
      NpSqrt (inject_Z (wrap32 ((x2 - x1) ^ 2 + (y2 - y1) ^ 2))) in
    if Qltb 0 slope_line then
      Some (positive_slopes ++ [(slope_line, line_length, line)], negative_slopes)
    else if Qltb slope_line 0 then
      Some (positive_slopes, negative_slopes ++ [(slope_line, line_length, line)])
    else Some st.

Definition classify (lines : list segment)
  : option (list line_tuple * list line_tuple) :=
  for_each classify_body lines ([], []).

(** ** Lane centre estimator (source lines 96-162) *)

(** The pair the function returns; [None] is Python's [None]. *)
Definition lane_center : Set := (option Q * option Q)%type.

(** [[x for line in lines for x in line[2].reshape(4)[::2]]] *)
Definition x_coords_of (lines : list line_tuple) : list Z :=
  flat_map (fun line => [x1 (item2 line); x2 (item2 line)]) lines.

(** The branches at lines 117-125 and 128-136; [sentinel] is [-1] or [1]. *)
Definition one_sided (side_groups : groups) (sentinel : Q) (image : Image)
  : option lane_center :=
  let side_lines := concat side_groups in
  let x_coords := x_coords_of side_lines in
  if (1 <? length x_coords)%nat then
    hi <- py_max (fun x => x) x_coords ;;
    lo <- py_min (fun x => x) x_coords ;;
    if (400 <? hi - lo)%Z then
      let center_lane_x := inject_Z (hi + lo) / 2 in
      let center_lane_y := inject_Z (shape0 image) / 2 in
      Some (Some center_lane_x, Some center_lane_y)
    else Some (Some sentinel, Some sentinel)
  else Some (Some sentinel, Some sentinel).

(** Body of the loops at lines 139-145 and 146-152. *)
Definition draw_body (st : list (Z * Z) * Image) (group : list line_tuple)
  : option (list (Z * Z) * Image) :=
  let '(points, image) := st in
  match best_by item1 root_gtb group with
  | None => Some st
  | Some max_line =>
      let '(Segment x1 y1 x2 y2) := item2 max_line in
      let image := cv2_line image (x1, y1) (x2, y2) in
      Some (points ++ [(x1, y1); (x2, y2)], image)
  end.

(** Lines 154-162. *)
Definition center_of_points (points : list (Z * Z)) : option lane_center :=
  if (length points <? 2)%nat then Some (None, None)
  else
    rightmost <- py_max fst points ;;
    leftmost <- py_min fst points ;;
    let center_lane_x := inject_Z (fst rightmost + fst leftmost) / 2 in
    let center_lane_y := inject_Z (snd rightmost + snd leftmost) / 2 in
    Some (Some center_lane_x, Some center_lane_y).

(** [lines] is what [cv2.HoughLinesP] returned for the frame ([None] when it
    found nothing); the result is the returned pair together with the frame
    as the call leaves it. *)
Definition detect_lane_center (lines : option (list segment)) (image : Image)
  : option (lane_center * Image) :=
  let points := [] in
  match lines with
  | None => r <- center_of_points points ;; Some (r, image)
  | Some lines =>
      '(positive_slopes, negative_slopes) <- classify lines ;;
      positive_groups <- group_lines positive_slopes ;;
      negative_groups <- group_lines negative_slopes ;;
      if negb (truthy positive_groups) && truthy negative_groups then
        r <- one_sided negative_groups (- (1)) image ;; Some (r, image)
      else if negb (truthy negative_groups) && truthy positive_groups then
        r <- one_sided positive_groups 1 image ;; Some (r, image)
      else
        st <- for_each draw_body positive_groups (points, image) ;;
        '(points, image) <- for_each draw_body negative_groups st ;;
        r <- center_of_points points ;; Some (r, image)
  end.

(** ** Specification vocabulary *)

(** The slope of a raw segment, as a rational. *)
Definition slope (s : segment) : Q :=
  inject_Z (y2 s - y1 s) / inject_Z (x2 s - x1 s).

(** The squared length of a segment, and the condition that the 32-bit
    integers of the array can hold it. *)
Definition length_sq (s : segment) : Z :=
  ((x2 s - x1 s) ^ 2 + (y2 s - y1 s) ^ 2)%Z.

Definition fits_int32 (s : segment) : Prop := (length_sq s < 2 ^ 31)%Z.

(** The tuple the classifier stores for a segment: the slope as a double,
    and the square root of the squared length as the 32-bit array computes
    it. *)
Definition tuple_of (s : segment) : line_tuple :=
  (round64 (slope s),
   NpSqrt (inject_Z (wrap32 ((x2 s - x1 s) ^ 2 + (y2 s - y1 s) ^ 2))), s).

Definition is_positive (s : segment) : bool :=
  negb (x1 s =? x2 s)%Z && Qltb 0 (slope s).

Definition is_negative (s : segment) : bool :=
  negb (x1 s =? x2 s)%Z && Qltb (slope s) 0.

Definition midpoint (s : segment) : Q * Q :=
  (inject_Z (x1 s + x2 s) / 2, inject_Z (y1 s + y2 s) / 2).

Definition dist_sq (p q : Q * Q) : Q :=
  (fst p - fst q) ^ 2 + (snd p - snd q) ^ 2.

(** The chaining test between the last member of the open group and the
    next item. *)
Definition chained (prev e : line_tuple) : bool :=
  Qltb (Qabs (round64 (item0 e - item0 prev))) (round64 (3 # 10))
  && Qltb (dist_sq (midpoint (item2 prev)) (midpoint (item2 e))) (90 * 90).

(** One pass over the sorted items behind the first one. *)
Fixpoint chain_from (closed : groups) (current : list line_tuple)
  (prev : line_tuple) (rest : list line_tuple) : groups :=
  match rest with
  | [] => closed ++ [current]
  | e :: t =>
      if chained prev e
      then chain_from closed (current ++ [e]) e t
      else chain_from (closed ++ [current]) [e] e t
  end.

Definition chain_groups (lines_sorted : list line_tuple) : groups :=
  match lines_sorted with
  | [] => []
  | first :: rest => chain_from [] [first] first rest
  end.

Definition endpoints (t : line_tuple) : list (Z * Z) :=
  [(x1 (item2 t), y1 (item2 t)); (x2 (item2 t), y2 (item2 t))].

(** [m] is the item Python's [max]/[min] picks in [l]: strictly better than
    everything in front of it, and nothing behind it is better. *)
Definition first_best {A K : Type} (key : A -> K) (better : K -> K -> bool)
  (l : list A) (m : A) : Prop :=
  exists pre post,
    l = pre ++ m :: post
    /\ (forall e, In e pre -> better (key m) (key e) = true)
    /\ (forall e, In e post -> better (key e) (key m) = false).

Definition slope_le (a b : line_tuple) : Prop := item0 a <= item0 b.

(** [m] is the longest segment of the group [g], the first of the longest
    ones in the order of the group. *)
Definition longest_first (g : list line_tuple) (m : line_tuple) : Prop :=
  first_best (fun t => length_sq (item2 t)) Z.gtb g m.

(** The member [max] picks in every (non-empty) group by the stored length,
    in group order; it is the longest one when the squared lengths of the
    group fit 32 bits ([longest_first_spec]). *)
Definition representatives (gs : groups) : list line_tuple :=
  flat_map (fun g => match best_by item1 root_gtb g with
                     | Some m => [m]
                     | None => []
                     end) gs.

(** The frame after one [cv2.line] per representative. *)
Definition draw_all (image : Image) (reps : list line_tuple) : Image :=
  fold_left (fun im t => cv2_line im (x1 (item2 t), y1 (item2 t))
                                     (x2 (item2 t), y2 (item2 t)))
            reps image.

Definition positive_tuples (lines : list segment) : list line_tuple :=
  map tuple_of (filter is_positive lines).

Definition negative_tuples (lines : list segment) : list line_tuple :=
  map tuple_of (filter is_negative lines).

(** [hi] is a greatest, [lo] a least element of [xs]. *)
Definition greatest (hi : Z) (xs : list Z) : Prop :=
  In hi xs /\ forall x, In x xs -> (x <= hi)%Z.

Definition least (lo : Z) (xs : list Z) : Prop :=
  In lo xs /\ forall x, In x xs -> (lo <= x)%Z.

(** The value a symbolic root stands for. *)
Definition root_value (r : root) : R := sqrt (Q2R (radicand r)).

(** Euclidean distance between two points. *)
Definition euclid (p q : Q * Q) : R := sqrt (Q2R (dist_sq p q)).

(** The grouping rule, stated on its own: an item joins the open group when
    the float64 difference between its slope and the slope of the member
    added last is, in absolute value, less than the double [0.3], and the
    two segment midpoints are less than 90 pixels apart. *)
Definition close_enough (prev e : line_tuple) : Prop :=
  Qabs (round64 (item0 e - item0 prev)) < round64 (3 # 10)
  /\ (euclid (midpoint (item2 prev)) (midpoint (item2 e)) < 90)%R.

(** The rule as the specification words it: the two slopes differ by less
    than 0.3, and the midpoints are less than 90 pixels apart. *)
Definition spec_close_enough (prev e : line_tuple) : Prop :=
  Qabs (item0 e - item0 prev) < 3 # 10
  /\ (euclid (midpoint (item2 prev)) (midpoint (item2 e)) < 90)%R.

(** [chain_rel closed current rest out]: walking [rest] with [closed] groups
    behind and [current] open ends with the groups [out]. *)
Inductive chain_rel :
  groups -> list line_tuple -> list line_tuple -> groups -> Prop :=
| chain_end closed current :
    chain_rel closed current [] (closed ++ [current])
| chain_join closed current prev e rest out :
    last_error current = Some prev ->
    close_enough prev e ->
    chain_rel closed (current ++ [e]) rest out ->
    chain_rel closed current (e :: rest) out
| chain_split closed current prev e rest out :
    last_error current = Some prev ->
    ~ close_enough prev e ->
    chain_rel (closed ++ [current]) [e] rest out ->
    chain_rel closed current (e :: rest) out.

Inductive grouping (lines : list line_tuple) : groups -> Prop :=
| grouping_empty :
    lines = [] -> grouping lines []
| grouping_chain first rest out :
    sorted lines = first :: rest ->
    chain_rel [] [first] rest out ->
    grouping lines out.

(** The x-coordinates of both endpoints of every segment. *)
Definition segment_xs (l : list segment) : list Z :=
  flat_map (fun s => [x1 s; x2 s]) l.

(** What the one-sided branches answer, given the extreme x-coordinates. *)
Definition one_sided_outcome (xs : list Z) (hi lo : Z) (sentinel : Q)
  (image : Image) : lane_center :=
  if (2 <=? length xs)%nat && (400 <? hi - lo)%Z
  then (Some (inject_Z (hi + lo) / 2), Some (inject_Z (shape0 image) / 2))
  else (Some sentinel, Some sentinel).

(** The midpoint of two pixel positions. *)
Definition midpoint_of (p q : Z * Z) : lane_center :=
  (Some (inject_Z (fst p + fst q) / 2), Some (inject_Z (snd p + snd q) / 2)).

(** ** The same program over a store of list objects

    The pure model above treats every list as a value.  The program itself
    builds its lists in place with [append] and hands them from stage to
    stage by reference; this second model keeps the list objects in a
    store, so that what a stage does to the lists it was handed can be
    stated. *)

(** An item of a list: a [(slope, length, line)] tuple, a reference to
    another list, or an [(x, y)] tuple. *)
Inductive value : Set :=
| VTuple (t : line_tuple)
| VRef (a : nat)
| VPoint (p : Z * Z).

(** The list objects, by address. *)
Definition store : Set := list (list value).

(** Store passing with errors. *)
Definition M (A : Type) : Type := store -> option (A * store).

Definition ret {A : Type} (a : A) : M A := fun h => Some (a, h).

Definition bind_h {A B : Type} (m : M A) (k : A -> M B) : M B :=
  fun h => match m h with
           | Some (a, h') => k a h'
           | None => None
           end.

Notation "x <~ m ;; k" := (bind_h m (fun x => k))
  (at level 61, m at next level, right associativity).
Notation "m ;;; k" := (bind_h m (fun _ => k))
  (at level 61, right associativity).

Definition lift {A : Type} (o : option A) : M A :=
  fun h => match o with
           | Some a => Some (a, h)
           | None => None
           end.

Fixpoint for_each_h {A S : Type} (body : S -> A -> M S) (l : list A) (s : S)
  : M S :=
  match l with
  | [] => ret s
  | a :: t => s' <~ body s a ;; for_each_h body t s'
  end.

Fixpoint map_h {A B : Type} (f : A -> M B) (l : list A) : M (list B) :=
  match l with
  | [] => ret []
  | a :: t => b <~ f a ;; bs <~ map_h f t ;; ret (b :: bs)
  end.

Fixpoint update {A : Type} (n : nat) (x : A) (l : list A) : list A :=
  match l, n with
  | [], _ => []
  | _ :: t, O => x :: t
  | a :: t, S n' => a :: update n' x t
  end.

(** [[...]]: a new list object. *)
Definition new_list (items : list value) : M nat :=
  fun h => Some (length h, h ++ [items]).

(** The items of the list at [a]. *)
Definition read (a : nat) : M (list value) :=
  fun h => match nth_error h a with
           | Some o => Some (o, h)
           | None => None
           end.

(** [a.append(v)] *)
Definition append (a : nat) (v : value) : M unit :=
  fun h => match nth_error h a with
           | Some o => Some (tt, update a (o ++ [v]) h)
           | None => None
           end.

Definition as_tuple (v : value) : option line_tuple :=
  match v with VTuple t => Some t | _ => None end.

Definition as_ref (v : value) : option nat :=
  match v with VRef a => Some a | _ => None end.

Definition as_point (v : value) : option (Z * Z) :=
  match v with VPoint p => Some p | _ => None end.

Fixpoint traverse {A B : Type} (f : A -> option B) (l : list A)
  : option (list B) :=
  match l with
  | [] => Some []
  | a :: t => b <- f a ;; bs <- traverse f t ;; Some (b :: bs)
  end.

Definition read_tuples (a : nat) : M (list line_tuple) :=
  o <~ read a ;; lift (traverse as_tuple o).

Definition read_points (a : nat) : M (list (Z * Z)) :=
  o <~ read a ;; lift (traverse as_point o).

(** The groups behind a list of references. *)
Definition read_groups (a : nat) : M groups :=
  o <~ read a ;;
  addrs <~ lift (traverse as_ref o) ;;
  map_h read_tuples addrs.

(** [group_lines] (source lines 35-72); the loop state is the address that
    [current_group] names. *)
Definition group_lines_body_h (lines_sorted grouped_lines : nat)
  (current_group : nat) (i : nat) : M nat :=
  sorted_items <~ read_tuples lines_sorted ;;
  new <~ lift (nth_error sorted_items i) ;;
  members <~ read_tuples current_group ;;
  cur <~ lift (last_error members) ;;
  if Qltb (Qabs (round64 (item0 new - item0 cur))) (round64 (3 # 10)) then
    let '(Segment x1_cur y1_cur x2_cur y2_cur) := item2 cur in
    let '(Segment x1_new y1_new x2_new y2_new) := item2 new in
    let cx_cur := inject_Z (x1_cur + x2_cur) / 2 in
    let cy_cur := inject_Z (y1_cur + y2_cur) / 2 in
    let cx_new := inject_Z (x1_new + x2_new) / 2 in
    let cy_new := inject_Z (y1_new + y2_new) / 2 in
    if root_lt_const (NpSqrt ((cx_cur - cx_new) ^ 2 + (cy_cur - cy_new) ^ 2)) 90
    then append current_group (VTuple new) ;;; ret current_group
    else append grouped_lines (VRef current_group) ;;; new_list [VTuple new]
  else append grouped_lines (VRef current_group) ;;; new_list [VTuple new].

Definition group_lines_h (lines : nat) : M nat :=
  items <~ read_tuples lines ;;
  if negb (truthy items) then new_list []
  else
    grouped_lines <~ new_list [] ;;
    lines_sorted <~ new_list (map VTuple (sorted items)) ;;
    sorted_items <~ read_tuples lines_sorted ;;
    first <~ lift (nth_error sorted_items 0) ;;
    current_group <~ new_list [VTuple first] ;;
    current_group <~
      for_each_h (group_lines_body_h lines_sorted grouped_lines)
                 (seq 1 (length sorted_items - 1)) current_group ;;
    append grouped_lines (VRef current_group) ;;;
    ret grouped_lines.

(** The classifier loop (source lines 99-110). *)
Definition classify_body_h (positive_slopes negative_slopes : nat)
  (_ : unit) (line : segment) : M unit :=
  let '(Segment x1 y1 x2 y2) := line in
  if (x2 - x1 =? 0)%Z then ret tt
  else
    quotient <~ lift (true_div (inject_Z (y2 - y1)) (inject_Z (x2 - x1))) ;;
    let slope_line := round64 quotient in
    let line_length :=
      NpSqrt (inject_Z (wrap32 ((x2 - x1) ^ 2 + (y2 - y1) ^ 2))) in
    if Qltb 0 slope_line then
      append positive_slopes (VTuple (slope_line, line_length, line))
    else if Qltb slope_line 0 then
      append negative_slopes (VTuple (slope_line, line_length, line))
    else ret tt.

Definition stage_classify (lines : list segment) : M (nat * nat) :=
  positive_slopes <~ new_list [] ;;
  negative_slopes <~ new_list [] ;;
  for_each_h (classify_body_h positive_slopes negative_slopes) lines tt ;;;
  ret (positive_slopes, negative_slopes).

Definition stage_group (classified : nat * nat) : M (nat * nat) :=
  let '(positive_slopes, negative_slopes) := classified in
  positive_groups <~ group_lines_h positive_slopes ;;
  negative_groups <~ group_lines_h negative_slopes ;;
  ret (positive_groups, negative_groups).

(** The one-sided branches: the comprehensions read the groups and build
    lists of their own. *)
Definition one_sided_h (side_groups : nat) (sentinel : Q) (image : Image)
  : M lane_center :=
  gs <~ read_groups side_groups ;;
  lift (one_sided gs sentinel image).

(** Body of the loops at lines 139-152, for the group behind [group]. *)
Definition draw_body_h (points : nat) (image : Image) (group : value)
  : M Image :=
  a <~ lift (as_ref group) ;;
  members <~ read_tuples a ;;
  match best_by item1 root_gtb members with
  | None => ret image
  | Some max_line =>
      let '(Segment x1 y1 x2 y2) := item2 max_line in
      let image := cv2_line image (x1, y1) (x2, y2) in
      append points (VPoint (x1, y1)) ;;;
      append points (VPoint (x2, y2)) ;;;
      ret image
  end.

Definition center_of_points_h (points : nat) : M lane_center :=
  pts <~ read_points points ;;
  lift (center_of_points pts).

Definition stage_estimate (points : nat) (grouped : nat * nat) (image : Image)
  : M (lane_center * Image) :=
  let '(positive_groups, negative_groups) := grouped in
  pg <~ read positive_groups ;;
  ng <~ read negative_groups ;;
  if negb (truthy pg) && truthy ng then
    r <~ one_sided_h negative_groups (- (1)) image ;; ret (r, image)
  else if negb (truthy ng) && truthy pg then
    r <~ one_sided_h positive_groups 1 image ;; ret (r, image)
  else
    image <~ for_each_h (draw_body_h points) pg image ;;
    image <~ for_each_h (draw_body_h points) ng image ;;
    r <~ center_of_points_h points ;; ret (r, image).

Definition detect_lane_center_h (lines : option (list segment)) (image : Image)
  : M (lane_center * Image) :=
  points <~ new_list [] ;;
  match lines with
  | None => r <~ center_of_points_h points ;; ret (r, image)
  | Some lines =>
      classified <~ stage_classify lines ;;
      grouped <~ stage_group classified ;;
      stage_estimate points grouped image
  end.

(** [unchanged_below n h h']: every list object that [h] holds below
    address [n] is in [h'] as it was, and no object has gone. *)
Definition unchanged_below (n : nat) (h h' : store) : Prop :=
  (length h <= length h')%nat
  /\ forall b, (b < n)%nat -> nth_error h' b = nth_error h b.

(** [holds_groups n h a gs]: the list at [a] refers, in order, to lists that
    hold the groups [gs]; all of them sit at address [n] or above. *)
Definition holds_groups (n : nat) (h : store) (a : nat) (gs : groups) : Prop :=
  exists addrs,
    (n <= a)%nat
    /\ nth_error h a = Some (map VRef addrs)
    /\ Forall (fun r => (n <= r)%nat) addrs
    /\ Forall2 (fun r g => nth_error h r = Some (map VTuple g)) addrs gs.

(** [unchanged_except p h h']: only the list object at [p] may differ. *)
Definition unchanged_except (p : nat) (h h' : store) : Prop :=
  length h' = length h
  /\ forall b, b <> p -> nth_error h' b = nth_error h b.

(** The estimator on the grouped collections (source lines 116-162). *)
Definition estimate (positive_groups negative_groups : groups) (image : Image)
  : option (lane_center * Image) :=
  if negb (truthy positive_groups) && truthy negative_groups then
    r <- one_sided negative_groups (- (1)) image ;; Some (r, image)
  else if negb (truthy negative_groups) && truthy positive_groups then
    r <- one_sided positive_groups 1 image ;; Some (r, image)
  else
    let reps := representatives (positive_groups ++ negative_groups) in
    r <- center_of_points (flat_map endpoints reps) ;;
    Some (r, draw_all image reps).

(** The loop invariant of [group_lines_h]: the sorted list sits at [s], the
    list of closed groups at [g], the open group at [c], all at address [n]
    or above. *)
Definition open_grouping (n : nat) (h : store) (s g c : nat)
  (items : list line_tuple) (closed : groups) (current : list line_tuple)
  : Prop :=
  (n <= s)%nat /\ (n <= g)%nat /\ (n <= c)%nat
  /\ s <> g /\ s <> c /\ g <> c
  /\ nth_error h s = Some (map VTuple items)
  /\ nth_error h c = Some (map VTuple current)
  /\ exists addrs,
       nth_error h g = Some (map VRef addrs)
       /\ Forall (fun r => (n <= r)%nat /\ r <> g /\ r <> c) addrs
       /\ Forall2 (fun r grp => nth_error h r = Some (map VTuple grp))
                  addrs closed.

(** The stroke [cv2.line] adds for a tuple's segment. *)
Definition stroke_of (t : line_tuple) : (Z * Z) * (Z * Z) :=
  ((x1 (item2 t), y1 (item2 t)), (x2 (item2 t), y2 (item2 t))).

(** ** The callers (source lines 182-230) *)

(** [int(v)] on a number: truncation toward zero. *)
Definition py_int (v : Q) : Z := Z.quot (Qnum v) (Z.pos (Qden v)).

(** A frame together with the [cv2.circle] calls applied to it. *)
Record Marked : Set := MkMarked {
  marked_frame : Image;
  circles : list (Z * Z)
}.

(** [cv2.circle(image, center, 5, (255, 0, 0), -1)], for a centre whose
    coordinates fit a C [int], as the coordinates of a lane centre do. *)
Definition cv2_circle (image : Marked) (center : Z * Z) : Marked :=
  {| marked_frame := marked_frame image; circles := circles image ++ [center] |}.

(** [draw_center_point] (source lines 182-195); [int(None)] raises. *)
Definition draw_center_point (image : Marked) (center_x center_y : option Q)
  : option Marked :=
  cx <- center_x ;;
  cy <- center_y ;;
  let image_with_center := cv2_circle image (py_int cx, py_int cy) in
  Some image_with_center.

(** What [main] prints and shows for one image file. *)
Record report : Set := MkReport {
  report_center : lane_center;
  report_angle : Q;
  report_image : Marked
}.

(** Body of the loop of [main] (source lines 205-230), from the point where
    the frame has been read and preprocessed; [lines] is what
    [cv2.HoughLinesP] finds in it.  [calculate_steering_angle] subtracts
    from [center_lane_x], which raises when that is [None]. *)
Definition main_body (input : option (list segment) * Image) : option report :=
  let '(lines, preprocessed_image) := input in
  '(c, preprocessed_image) <- detect_lane_center lines preprocessed_image ;;
  let '(center_lane_x, center_lane_y) := c in
  let image_width := 315 in
  let max_steering_angle := 70 in
  lane_center_x <- center_lane_x ;;
  steering_angle <-
    calculate_steering_angle image_width lane_center_x max_steering_angle ;;
  output_image <-
    draw_center_point (MkMarked preprocessed_image [])
                      center_lane_x center_lane_y ;;
  Some (MkReport c steering_angle output_image).

(** The loop of [main] over the image files; an exception ends it. *)
Definition main (inputs : list (option (list segment) * Image))
  : option (list report) :=
  for_each (fun done input => r <- main_body input ;; Some (done ++ [r]))
           inputs [].

(** A segment with its endpoints exchanged. *)
Definition reversed (s : segment) : segment :=
  Segment (x2 s) (y2 s) (x1 s) (y1 s).

(** Two tuples for the same line: equal slope, equal length, endpoints
    exchanged. *)
Definition same_line (t t' : line_tuple) : Prop :=
  item0 t == item0 t'
  /\ radicand (item1 t) == radicand (item1 t')
  /\ item2 t' = reversed (item2 t).

(** Sign of the product of the coordinate differences. *)
Definition rise_run (s : segment) : Z := (x2 s - x1 s) * (y2 s - y1 s).

(** [separated gs]: between any two neighbouring groups the chaining test
    fails, from the last member of the first to the first member of the
    second. *)
Inductive separated : groups -> Prop :=
| separated_nil : separated []
| separated_one g : separated [g]
| separated_cons g1 g2 rest :
    (forall a b, last_error g1 = Some a -> hd_error g2 = Some b ->
                 ~ close_enough a b) ->
    separated (g2 :: rest) ->
    separated (g1 :: g2 :: rest).

(** No two different items of [l] have the same slope. *)
Definition slopes_distinct (l : list line_tuple) : Prop :=
  forall a b, In a l -> In b l -> item0 a == item0 b -> a = b.

(** [p] is an endpoint of a segment of [lines] that the classifier keeps. *)
Definition kept_endpoint (lines : list segment) (p : Z * Z) : Prop :=
  exists s,
    In s lines /\ (is_positive s = true \/ is_negative s = true)
    /\ (p = (x1 s, y1 s) \/ p = (x2 s, y2 s)).

(** The x-coordinates of one side span at most 400. *)
Definition narrow (xs : list Z) : Prop :=
  exists hi lo, greatest hi xs /\ least lo xs /\ (hi - lo <= 400)%Z.

(** The frame has at least one segment that the classifier keeps. *)
Definition sloped (input : option (list segment) * Image) : bool :=
  match fst input with
  | None => false
  | Some l => truthy (filter is_positive l) || truthy (filter is_negative l)
  end.

(** [returns r P]: the call produced a value, and the value satisfies [P]. *)
Definition returns {A : Type} (r : option A) (P : A -> Prop) : Prop :=
  exists a, r = Some a /\ P a.

(** * Properties *)

Lemma Qltb_iff (a b : Q) : Qltb a b = true <-> a < b.
Proof. unfold Qltb, Qlt. apply Z.ltb_lt. Qed.

Lemma Qltb_false_iff (a b : Q) : Qltb a b = false <-> b <= a.
Proof.
  unfold Qltb, Qle. rewrite Z.ltb_ge. reflexivity.
Qed.

(** ** Binary64 rounding *)

Lemma round_half_even_spec (num den : Z) :
  (0 < den)%Z ->
  let m := round_half_even num den in
  (num / den <= m <= num / den + 1)%Z
  /\ (Z.abs (2 * num - 2 * m * den) <= den)%Z.
Proof.
  intros Hden. unfold round_half_even.
  pose proof (Z.div_mod num den ltac:(lia)) as Hdm.
  pose proof (Z.mod_pos_bound num den Hden) as Hr.
  set (q := (num / den)%Z) in *. set (r := (num mod den)%Z) in *.
  destruct (Z.compare_spec (2 * r) den) as [E|E|E]; cbn zeta.
  - destruct (Z.even q); split; nia.
  - split; nia.
  - split; nia.
Qed.

Lemma Qpower2_pos (e : Z) : 0 < 2 ^ e.
Proof. apply Qpower_0_lt. reflexivity. Qed.

Lemma Qpower2_succ (e : Z) : 2 ^ (e + 1) == 2 ^ e * 2.
Proof. rewrite Qpower_plus by discriminate. reflexivity. Qed.

Lemma Qpower2_opp (e : Z) : 2 ^ (- e) * 2 ^ e == 1.
Proof.
  rewrite Qpower_opp. field. apply Qpower_not_0. discriminate.
Qed.

Lemma inject_Z_pow2 (k : Z) : (0 <= k)%Z -> inject_Z (2 ^ k) == 2 ^ k.
Proof. intros H. apply (Zpower_Qpower 2 k H). Qed.

Section Scaled.
Variables n d : positive.
Let e := (Z.log2 (Z.pos n) - Z.log2 (Z.pos d) - 53)%Z.
Let num := if (0 <=? e)%Z then Z.pos n else (Z.pos n * 2 ^ (- e))%Z.
Let den := if (0 <=? e)%Z then (Z.pos d * 2 ^ e)%Z else Z.pos d.

Lemma scaled_bounds :
  (0 < den)%Z /\ (2 ^ 52 * den < num)%Z /\ (num < 2 ^ 54 * den)%Z.
Proof.
  pose proof (Z.log2_spec (Z.pos n) ltac:(lia)) as [Hn1 Hn2].
  pose proof (Z.log2_spec (Z.pos d) ltac:(lia)) as [Hd1 Hd2].
  pose proof (Z.log2_nonneg (Z.pos n)) as Ha.
  pose proof (Z.log2_nonneg (Z.pos d)) as Hb.
  set (a := Z.log2 (Z.pos n)) in *. set (b := Z.log2 (Z.pos d)) in *.
  unfold num, den. destruct (Z.leb_spec 0 e) as [He|He].
  - assert (Ea : a = (b + 53 + e)%Z) by (unfold e; lia).
    assert (P : (0 < 2 ^ e)%Z) by (apply Z.pow_pos_nonneg; lia).
    rewrite Ea in Hn1, Hn2.
    replace (Z.succ (b + 53 + e)) with (54 + b + e)%Z in Hn2 by lia.
    rewrite !Z.pow_add_r in Hn1, Hn2 by lia.
    rewrite Z.pow_succ_r in Hd2 by lia.
    change (2 ^ 53)%Z with (2 ^ 52 * 2)%Z in Hn1.
    split; [nia|]. split; nia.
  - assert (Eb : (b + 53 = a + - e)%Z) by (unfold e; lia).
    assert (P : (0 < 2 ^ (- e))%Z) by (apply Z.pow_pos_nonneg; lia).
    assert (H1 : (2 ^ (b + 53) <= Z.pos n * 2 ^ (- e))%Z).
    { rewrite Eb, Z.pow_add_r by lia. nia. }
    assert (H2 : (Z.pos n * 2 ^ (- e) < 2 ^ (b + 54))%Z).
    { replace (b + 54)%Z with (Z.succ a + - e)%Z by lia.
      rewrite Z.pow_add_r by lia. nia. }
    rewrite Z.pow_add_r in H1, H2 by lia.
    rewrite Z.pow_succ_r in Hd2 by lia.
    change (2 ^ 53)%Z with (2 ^ 52 * 2)%Z in H1.
    split; [lia|]. split; nia.
Qed.

Lemma scaled_value :
  Z.pos n # d == inject_Z num / inject_Z den * 2 ^ e.
Proof.
  rewrite (Qmake_Qdiv (Z.pos n) d).
  pose proof (Qpower2_pos e) as Pe.
  unfold num, den. destruct (Z.leb_spec 0 e) as [He|He].
  - rewrite inject_Z_mult, (inject_Z_pow2 e He). field.
    split; [lra|]. unfold Qeq. simpl. lia.
  - rewrite inject_Z_mult, (inject_Z_pow2 (- e)) by lia.
    pose proof (Qpower2_opp e) as Ho.
    set (u := 2 ^ (- e)) in *. set (v := 2 ^ e) in *.
    assert (Hd : ~ inject_Z (Z.pos d) == 0) by (unfold Qeq; simpl; lia).
    setoid_replace (inject_Z (Z.pos n) * u / inject_Z (Z.pos d) * v)
      with (inject_Z (Z.pos n) / inject_Z (Z.pos d) * (u * v)) by (field; exact Hd).
    rewrite Ho. field. exact Hd.
Qed.

(** The result is a 53-bit mantissa times a power of two, within half a
    unit in the last place of the argument. *)
Lemma round64_pos_spec :
  exists (m e' : Z),
    round64_pos n d = inject_Z m * 2 ^ e'
    /\ (2 ^ 52 <= m <= 2 ^ 53)%Z
    /\ Qabs ((Z.pos n # d) - inject_Z m * 2 ^ e') <= (1 # 2) * 2 ^ e'.
Proof.
  destruct scaled_bounds as (Hden & Hlo & Hhi).
  pose proof scaled_value as Hval.
  unfold round64_pos. fold e. fold num. fold den.
  assert (Hd0 : ~ inject_Z den == 0) by (unfold Qeq; simpl; lia).
  assert (Hdq : 0 < inject_Z den) by (unfold Qlt; simpl; lia).
  destruct (Z.ltb_spec (num / den) (2 ^ 53)) as [Hb|Hb].
  - exists (round_half_even num den), e. split; [reflexivity|].
    destruct (round_half_even_spec num den Hden) as [Hm Herr].
    set (m := round_half_even num den) in *.
    assert (Hq0 : (2 ^ 52 <= num / den)%Z).
    { apply Z.div_le_lower_bound; lia. }
    split; [lia|].
    rewrite Hval.
    setoid_replace (inject_Z num / inject_Z den * 2 ^ e - inject_Z m * 2 ^ e)
      with ((inject_Z num / inject_Z den - inject_Z m) * 2 ^ e) by ring.
    rewrite Qabs_Qmult, (Qabs_pos (2 ^ e)) by (apply Qlt_le_weak, Qpower2_pos).
    apply Qmult_le_compat_r; [|apply Qlt_le_weak, Qpower2_pos].
    apply Qabs_Qle_condition.
    set (x := inject_Z num / inject_Z den).
    assert (Hx : x * inject_Z den == inject_Z num) by (unfold x; field; exact Hd0).
    apply Z.abs_le in Herr. destruct Herr as [He1 He2].
    rewrite Zle_Qle in He1, He2. unfold Z.sub in He1, He2.
    repeat (rewrite inject_Z_plus in He1 || rewrite inject_Z_opp in He1
            || rewrite inject_Z_mult in He1).
    repeat (rewrite inject_Z_plus in He2 || rewrite inject_Z_opp in He2
            || rewrite inject_Z_mult in He2).
    change (inject_Z 2) with 2 in *.
    split; nra.
  - exists (round_half_even num (2 * den)), (e + 1)%Z. split; [reflexivity|].
    destruct (round_half_even_spec num (2 * den) ltac:(lia)) as [Hm Herr].
    set (m := round_half_even num (2 * den)) in *.
    assert (Hnum : (2 ^ 53 * den <= num)%Z).
    { pose proof (Z.mul_div_le num den Hden). nia. }
    assert (Hq0 : (2 ^ 52 <= num / (2 * den))%Z).
    { apply Z.div_le_lower_bound; [lia|].
      change (2 ^ 53)%Z with (2 ^ 52 * 2)%Z in Hnum. lia. }
    assert (Hq1 : (num / (2 * den) < 2 ^ 53)%Z).
    { apply Z.div_lt_upper_bound; [lia|].
      change (2 ^ 54)%Z with (2 ^ 53 * 2)%Z in Hhi. lia. }
    split; [lia|].
    rewrite Hval, Qpower2_succ.
    setoid_replace (inject_Z num / inject_Z den * 2 ^ e - inject_Z m * (2 ^ e * 2))
      with ((inject_Z num / inject_Z den - 2 * inject_Z m) * 2 ^ e) by ring.
    setoid_replace ((1 # 2) * (2 ^ e * 2)) with (1 * 2 ^ e) by ring.
    rewrite Qabs_Qmult, (Qabs_pos (2 ^ e)) by (apply Qlt_le_weak, Qpower2_pos).
    apply Qmult_le_compat_r; [|apply Qlt_le_weak, Qpower2_pos].
    apply Qabs_Qle_condition.
    set (x := inject_Z num / inject_Z den).
    assert (Hx : x * inject_Z den == inject_Z num) by (unfold x; field; exact Hd0).
    apply Z.abs_le in Herr. destruct Herr as [He1 He2].
    rewrite Zle_Qle in He1, He2. unfold Z.sub in He1, He2.
    repeat (rewrite inject_Z_plus in He1 || rewrite inject_Z_opp in He1
            || rewrite inject_Z_mult in He1).
    repeat (rewrite inject_Z_plus in He2 || rewrite inject_Z_opp in He2
            || rewrite inject_Z_mult in He2).
    change (inject_Z 2) with 2 in *.
    split; nra.
Qed.
End Scaled.

Lemma round64_pos_positive (n d : positive) : 0 < round64_pos n d.
Proof.
  destruct (round64_pos_spec n d) as (m & e' & -> & [Hm _] & _).
  apply Qmult_lt_0_compat; [|apply Qpower2_pos].
  assert (P : (0 < 2 ^ 52)%Z) by reflexivity.
  unfold Qlt. simpl. lia.
Qed.

Lemma round64_eq (p q : Q) : p == q -> round64 p = round64 q.
Proof. intros H. unfold round64. rewrite (Qred_complete p q H). reflexivity. Qed.

Lemma round64_sign (q : Q) :
  (0 < round64 q <-> 0 < q) /\ (round64 q < 0 <-> q < 0).
Proof.
  unfold round64. rewrite <- (Qred_correct q) at 2 4.
  destruct (Qred q) as [[|n|n] d]; cbn [Qnum Qden].
  - split; split; intros H; discriminate H.
  - pose proof (round64_pos_positive n d) as P.
    assert (Hq : 0 < Z.pos n # d) by reflexivity.
    split; split; intros H; try assumption; exfalso; lra.
  - pose proof (round64_pos_positive n d) as P.
    assert (Hq : Z.neg n # d < 0) by reflexivity.
    split; split; intros H; try assumption; try lra.
Qed.

(** The value of the literal [0.3]. *)
Lemma round64_03 : round64 (3 # 10) == 5404319552844595 # 18014398509481984.
Proof. vm_compute. reflexivity. Qed.

Lemma round64_pos_below_03 (n d : positive) :
  round64_pos n d < round64 (3 # 10) -> (Z.pos n # d) <= 3 # 10.
Proof.
  destruct (round64_pos_spec n d) as (m & e' & -> & [Hm1 Hm2] & Herr).
  intros Hlt. rewrite round64_03 in Hlt.
  apply Qabs_Qle_condition in Herr. destruct Herr as [_ Herr].
  pose proof (Qpower2_pos e') as Pe.
  assert (Hm1q : 4503599627370496 <= inject_Z m).
  { change 4503599627370496 with (inject_Z (2 ^ 52)).
    rewrite <- Zle_Qle. exact Hm1. }
  assert (Hm2q : inject_Z m <= 9007199254740992).
  { change 9007199254740992 with (inject_Z (2 ^ 53)).
    rewrite <- Zle_Qle. exact Hm2. }
  set (M := inject_Z m) in *. set (x := Z.pos n # d) in *.
  destruct (Z_lt_le_dec e' (-54)) as [He|He].
  - assert (Hp : 2 ^ e' <= 2 ^ (-55)).
    { apply Qpower_le_compat_l; [lia|discriminate]. }
    assert (V : 2 ^ (-55) == 1 # 36028797018963968) by reflexivity.
    rewrite V in Hp. set (p := 2 ^ e') in *. nra.
  - destruct (Z.eq_dec e' (-54)) as [->|Hne].
    + assert (V : 2 ^ (-54) == 1 # 18014398509481984) by reflexivity.
      rewrite V in Hlt, Herr.
      assert (Hmz : (m < 5404319552844595)%Z).
      { rewrite Zlt_Qlt. fold M.
        change (inject_Z 5404319552844595) with 5404319552844595. lra. }
      assert (Hmz' : M <= 5404319552844594).
      { unfold M. change 5404319552844594 with (inject_Z 5404319552844594).
        rewrite <- Zle_Qle. lia. }
      lra.
    + exfalso.
      assert (Hp : 2 ^ (-53) <= 2 ^ e').
      { apply Qpower_le_compat_l; [lia|discriminate]. }
      assert (V : 2 ^ (-53) == 1 # 9007199254740992) by reflexivity.
      rewrite V in Hp. set (p := 2 ^ e') in *. nra.
Qed.

Lemma round64_below_03 (x : Q) :
  Qabs (round64 x) < round64 (3 # 10) -> Qabs x <= 3 # 10.
Proof.
  unfold round64 at 1. rewrite <- (Qred_correct x) at 2.
  destruct (Qred x) as [[|n|n] d]; cbn [Qnum Qden]; intros H.
  - discriminate.
  - pose proof (round64_pos_positive n d) as P.
    rewrite Qabs_pos in H by lra.
    apply round64_pos_below_03 in H. exact H.
  - pose proof (round64_pos_positive n d) as P.
    rewrite Qabs_opp, Qabs_pos in H by lra.
    apply round64_pos_below_03 in H. exact H.
Qed.

Lemma Qltb_0_round64 (q : Q) : Qltb 0 (round64 q) = Qltb 0 q.
Proof.
  destruct (Qltb 0 q) eqn:E.
  - apply Qltb_iff. apply (proj1 (round64_sign q)), Qltb_iff, E.
  - destruct (Qltb 0 (round64 q)) eqn:E'; [|reflexivity].
    apply Qltb_iff, (proj1 (round64_sign q)), Qltb_iff in E'. congruence.
Qed.

Lemma Qltb_round64_0 (q : Q) : Qltb (round64 q) 0 = Qltb q 0.
Proof.
  destruct (Qltb q 0) eqn:E.
  - apply Qltb_iff. apply (proj2 (round64_sign q)), Qltb_iff, E.
  - destruct (Qltb (round64 q) 0) eqn:E'; [|reflexivity].
    apply Qltb_iff, (proj2 (round64_sign q)), Qltb_iff in E'. congruence.
Qed.

(** A squared length below [2 ^ 31] is stored as it is. *)
Lemma wrap32_small (z : Z) : (0 <= z < 2 ^ 31)%Z -> wrap32 z = z.
Proof.
  intros H. unfold wrap32.
  rewrite Z.mod_small; [lia|].
  change (2 ^ 31)%Z with 2147483648%Z in *.
  change (2 ^ 32)%Z with 4294967296%Z. lia.
Qed.


(** ** Division and the steering angle *)

Lemma true_div_nonzero (a b : Q) : ~ b == 0 -> true_div a b = Some (a / b).
Proof.
  intros Hb. unfold true_div.
  destruct (Qeq_bool b 0) eqn:E; [|reflexivity].
  apply Qeq_bool_eq in E. contradiction.
Qed.

Lemma half_nonzero (w : Q) : ~ w == 0 -> ~ w / 2 == 0.
Proof.
  intros Hw H. apply Hw.
  setoid_replace w with (w / 2 * 2) by (field).
  rewrite H. reflexivity.
Qed.

(** The angle is defined for every non-zero width. *)
Lemma steering_angle_defined (w x m : Q) :
  ~ w == 0 ->
  calculate_steering_angle w x m = Some ((x - w / 2) / (w / 2) * m).
Proof.
  intros Hw. unfold calculate_steering_angle.
  rewrite (true_div_nonzero _ _ (half_nonzero w Hw)). reflexivity.
Qed.

(** The closed form as an affine map of the lane centre. *)
Lemma steering_formula_affine (w x m : Q) :
  ~ w == 0 ->
  (x - w / 2) / (w / 2) * m == (2 * m / w) * x - m.
Proof. intros Hw. field. exact Hw. Qed.

(** C3: for every non-zero image width the function returns exactly
    ((lane_center_x - image_width/2) / (image_width/2)) * max_steering_angle;
    with width 315 and maximum 70, the centres 157.5, 315 and 0 give the
    angles 0, 70 and -70. *)
Theorem C3_steering_angle_formula :
  (forall image_width lane_center_x max_steering_angle : Q,
      ~ image_width == 0 ->
      calculate_steering_angle image_width lane_center_x max_steering_angle
      = Some ((lane_center_x - image_width / 2) / (image_width / 2)
              * max_steering_angle))
  /\ returns (calculate_steering_angle 315 (315 # 2) 70) (fun a => a == 0)
  /\ returns (calculate_steering_angle 315 315 70) (fun a => a == 70)
  /\ returns (calculate_steering_angle 315 0 70) (fun a => a == - (70)).
Proof.
  split; [exact steering_angle_defined|].
  repeat split; eexists; (split; [vm_compute; reflexivity | reflexivity]).
Qed.

Lemma C3_steering_angle_formula_witness :
  ~ 315 == 0
  /\ calculate_steering_angle 315 315 70
     = Some ((315 - 315 / 2) / (315 / 2) * 70).
Proof.
  split; [discriminate|].
  apply (proj1 C3_steering_angle_formula). discriminate.
Defined.

(** ** The stable sort *)

Lemma insert_sorted_perm (e : line_tuple) (l : list line_tuple) :
  Permutation (e :: l) (insert_sorted e l).
Proof.
  induction l as [|h t IH]; simpl; [reflexivity|].
  destruct (Qltb (item0 h) (item0 e)); [|reflexivity].
  rewrite perm_swap. apply perm_skip, IH.
Qed.

Lemma sorted_perm (l : list line_tuple) : Permutation l (sorted l).
Proof.
  induction l as [|e t IH]; simpl; [constructor|].
  rewrite <- insert_sorted_perm. apply perm_skip, IH.
Qed.

Lemma sorted_length (l : list line_tuple) : length (sorted l) = length l.
Proof. symmetry. apply Permutation_length, sorted_perm. Qed.

Lemma insert_sorted_Forall (P : line_tuple -> Prop) e l :
  P e -> Forall P l -> Forall P (insert_sorted e l).
Proof.
  intros He Hl. eapply Permutation_Forall; [apply insert_sorted_perm|].
  constructor; assumption.
Qed.

Lemma insert_sorted_ascending (e : line_tuple) (l : list line_tuple) :
  StronglySorted slope_le l -> StronglySorted slope_le (insert_sorted e l).
Proof.
  induction l as [|h t IH]; simpl; intros Hs.
  - repeat constructor.
  - inversion Hs as [|? ? Ht Hh]; subst.
    destruct (Qltb (item0 h) (item0 e)) eqn:E.
    + constructor; [apply IH, Ht|].
      apply insert_sorted_Forall; [|exact Hh].
      apply Qltb_iff in E. unfold slope_le. lra.
    + apply Qltb_false_iff in E.
      constructor; [exact Hs|].
      constructor; [exact E|].
      eapply Forall_impl; [|exact Hh].
      intros a Ha. unfold slope_le in *. lra.
Qed.

Lemma sorted_ascending (l : list line_tuple) : StronglySorted slope_le (sorted l).
Proof.
  induction l as [|e t IH]; simpl; [constructor|].
  apply insert_sorted_ascending, IH.
Qed.

(** Stability: items of equal slope keep their input order. *)
Lemma insert_sorted_stable (q : Q) (e : line_tuple) (l : list line_tuple) :
  StronglySorted slope_le l ->
  filter (fun t => Qeq_bool (item0 t) q) (insert_sorted e l)
  = filter (fun t => Qeq_bool (item0 t) q) (e :: l).
Proof.
  induction l as [|h t IH]; intros Hs; [reflexivity|].
  inversion Hs as [|? ? Ht Hh]; subst.
  cbn [insert_sorted].
  destruct (Qltb (item0 h) (item0 e)) eqn:E; [|reflexivity].
  apply Qltb_iff in E.
  cbn [filter]. rewrite (IH Ht). cbn [filter].
  destruct (Qeq_bool (item0 e) q) eqn:Ee; [|reflexivity].
  destruct (Qeq_bool (item0 h) q) eqn:Eh; [|reflexivity].
  apply Qeq_bool_eq in Ee, Eh. lra.
Qed.

Lemma sorted_stable (q : Q) (l : list line_tuple) :
  filter (fun t => Qeq_bool (item0 t) q) (sorted l)
  = filter (fun t => Qeq_bool (item0 t) q) l.
Proof.
  induction l as [|e t IH]; [reflexivity|].
  cbn [sorted]. rewrite insert_sorted_stable by apply sorted_ascending.
  cbn [filter]. rewrite IH. reflexivity.
Qed.

(** ** The grouping loop *)

Lemma last_error_snoc {A : Type} (l : list A) (a : A) :
  last_error (l ++ [a]) = Some a.
Proof.
  induction l as [|b t IH]; [reflexivity|].
  simpl. destruct (t ++ [a]) eqn:E; [|exact IH].
  destruct t; discriminate.
Qed.

Lemma group_lines_body_chained lines_sorted closed cur prev e i :
  nth_error lines_sorted i = Some e ->
  last_error cur = Some prev ->
  group_lines_body lines_sorted (closed, cur) i
  = Some (if chained prev e then (closed, cur ++ [e])
          else (closed ++ [cur], [e])).
Proof.
  intros Hn Hl. unfold group_lines_body. rewrite Hn, Hl. cbn [bind].
  unfold chained.
  destruct (Qltb (Qabs (round64 (item0 e - item0 prev))) (round64 (3 # 10)));
    [|reflexivity].
  destruct (item2 prev) as [a1 b1 a2 b2], (item2 e) as [c1 d1 c2 d2].
  cbn [andb]. unfold root_lt_const, dist_sq, midpoint; cbn [radicand fst snd x1 y1 x2 y2].
  destruct (Qltb _ _); reflexivity.
Qed.

Lemma group_loop (rest pre : list line_tuple) closed cur prev :
  last_error cur = Some prev ->
  exists closed' cur',
    for_each (group_lines_body (pre ++ rest))
             (seq (length pre) (length rest)) (closed, cur)
    = Some (closed', cur')
    /\ closed' ++ [cur'] = chain_from closed cur prev rest.
Proof.
  revert pre closed cur prev.
  induction rest as [|e t IH]; intros pre closed cur prev Hl.
  - exists closed, cur. split; reflexivity.
  - cbn [length seq for_each chain_from].
    rewrite (group_lines_body_chained _ closed cur prev e); [|
      rewrite nth_error_app2, Nat.sub_diag by lia; reflexivity | exact Hl].
    cbn [bind].
    replace (pre ++ e :: t) with ((pre ++ [e]) ++ t)
      by (rewrite <- app_assoc; reflexivity).
    replace (S (length pre)) with (length (pre ++ [e]))
      by (rewrite length_app; simpl; lia).
    destruct (chained prev e).
    + apply IH, last_error_snoc.
    + apply IH. reflexivity.
Qed.

(** [group_lines] never raises, and is the chaining pass over the sorted
    input. *)
Lemma group_lines_chain (lines : list line_tuple) :
  group_lines lines = Some (chain_groups (sorted lines)).
Proof.
  unfold group_lines. destruct lines as [|l0 lines]; [reflexivity|].
  cbn [truthy negb].
  destruct (sorted (l0 :: lines)) as [|first rest] eqn:Es.
  - apply (f_equal (@length _)) in Es. rewrite sorted_length in Es. discriminate.
  - cbn [nth_error bind length Nat.sub chain_groups]. rewrite Nat.sub_0_r.
    destruct (group_loop rest [first] [] [first] first eq_refl)
      as (closed' & cur' & Hrun & Hout).
    cbn [app length] in Hrun. rewrite Hrun. cbn [bind]. rewrite Hout.
    reflexivity.
Qed.

Lemma chain_from_concat (rest : list line_tuple) closed cur prev :
  concat (chain_from closed cur prev rest) = concat closed ++ cur ++ rest.
Proof.
  revert closed cur prev.
  induction rest as [|e t IH]; intros closed cur prev; cbn [chain_from].
  - rewrite concat_app. simpl. rewrite !app_nil_r. reflexivity.
  - destruct (chained prev e); rewrite IH.
    + rewrite <- app_assoc. reflexivity.
    + rewrite concat_app. simpl. rewrite app_nil_r, <- app_assoc. reflexivity.
Qed.

Lemma chain_from_nonempty (rest : list line_tuple) closed cur prev :
  Forall (fun g => g <> []) closed -> cur <> [] ->
  Forall (fun g => g <> []) (chain_from closed cur prev rest).
Proof.
  revert closed cur prev.
  induction rest as [|e t IH]; intros closed cur prev Hc Hcur; cbn [chain_from].
  - apply Forall_app. split; [exact Hc|]. constructor; [exact Hcur|constructor].
  - destruct (chained prev e).
    + apply IH; [exact Hc|]. destruct cur; discriminate.
    + apply IH; [|discriminate].
      apply Forall_app. split; [exact Hc|]. constructor; [exact Hcur|constructor].
Qed.

Lemma chain_groups_concat (l : list line_tuple) : concat (chain_groups l) = l.
Proof.
  destruct l as [|first rest]; [reflexivity|].
  unfold chain_groups. rewrite chain_from_concat. reflexivity.
Qed.

Lemma chain_groups_nonempty (l : list line_tuple) :
  Forall (fun g => g <> []) (chain_groups l).
Proof.
  destruct l as [|first rest]; [constructor|].
  apply chain_from_nonempty; [constructor|discriminate].
Qed.

Lemma chain_groups_nil (l : list line_tuple) : chain_groups l = [] <-> l = [].
Proof.
  split; intros H; [|subst; reflexivity].
  rewrite <- (chain_groups_concat l), H. reflexivity.
Qed.

Lemma sorted_nil (l : list line_tuple) : sorted l = [] <-> l = [].
Proof.
  split; intros H; [|subst; reflexivity].
  apply (f_equal (@length _)) in H. rewrite sorted_length in H.
  destruct l; [reflexivity|discriminate].
Qed.

(** ** The classifier *)

Lemma classify_body_spec pos neg (s : segment) :
  classify_body (pos, neg) s
  = Some (pos ++ map tuple_of (filter is_positive [s]),
          neg ++ map tuple_of (filter is_negative [s])).
Proof.
  destruct s as [a1 b1 a2 b2].
  unfold classify_body, is_positive, is_negative, slope, tuple_of.
  cbn [filter x1 y1 x2 y2].
  destruct (a2 - a1 =? 0)%Z eqn:E.
  - apply Z.eqb_eq in E.
    assert (Ha : (a1 =? a2)%Z = true) by (apply Z.eqb_eq; lia).
    rewrite Ha. cbn [negb andb map]. rewrite !app_nil_r. reflexivity.
  - apply Z.eqb_neq in E.
    assert (Ha : (a1 =? a2)%Z = false) by (apply Z.eqb_neq; lia).
    rewrite Ha. cbn [negb andb].
    rewrite true_div_nonzero.
    2:{ intros H. apply E. unfold Qeq in H. simpl in H. lia. }
    cbn [bind]. cbv zeta. rewrite Qltb_0_round64, Qltb_round64_0.
    destruct (Qltb 0 _) eqn:Ep.
    + assert (En : Qltb (inject_Z (b2 - b1) / inject_Z (a2 - a1)) 0 = false).
      { apply Qltb_false_iff. apply Qltb_iff in Ep. lra. }
      rewrite En. cbn [map]. rewrite app_nil_r. reflexivity.
    + destruct (Qltb _ 0); cbn [map]; rewrite ?app_nil_r; reflexivity.
Qed.

Lemma classify_loop (lines : list segment) pos neg :
  for_each classify_body lines (pos, neg)
  = Some (pos ++ map tuple_of (filter is_positive lines),
          neg ++ map tuple_of (filter is_negative lines)).
Proof.
  revert pos neg.
  induction lines as [|s t IH]; intros pos neg.
  - simpl. rewrite !app_nil_r. reflexivity.
  - cbn [for_each]. rewrite classify_body_spec. cbn [bind]. rewrite IH.
    rewrite <- !app_assoc, <- !map_app.
    change (s :: t) with ([s] ++ t). rewrite !filter_app. reflexivity.
Qed.

Lemma classify_spec (lines : list segment) :
  classify lines
  = Some (map tuple_of (filter is_positive lines),
          map tuple_of (filter is_negative lines)).
Proof. apply classify_loop. Qed.

Lemma item2_tuple_of (l : list segment) : map item2 (map tuple_of l) = l.
Proof.
  rewrite map_map. unfold item2, tuple_of. simpl. apply map_id.
Qed.

(** ** Python's [max] and [min] *)

(** The keys in [ok] are those the order [better] compares as a strict weak
    order; a [nan] is not among them. *)
Section FirstBest.
Context {A K : Type} (key : A -> K) (better : K -> K -> bool) (ok : K -> Prop).
Hypothesis better_trans :
  forall a b c, better a b = true -> better b c = true -> better a c = true.
Hypothesis better_weak :
  forall a b c,
    ok c -> better a b = true -> better c b = false -> better a c = true.

Lemma best_from_spec (l : list A) (b : A) :
  (forall e, In e l -> ok (key e)) ->
  (best_from key better b l = b
   /\ forall e, In e l -> better (key e) (key b) = false)
  \/ (better (key (best_from key better b l)) (key b) = true
      /\ first_best key better l (best_from key better b l)).
Proof.
  revert b. induction l as [|a t IH]; intros b Hok.
  - left. split; [reflexivity|]. intros e [].
  - assert (Hok' : forall e, In e t -> ok (key e))
      by (intros e He; apply Hok; right; exact He).
    cbn [best_from]. destruct (better (key a) (key b)) eqn:E.
    + right.
      destruct (IH a Hok') as [[Heq Hall]|[Hb (pre & post & Ht & Hpre & Hpost)]].
      * rewrite Heq. split; [exact E|].
        exists [], t. repeat split; [intros e []|exact Hall].
      * split; [eapply better_trans; eassumption|].
        exists (a :: pre), post. rewrite Ht at 1. repeat split; [|exact Hpost].
        intros e [<-|He]; [exact Hb|apply Hpre, He].
    + destruct (IH b Hok') as [[Heq Hall]|[Hb (pre & post & Ht & Hpre & Hpost)]].
      * left. split; [exact Heq|]. intros e [<-|He]; [exact E|apply Hall, He].
      * right. split; [exact Hb|].
        exists (a :: pre), post. rewrite Ht at 1. repeat split; [|exact Hpost].
        intros e [<-|He]; [|apply Hpre, He].
        eapply better_weak; [apply Hok; left; reflexivity|eassumption..].
Qed.

Lemma best_by_spec (l : list A) (m : A) :
  (forall e, In e l -> ok (key e)) ->
  best_by key better l = Some m -> first_best key better l m.
Proof.
  destruct l as [|a t]; [discriminate|]. intros Hok [= <-].
  destruct (best_from_spec t a (fun e He => Hok e (or_intror He)))
    as [[Heq Hall]|[Hb (pre & post & Ht & Hpre & Hpost)]].
  - rewrite Heq. exists [], t. repeat split; [intros e []|exact Hall].
  - exists (a :: pre), post. rewrite Ht at 1. repeat split; [|exact Hpost].
    intros e [<-|He]; [exact Hb|apply Hpre, He].
Qed.

(** The pick is unique: [first_best] determines it. *)
Lemma first_best_unique (l : list A) (m m' : A) :
  first_best key better l m -> first_best key better l m' -> m = m'.
Proof.
  intros (pre & post & Hl & Hpre & Hpost) (pre' & post' & Hl' & Hpre' & Hpost').
  revert pre' Hl' Hpre'. subst l.
  induction pre as [|a pre IH]; intros pre' Hl' Hpre'.
  - destruct pre' as [|a' pre']; simpl in Hl'; [congruence|].
    injection Hl' as -> ->.
    assert (H1 : better (key m') (key a') = true) by (apply Hpre'; left; reflexivity).
    assert (H2 : better (key m') (key a') = false)
      by (apply Hpost, in_or_app; right; left; reflexivity).
    congruence.
  - destruct pre' as [|a' pre']; simpl in Hl'.
    + injection Hl' as -> Hl'.
      assert (H1 : better (key m) (key m') = true) by (apply Hpre; left; reflexivity).
      assert (H2 : better (key m) (key m') = false).
      { apply Hpost'. rewrite <- Hl'. apply in_or_app. right. left. reflexivity. }
      congruence.
    + injection Hl' as -> Hl'.
      apply (IH (fun e He => Hpre e (or_intror He)) pre' Hl').
      intros e He. apply Hpre'. right. exact He.
Qed.

Lemma best_by_some (l : list A) :
  l <> [] -> exists m, best_by key better l = Some m.
Proof. destruct l; [congruence|]. intros _. eexists. reflexivity. Qed.
End FirstBest.

Lemma Zgtb_trans a b c : (a >? b)%Z = true -> (b >? c)%Z = true -> (a >? c)%Z = true.
Proof. rewrite !Z.gtb_ltb, !Z.ltb_lt. lia. Qed.

Lemma Zgtb_weak a b c : (a >? b)%Z = true -> (c >? b)%Z = false -> (a >? c)%Z = true.
Proof. rewrite !Z.gtb_ltb, !Z.ltb_lt, Z.ltb_ge. lia. Qed.

Lemma Zltb_trans a b c : (a <? b)%Z = true -> (b <? c)%Z = true -> (a <? c)%Z = true.
Proof. rewrite !Z.ltb_lt. lia. Qed.

Lemma Zltb_weak a b c : (a <? b)%Z = true -> (c <? b)%Z = false -> (a <? c)%Z = true.
Proof. rewrite !Z.ltb_lt, Z.ltb_ge. lia. Qed.

(** On roots that are not [nan] the comparison is that of the radicands. *)
Lemma root_gtb_radicand (a b : root) :
  is_nan a = false -> is_nan b = false ->
  root_gtb a b = Qltb (radicand b) (radicand a).
Proof. intros Ha Hb. unfold root_gtb. rewrite Ha, Hb. reflexivity. Qed.

Lemma root_gtb_true (a b : root) :
  root_gtb a b = true ->
  is_nan a = false /\ is_nan b = false /\ radicand b < radicand a.
Proof.
  unfold root_gtb. rewrite !andb_true_iff, !negb_true_iff, Qltb_iff. tauto.
Qed.

Lemma root_gtb_trans a b c :
  root_gtb a b = true -> root_gtb b c = true -> root_gtb a c = true.
Proof.
  intros (Ha & Hb & H1)%root_gtb_true (_ & Hc & H2)%root_gtb_true.
  rewrite root_gtb_radicand by assumption. apply Qltb_iff. lra.
Qed.

Lemma root_gtb_weak a b c :
  is_nan c = false ->
  root_gtb a b = true -> root_gtb c b = false -> root_gtb a c = true.
Proof.
  intros Hc (Ha & Hb & H1)%root_gtb_true H2.
  rewrite root_gtb_radicand in H2 by assumption.
  rewrite root_gtb_radicand by assumption.
  apply Qltb_false_iff in H2. apply Qltb_iff. lra.
Qed.

Lemma py_max_spec {A : Type} (key : A -> Z) (l : list A) (m : A) :
  py_max key l = Some m -> first_best key Z.gtb l m.
Proof.
  apply (best_by_spec key Z.gtb (fun _ => True));
    [exact Zgtb_trans|intros a b c _; apply Zgtb_weak|intros; exact I].
Qed.

Lemma py_min_spec {A : Type} (key : A -> Z) (l : list A) (m : A) :
  py_min key l = Some m -> first_best key Z.ltb l m.
Proof.
  apply (best_by_spec key Z.ltb (fun _ => True));
    [exact Zltb_trans|intros a b c _; apply Zltb_weak|intros; exact I].
Qed.

(** Among lengths none of which is [nan], [max] picks the first longest. *)
Lemma longest_spec (g : list line_tuple) (m : line_tuple) :
  (forall e, In e g -> is_nan (item1 e) = false) ->
  best_by item1 root_gtb g = Some m -> first_best item1 root_gtb g m.
Proof.
  apply (best_by_spec item1 root_gtb (fun r => is_nan r = false));
    [exact root_gtb_trans|exact root_gtb_weak].
Qed.

Lemma first_best_in {A K : Type} (key : A -> K) better (l : list A) (m : A) :
  first_best key better l m -> In m l.
Proof.
  intros (pre & post & -> & _). apply in_or_app. right. left. reflexivity.
Qed.

Lemma py_max_greatest (xs : list Z) (hi : Z) :
  py_max (fun x => x) xs = Some hi -> greatest hi xs.
Proof.
  intros H. apply py_max_spec in H.
  split; [eapply first_best_in, H|].
  destruct H as (pre & post & -> & Hpre & Hpost).
  intros x Hx. apply in_app_or in Hx. destruct Hx as [Hx|[<-|Hx]]; [|lia|].
  - specialize (Hpre x Hx). rewrite Z.gtb_ltb, Z.ltb_lt in Hpre. lia.
  - specialize (Hpost x Hx). rewrite Z.gtb_ltb, Z.ltb_ge in Hpost. lia.
Qed.

Lemma py_min_least (xs : list Z) (lo : Z) :
  py_min (fun x => x) xs = Some lo -> least lo xs.
Proof.
  intros H. apply py_min_spec in H.
  split; [eapply first_best_in, H|].
  destruct H as (pre & post & -> & Hpre & Hpost).
  intros x Hx. apply in_app_or in Hx. destruct Hx as [Hx|[<-|Hx]]; [|lia|].
  - specialize (Hpre x Hx). rewrite Z.ltb_lt in Hpre. lia.
  - specialize (Hpost x Hx). rewrite Z.ltb_ge in Hpost. lia.
Qed.

Lemma greatest_perm (xs ys : list Z) (a b : Z) :
  Permutation xs ys -> greatest a xs -> greatest b ys -> a = b.
Proof.
  intros Hp [Ha Hxs] [Hb Hys].
  apply (Permutation_in _ Hp) in Ha.
  apply (Permutation_in _ (Permutation_sym Hp)) in Hb.
  specialize (Hxs _ Hb). specialize (Hys _ Ha). lia.
Qed.

Lemma least_perm (xs ys : list Z) (a b : Z) :
  Permutation xs ys -> least a xs -> least b ys -> a = b.
Proof.
  intros Hp [Ha Hxs] [Hb Hys].
  apply (Permutation_in _ Hp) in Ha.
  apply (Permutation_in _ (Permutation_sym Hp)) in Hb.
  specialize (Hxs _ Hb). specialize (Hys _ Ha). lia.
Qed.

(** ** The estimator *)

Lemma draw_loop (gs : groups) (points : list (Z * Z)) (image : Image) :
  for_each draw_body gs (points, image)
  = Some (points ++ flat_map endpoints (representatives gs),
          draw_all image (representatives gs)).
Proof.
  revert points image.
  induction gs as [|g gs IH]; intros points image.
  - simpl. rewrite app_nil_r. reflexivity.
  - cbn [for_each]. unfold draw_body at 1, representatives.
    cbn [flat_map]. fold (representatives gs).
    destruct (best_by item1 root_gtb g) as [m|].
    + destruct m as [[sl len] [a1 b1 a2 b2]] eqn:Em.
      cbn [item2 snd bind]. rewrite IH. unfold draw_all.
      cbn [app flat_map fold_left endpoints item2 snd x1 y1 x2 y2].
      rewrite <- app_assoc. reflexivity.
    + cbn [bind app]. apply IH.
Qed.

Lemma representatives_app (gs hs : groups) :
  representatives (gs ++ hs) = representatives gs ++ representatives hs.
Proof. unfold representatives. apply flat_map_app. Qed.

Lemma draw_all_app (image : Image) (rs ts : list line_tuple) :
  draw_all image (rs ++ ts) = draw_all (draw_all image rs) ts.
Proof. unfold draw_all. apply fold_left_app. Qed.

(** One representative per group: the member [max] picks. *)
Lemma representatives_spec (gs : groups) :
  Forall (fun g => g <> []) gs ->
  Forall2 (fun g r => best_by item1 root_gtb g = Some r) gs (representatives gs).
Proof.
  induction 1 as [|g gs Hg _ IH]; [constructor|].
  unfold representatives. cbn [flat_map]. fold (representatives gs).
  destruct (best_by_some item1 root_gtb g Hg) as [m Hm]. rewrite Hm.
  constructor; [exact Hm|exact IH].
Qed.

Lemma Forall2_impl_in {A B : Type} (R1 R2 : A -> B -> Prop) (l : list A)
  (l' : list B) :
  (forall a b, In a l -> R1 a b -> R2 a b) ->
  Forall2 R1 l l' -> Forall2 R2 l l'.
Proof.
  intros H HF. induction HF as [|a b l l' Hab _ IH]; constructor.
  - apply H; [left; reflexivity|exact Hab].
  - apply IH. intros a' b' Ha'. apply H. right. exact Ha'.
Qed.

(** [detect_lane_center] on a present segment array, with the classifier
    and the grouper replaced by what they compute. *)
Lemma detect_lane_center_unfold (lines : list segment) (image : Image) :
  let positive_groups := chain_groups (sorted (positive_tuples lines)) in
  let negative_groups := chain_groups (sorted (negative_tuples lines)) in
  detect_lane_center (Some lines) image
  = if negb (truthy positive_groups) && truthy negative_groups then
      r <- one_sided negative_groups (- (1)) image ;; Some (r, image)
    else if negb (truthy negative_groups) && truthy positive_groups then
      r <- one_sided positive_groups 1 image ;; Some (r, image)
    else
      let reps := representatives (positive_groups ++ negative_groups) in
      r <- center_of_points (flat_map endpoints reps) ;;
      Some (r, draw_all image reps).
Proof.
  intros positive_groups negative_groups.
  unfold detect_lane_center. rewrite classify_spec. cbn [bind].
  fold (positive_tuples lines) (negative_tuples lines).
  rewrite !group_lines_chain. cbn [bind].
  fold positive_groups negative_groups.
  destruct (negb (truthy positive_groups) && truthy negative_groups);
    [reflexivity|].
  destruct (negb (truthy negative_groups) && truthy positive_groups);
    [reflexivity|].
  rewrite draw_loop. cbn [bind app]. rewrite draw_loop. cbn [bind].
  rewrite representatives_app, flat_map_app, draw_all_app. reflexivity.
Qed.

Lemma truthy_chain_groups (l : list line_tuple) :
  truthy (chain_groups (sorted l)) = truthy l.
Proof.
  destruct l as [|a t]; [reflexivity|].
  destruct (chain_groups (sorted (a :: t))) eqn:E; [|reflexivity].
  apply (proj1 (chain_groups_nil _)) in E.
  apply (proj1 (sorted_nil _)) in E. discriminate E.
Qed.

(** ** Symbolic roots against real ones *)

Lemma Q2R_nonneg (q : Q) : 0 <= q -> (0 <= Q2R q)%R.
Proof. intros H. apply Qle_Rle in H. rewrite RMicromega.Q2R_0 in H. exact H. Qed.

Lemma sqrt_lt_iff (u v : R) : (0 <= u)%R -> (0 <= v)%R ->
  (sqrt u < sqrt v)%R <-> (u < v)%R.
Proof.
  intros Hu Hv. split; intros H.
  - apply sqrt_lt_0_alt, H.
  - apply sqrt_lt_1; assumption.
Qed.

Lemma root_gtb_sound (a b : root) :
  0 <= radicand a -> 0 <= radicand b ->
  root_gtb a b = true <-> (root_value a > root_value b)%R.
Proof.
  intros Ha Hb.
  rewrite root_gtb_radicand by (apply Qltb_false_iff; assumption).
  unfold root_value, Rgt.
  rewrite Qltb_iff, sqrt_lt_iff by (apply Q2R_nonneg; assumption).
  split; [apply Qlt_Rlt|apply Rlt_Qlt].
Qed.

Lemma Q2R_square (c : Q) : Q2R (c * c) = (Q2R c * Q2R c)%R.
Proof. apply Q2R_mult. Qed.

Lemma root_lt_const_sound (a : root) (c : Q) :
  0 <= radicand a -> 0 <= c ->
  root_lt_const a c = true <-> (root_value a < Q2R c)%R.
Proof.
  intros Ha Hc. unfold root_lt_const, root_value.
  rewrite Qltb_iff.
  rewrite <- (sqrt_square (Q2R c)) by (apply Q2R_nonneg, Hc).
  rewrite sqrt_lt_iff.
  - rewrite <- Q2R_square. split; [apply Qlt_Rlt|apply Rlt_Qlt].
  - apply Q2R_nonneg, Ha.
  - apply Rmult_le_pos; apply Q2R_nonneg, Hc.
Qed.

Lemma dist_sq_nonneg (p q : Q * Q) : 0 <= dist_sq p q.
Proof.
  unfold dist_sq. simpl.
  set (a := fst p - fst q). set (b := snd p - snd q). nra.
Qed.

Lemma Q2R_90 : Q2R 90 = 90%R.
Proof. unfold Q2R. simpl. Lra.lra. Qed.

Lemma chained_iff (prev e : line_tuple) :
  chained prev e = true <-> close_enough prev e.
Proof.
  unfold chained, close_enough. rewrite andb_true_iff, Qltb_iff.
  apply and_iff_compat_l.
  change (Qltb (dist_sq (midpoint (item2 prev)) (midpoint (item2 e))) (90 * 90))
    with (root_lt_const (NpSqrt (dist_sq (midpoint (item2 prev)) (midpoint (item2 e)))) 90).
  rewrite root_lt_const_sound; [|apply dist_sq_nonneg|discriminate].
  unfold root_value, euclid. cbn [radicand]. rewrite Q2R_90. reflexivity.
Qed.

Lemma chained_false_iff (prev e : line_tuple) :
  chained prev e = false <-> ~ close_enough prev e.
Proof.
  rewrite <- chained_iff. destruct (chained prev e); split; congruence.
Qed.

(** ** The loop against the grouping rule *)

Lemma chain_rel_complete (rest : list line_tuple) closed current prev :
  last_error current = Some prev ->
  chain_rel closed current rest (chain_from closed current prev rest).
Proof.
  revert closed current prev.
  induction rest as [|e t IH]; intros closed current prev Hl; cbn [chain_from].
  - constructor.
  - destruct (chained prev e) eqn:E.
    + eapply chain_join; [exact Hl|apply chained_iff, E|].
      apply IH, last_error_snoc.
    + eapply chain_split; [exact Hl|apply chained_false_iff, E|].
      apply IH. reflexivity.
Qed.

Lemma chain_rel_sound closed current rest out :
  chain_rel closed current rest out ->
  forall prev, last_error current = Some prev ->
  out = chain_from closed current prev rest.
Proof.
  induction 1 as [closed current
                 |closed current p e rest out Hp Hc _ IH
                 |closed current p e rest out Hp Hc _ IH];
    intros prev Hl; cbn [chain_from].
  - reflexivity.
  - assert (prev = p) as -> by congruence.
    apply chained_iff in Hc. rewrite Hc. apply IH, last_error_snoc.
  - assert (prev = p) as -> by congruence.
    apply chained_false_iff in Hc. rewrite Hc. apply IH. reflexivity.
Qed.

Lemma grouping_iff (lines : list line_tuple) (out : groups) :
  grouping lines out <-> out = chain_groups (sorted lines).
Proof.
  split.
  - intros [->|first rest out' Hs Hc]; [reflexivity|].
    rewrite Hs. cbn [chain_groups]. eapply chain_rel_sound; [exact Hc|reflexivity].
  - intros ->. destruct (sorted lines) as [|first rest] eqn:Es.
    + apply grouping_empty, sorted_nil, Es.
    + eapply grouping_chain; [exact Es|].
      cbn [chain_groups]. apply chain_rel_complete. reflexivity.
Qed.

Lemma group_two (a b : line_tuple) (lines : list line_tuple) :
  item0 a < item0 b ->
  lines = [a; b] \/ lines = [b; a] ->
  group_lines lines
  = Some (if chained a b then [[a; b]] else [[a]; [b]]).
Proof.
  intros Hlt Hl. rewrite group_lines_chain.
  assert (Hs : sorted lines = [a; b]).
  { destruct Hl as [-> | ->]; cbn [sorted insert_sorted].
    - assert (E : Qltb (item0 b) (item0 a) = false)
        by (apply Qltb_false_iff; lra).
      rewrite E. reflexivity.
    - apply Qltb_iff in Hlt. rewrite Hlt. reflexivity. }
  rewrite Hs. cbn [chain_groups chain_from app].
  destruct (chained a b); reflexivity.
Qed.

(** A difference of exactly 0.25 is a double, and less than the double 0.3. *)
Lemma Qabs_quarter (u v : Q) :
  v - u == 1 # 4 -> Qabs (round64 (v - u)) < round64 (3 # 10).
Proof. intros H. rewrite (round64_eq _ _ H). vm_compute. reflexivity. Qed.

(** C2, with the slope test as the program computes it: [group_lines] sorts
    by slope, opens the first group with the first item, and lets each
    further item join the open group exactly when the float64 difference of
    its slope and the last member's is, in absolute value, less than the
    double 0.3 and the midpoints are less than 90 apart, otherwise closing
    the group and opening a new one; the empty list gives no group; slope
    difference 0.25 with midpoint distance 50 gives one group, with distance
    95 two. *)
Theorem C2_group_lines_rule :
  (forall lines : list line_tuple,
      exists out, group_lines lines = Some out /\ grouping lines out)
  /\ (forall (lines : list line_tuple) (out : groups),
         grouping lines out -> group_lines lines = Some out)
  /\ group_lines [] = Some []
  /\ (forall (a b : line_tuple) (lines : list line_tuple),
         item0 b - item0 a == 1 # 4 ->
         lines = [a; b] \/ lines = [b; a] ->
         (euclid (midpoint (item2 a)) (midpoint (item2 b)) = 50%R ->
          group_lines lines = Some [[a; b]])
         /\ (euclid (midpoint (item2 a)) (midpoint (item2 b)) = 95%R ->
             group_lines lines = Some [[a]; [b]])).
Proof.
  split; [|split; [|split]].
  - intros lines. eexists. split; [apply group_lines_chain|].
    apply grouping_iff. reflexivity.
  - intros lines out H. apply grouping_iff in H. subst out.
    apply group_lines_chain.
  - reflexivity.
  - intros a b lines Hslope Hl.
    assert (Hlt : item0 a < item0 b) by lra.
    rewrite (group_two a b lines Hlt Hl).
    split; intros Hd.
    + assert (E : chained a b = true).
      { apply chained_iff. split; [apply Qabs_quarter, Hslope|].
        rewrite Hd. Lra.lra. }
      rewrite E. reflexivity.
    + assert (E : chained a b = false).
      { apply chained_false_iff. intros [_ H]. rewrite Hd in H. Lra.lra. }
      rewrite E. reflexivity.
Qed.

Lemma euclid_value (p q : Q * Q) (c : Q) :
  0 <= c -> dist_sq p q == c * c -> euclid p q = Q2R c.
Proof.
  intros Hc H. unfold euclid. rewrite (Qeq_eqR _ _ H), Q2R_square.
  apply sqrt_square, Q2R_nonneg, Hc.
Qed.

Lemma Q2R_inject_Z (z : Z) : Q2R (inject_Z z) = IZR z.
Proof. unfold Q2R, inject_Z. simpl. Lra.lra. Qed.

Lemma C2_group_lines_rule_witness :
  let a := tuple_of (Segment 0 0 4 4) in
  let b := tuple_of (Segment 28 37 36 47) in
  let c := tuple_of (Segment 55 73 63 83) in
  grouping [b; a] [[a; b]]
  /\ group_lines [b; a] = Some [[a; b]]
  /\ group_lines [a; c] = Some [[a]; [c]].
Proof.
  intros a b c.
  assert (Hab : item0 b - item0 a == 1 # 4) by reflexivity.
  assert (Hac : item0 c - item0 a == 1 # 4) by reflexivity.
  assert (H50 : euclid (midpoint (item2 a)) (midpoint (item2 b)) = 50%R).
  { rewrite (euclid_value _ _ 50); [apply Q2R_inject_Z|discriminate|reflexivity]. }
  assert (H95 : euclid (midpoint (item2 a)) (midpoint (item2 c)) = 95%R).
  { rewrite (euclid_value _ _ 95); [apply Q2R_inject_Z|discriminate|reflexivity]. }
  pose proof C2_group_lines_rule as (Hex & Hsound & _ & Hpair).
  split; [|split].
  - destruct (Hex [b; a]) as (out & Hout & Hg).
    rewrite (proj1 (Hpair a b [b; a] Hab (or_intror eq_refl)) H50) in Hout.
    injection Hout as <-. exact Hg.
  - exact (proj1 (Hpair a b [b; a] Hab (or_intror eq_refl)) H50).
  - exact (proj2 (Hpair a c [a; c] Hac (or_introl eq_refl)) H95).
Defined.

Lemma euclid_lt_90 (p q : Q * Q) :
  dist_sq p q < 90 * 90 -> (euclid p q < 90)%R.
Proof.
  intros H. rewrite <- Q2R_90.
  apply (proj1 (root_lt_const_sound (NpSqrt (dist_sq p q)) 90
                  (dist_sq_nonneg p q) ltac:(discriminate))).
  apply Qltb_iff, H.
Qed.

(** The rule with 0.3 as the number three tenths is not what the program
    does.  The segments (200,100,210,109) and (120,100,140,124) have the
    slopes 9/10 and 6/5, which differ by exactly 0.3, and midpoints less
    than 90 apart; the doubles 1.2 and 0.9 differ by 0.29999999999999993
    and the two are grouped together.  The segments (0,0,10,2) and
    (0,0,10,5) have the slopes 1/5 and 1/2; the stored doubles differ by
    less than three tenths, so the rule as worded joins them, but their
    float64 difference is the double 0.3 itself and the program puts them
    in two groups. *)
Lemma C2_counterexample :
  let a := tuple_of (Segment 200 100 210 109) in
  let b := tuple_of (Segment 120 100 140 124) in
  let c := tuple_of (Segment 0 0 10 2) in
  let d := tuple_of (Segment 0 0 10 5) in
  (slope (item2 b) - slope (item2 a) == 3 # 10
   /\ (euclid (midpoint (item2 a)) (midpoint (item2 b)) < 90)%R
   /\ group_lines [a; b] = Some [[a; b]])
  /\ (spec_close_enough c d
      /\ group_lines [c; d] = Some [[c]; [d]]
      /\ ~ close_enough c d).
Proof.
  intros a b c d. split; [split; [|split]|split; [split|split]].
  - reflexivity.
  - apply euclid_lt_90. reflexivity.
  - vm_compute. reflexivity.
  - vm_compute. reflexivity.
  - apply euclid_lt_90. reflexivity.
  - vm_compute. reflexivity.
  - intros [H _]. vm_compute in H. discriminate H.
Qed.

(** With a negative segment beside the first pair the call draws two
    strokes, one for the joined positive group and one for the negative
    group, and answers (70, 87). *)
Example joined_pair_one_stroke :
  let lines := [Segment 200 100 210 109; Segment 120 100 140 124;
                Segment 0 50 40 10] in
  returns (detect_lane_center (Some lines) (MkImage 600 []))
    (fun out =>
       strokes (snd out) = [((120, 100), (140, 124)); ((0, 50), (40, 10))]%Z
       /\ exists cx cy,
            fst out = (Some cx, Some cy) /\ cx == 70 /\ cy == 87).
Proof.
  intros lines. eexists. split; [vm_compute; reflexivity|].
  split; [reflexivity|]. eexists _, _. split; [reflexivity|].
  split; reflexivity.
Qed.

Lemma is_positive_iff (s : segment) :
  is_positive s = true <-> x1 s <> x2 s /\ 0 < slope s.
Proof.
  unfold is_positive. rewrite andb_true_iff, negb_true_iff, Z.eqb_neq, Qltb_iff.
  reflexivity.
Qed.

Lemma is_negative_iff (s : segment) :
  is_negative s = true <-> x1 s <> x2 s /\ slope s < 0.
Proof.
  unfold is_negative. rewrite andb_true_iff, negb_true_iff, Z.eqb_neq, Qltb_iff.
  reflexivity.
Qed.

(** C7: the classifier never raises; a segment with x1 <> x2 goes to the
    positive list when its slope is positive and to the negative list when
    it is negative, with its slope and length attached and in input order;
    segments with slope 0 or with x1 = x2 reach neither list. *)
Theorem C7_classifier (lines : list segment) :
  exists positive_slopes negative_slopes,
    classify lines = Some (positive_slopes, negative_slopes)
    /\ positive_slopes = map tuple_of (filter is_positive lines)
    /\ negative_slopes = map tuple_of (filter is_negative lines)
    /\ (forall t, In t positive_slopes <->
                  exists s, In s lines /\ x1 s <> x2 s /\ 0 < slope s
                            /\ t = tuple_of s)
    /\ (forall t, In t negative_slopes <->
                  exists s, In s lines /\ x1 s <> x2 s /\ slope s < 0
                            /\ t = tuple_of s)
    /\ (forall s, x1 s = x2 s \/ slope s == 0 ->
                  ~ In s (map item2 positive_slopes)
                  /\ ~ In s (map item2 negative_slopes)).
Proof.
  exists (map tuple_of (filter is_positive lines)),
         (map tuple_of (filter is_negative lines)).
  split; [apply classify_spec|].
  split; [reflexivity|]. split; [reflexivity|].
  split; [|split].
  - intros t. rewrite in_map_iff. split.
    + intros (s & <- & Hs). apply filter_In in Hs. destruct Hs as [Hin Hp].
      apply is_positive_iff in Hp. exists s. tauto.
    + intros (s & Hin & Hx & Hp & ->). exists s. split; [reflexivity|].
      apply filter_In. split; [exact Hin|]. apply is_positive_iff. tauto.
  - intros t. rewrite in_map_iff. split.
    + intros (s & <- & Hs). apply filter_In in Hs. destruct Hs as [Hin Hp].
      apply is_negative_iff in Hp. exists s. tauto.
    + intros (s & Hin & Hx & Hp & ->). exists s. split; [reflexivity|].
      apply filter_In. split; [exact Hin|]. apply is_negative_iff. tauto.
  - intros s Hs. rewrite !item2_tuple_of, !filter_In.
    rewrite is_positive_iff, is_negative_iff.
    split; intros (_ & Hx & Hp); destruct Hs as [Hs|Hs];
      try contradiction; rewrite Hs in Hp; discriminate.
Qed.

(** C9: for a non-empty input the groups, concatenated, are the input
    sorted ascending by slope: a rearrangement of the input, ascending in
    slope across groups, and no group is empty. *)
Theorem C9_groups_partition_sorted (lines : list line_tuple) :
  lines <> [] ->
  exists out : groups,
    group_lines lines = Some out
    /\ concat out = sorted lines
    /\ Permutation lines (concat out)
    /\ StronglySorted slope_le (concat out)
    /\ Forall (fun g => g <> []) out
    /\ out <> [].
Proof.
  intros Hne. exists (chain_groups (sorted lines)).
  split; [apply group_lines_chain|].
  rewrite chain_groups_concat.
  split; [reflexivity|].
  split; [apply sorted_perm|].
  split; [apply sorted_ascending|].
  split; [apply chain_groups_nonempty|].
  intros H. apply (proj1 (chain_groups_nil _)) in H.
  apply (proj1 (sorted_nil _)) in H. contradiction.
Qed.

Lemma C9_groups_partition_sorted_witness :
  let a := tuple_of (Segment 0 0 4 4) in
  let b := tuple_of (Segment 28 37 36 47) in
  [b; a] <> []
  /\ exists out : groups,
       group_lines [b; a] = Some out
       /\ concat out = sorted [b; a]
       /\ Permutation [b; a] (concat out)
       /\ StronglySorted slope_le (concat out)
       /\ Forall (fun g => g <> []) out
       /\ out <> [].
Proof.
  intros a b.
  assert (H : [b; a] <> []) by discriminate.
  split; [exact H|]. exact (C9_groups_partition_sorted [b; a] H).
Defined.

(** ** The one-sided branches *)

Lemma x_coords_of_tuples (l : list segment) :
  x_coords_of (map tuple_of l) = segment_xs l.
Proof.
  unfold x_coords_of, segment_xs. rewrite flat_map_concat_map, map_map.
  rewrite <- flat_map_concat_map. reflexivity.
Qed.

Lemma x_coords_length (l : list line_tuple) :
  length (x_coords_of l) = (2 * length l)%nat.
Proof.
  induction l as [|a t IH]; [reflexivity|].
  cbn [x_coords_of flat_map app length] in *. unfold x_coords_of in IH. lia.
Qed.

Lemma one_sided_spec (l : list line_tuple) (sentinel : Q) (image : Image)
  (hi lo : Z) :
  l <> [] ->
  greatest hi (x_coords_of l) -> least lo (x_coords_of l) ->
  one_sided (chain_groups (sorted l)) sentinel image
  = Some (one_sided_outcome (x_coords_of l) hi lo sentinel image).
Proof.
  intros Hne Hhi Hlo. unfold one_sided, one_sided_outcome.
  rewrite chain_groups_concat.
  assert (Hp : Permutation (x_coords_of (sorted l)) (x_coords_of l)).
  { unfold x_coords_of. apply Permutation_flat_map, Permutation_sym, sorted_perm. }
  assert (Hlen : (2 <= length (x_coords_of l))%nat).
  { rewrite x_coords_length. destruct l; [congruence|simpl; lia]. }
  assert (Hlen' : (2 <= length (x_coords_of (sorted l)))%nat).
  { rewrite (Permutation_length Hp). exact Hlen. }
  assert (E1 : (1 <? length (x_coords_of (sorted l)))%nat = true)
    by (apply Nat.ltb_lt; lia).
  assert (E2 : (2 <=? length (x_coords_of l))%nat = true)
    by (apply Nat.leb_le; lia).
  rewrite E1, E2. cbn [andb].
  destruct (x_coords_of (sorted l)) as [|x0 xs] eqn:Ex; [simpl in Hlen'; lia|].
  destruct (best_by_some (fun x : Z => x) Z.gtb (x0 :: xs)) as [hi' Hhi'];
    [discriminate|].
  destruct (best_by_some (fun x : Z => x) Z.ltb (x0 :: xs)) as [lo' Hlo'];
    [discriminate|].
  unfold py_max, py_min. rewrite Hhi', Hlo'. cbn [bind].
  apply py_max_greatest in Hhi'. apply py_min_least in Hlo'.
  rewrite (greatest_perm _ _ _ _ Hp Hhi' Hhi), (least_perm _ _ _ _ Hp Hlo' Hlo).
  destruct (400 <? hi - lo)%Z; reflexivity.
Qed.

Lemma map_eq_nil_iff {A B : Type} (f : A -> B) (l : list A) :
  map f l = [] <-> l = [].
Proof. destruct l; simpl; split; congruence. Qed.


Lemma truthy_true_iff {A : Type} (l : list A) : truthy l = true <-> l <> [].
Proof. destruct l; simpl; split; congruence. Qed.

Lemma truthy_groups (l : list segment) (f : segment -> bool) :
  truthy (chain_groups (sorted (map tuple_of (filter f l)))) = truthy (filter f l).
Proof.
  rewrite truthy_chain_groups. destruct (filter f l); reflexivity.
Qed.

Lemma detect_negative_only (lines : list segment) (image : Image) (hi lo : Z) :
  filter is_positive lines = [] -> filter is_negative lines <> [] ->
  greatest hi (segment_xs (filter is_negative lines)) ->
  least lo (segment_xs (filter is_negative lines)) ->
  detect_lane_center (Some lines) image
  = Some (one_sided_outcome (segment_xs (filter is_negative lines))
                            hi lo (- (1)) image, image).
Proof.
  intros Hp Hn Hhi Hlo. rewrite detect_lane_center_unfold.
  unfold positive_tuples, negative_tuples. rewrite !truthy_groups, Hp.
  apply truthy_true_iff in Hn. rewrite Hn. cbn [truthy negb andb].
  rewrite <- x_coords_of_tuples in Hhi, Hlo |- *.
  rewrite (one_sided_spec _ _ _ hi lo); [reflexivity| |exact Hhi|exact Hlo].
  intros H. apply map_eq_nil_iff in H. apply truthy_true_iff in Hn. contradiction.
Qed.

Lemma detect_positive_only (lines : list segment) (image : Image) (hi lo : Z) :
  filter is_negative lines = [] -> filter is_positive lines <> [] ->
  greatest hi (segment_xs (filter is_positive lines)) ->
  least lo (segment_xs (filter is_positive lines)) ->
  detect_lane_center (Some lines) image
  = Some (one_sided_outcome (segment_xs (filter is_positive lines))
                            hi lo 1 image, image).
Proof.
  intros Hn Hp Hhi Hlo. rewrite detect_lane_center_unfold.
  unfold positive_tuples, negative_tuples. rewrite !truthy_groups, Hn.
  apply truthy_true_iff in Hp. rewrite Hp. cbn [truthy negb andb].
  rewrite <- x_coords_of_tuples in Hhi, Hlo |- *.
  rewrite (one_sided_spec _ _ _ hi lo); [reflexivity| |exact Hhi|exact Hlo].
  intros H. apply map_eq_nil_iff in H. apply truthy_true_iff in Hp. contradiction.
Qed.

(** C5: with groups on exactly one slope side, the answer is
    ((max+min)/2, image_height/2) when there are at least two x-coordinates
    and max-min exceeds 400, and otherwise the sentinel (-1,-1) for the
    negative side, (1,1) for the positive side; negative-only segments
    spanning x from 0 to 450 give (225, image_height/2). *)
Theorem C5_one_sided_estimate :
  (forall (lines : list segment) (image : Image) (hi lo : Z),
      filter is_positive lines = [] -> filter is_negative lines <> [] ->
      greatest hi (segment_xs (filter is_negative lines)) ->
      least lo (segment_xs (filter is_negative lines)) ->
      detect_lane_center (Some lines) image
      = Some (one_sided_outcome (segment_xs (filter is_negative lines))
                                hi lo (- (1)) image, image))
  /\ (forall (lines : list segment) (image : Image) (hi lo : Z),
         filter is_negative lines = [] -> filter is_positive lines <> [] ->
         greatest hi (segment_xs (filter is_positive lines)) ->
         least lo (segment_xs (filter is_positive lines)) ->
         detect_lane_center (Some lines) image
         = Some (one_sided_outcome (segment_xs (filter is_positive lines))
                                   hi lo 1 image, image))
  /\ (forall (lines : list segment) (image : Image),
         filter is_positive lines = [] -> filter is_negative lines <> [] ->
         greatest 450 (segment_xs (filter is_negative lines)) ->
         least 0 (segment_xs (filter is_negative lines)) ->
         returns (detect_lane_center (Some lines) image)
           (fun r => exists cx cy,
                fst r = (Some cx, Some cy)
                /\ cx == 225 /\ cy == inject_Z (shape0 image) / 2)).
Proof.
  split; [exact detect_negative_only|]. split; [exact detect_positive_only|].
  intros lines image Hp Hn Hhi Hlo.
  eexists. split; [apply (detect_negative_only _ _ 450 0); assumption|].
  unfold one_sided_outcome.
  assert (Hlen : (2 <=? length (segment_xs (filter is_negative lines)))%nat = true).
  { apply Nat.leb_le. destruct (filter is_negative lines); [congruence|simpl; lia]. }
  rewrite Hlen. cbn [andb fst]. simpl (400 <? 450 - 0)%Z. cbv iota.
  eexists _, _. split; [reflexivity|]. split; reflexivity.
Qed.

Lemma C5_one_sided_estimate_witness :
  let lines := [Segment 0 300 450 100; Segment 7 20 7 90] in
  let image := MkImage 600 [] in
  filter is_positive lines = []
  /\ filter is_negative lines <> []
  /\ greatest 450 (segment_xs (filter is_negative lines))
  /\ least 0 (segment_xs (filter is_negative lines))
  /\ returns (detect_lane_center (Some lines) image)
       (fun r => exists cx cy,
            fst r = (Some cx, Some cy)
            /\ cx == 225 /\ cy == inject_Z (shape0 image) / 2).
Proof.
  intros lines image.
  assert (Hp : filter is_positive lines = []) by reflexivity.
  assert (Hn : filter is_negative lines <> []) by discriminate.
  assert (Hhi : greatest 450 (segment_xs (filter is_negative lines))).
  { split; [simpl; tauto|]. simpl. intros x [<-|[<-|[]]]; lia. }
  assert (Hlo : least 0 (segment_xs (filter is_negative lines))).
  { split; [simpl; tauto|]. simpl. intros x [<-|[<-|[]]]; lia. }
  repeat (split; [assumption|]).
  exact (proj2 (proj2 C5_one_sided_estimate) lines image Hp Hn Hhi Hlo).
Defined.

(** ** The two-sided branch and the absent outcome *)

Lemma center_of_points_few (points : list (Z * Z)) :
  (length points < 2)%nat -> center_of_points points = Some (None, None).
Proof.
  intros H. unfold center_of_points.
  apply Nat.ltb_lt in H. rewrite H. reflexivity.
Qed.

Lemma center_of_points_some (points : list (Z * Z)) :
  (2 <= length points)%nat ->
  exists p q,
    first_best fst Z.gtb points p /\ first_best fst Z.ltb points q
    /\ center_of_points points = Some (midpoint_of p q).
Proof.
  intros H. unfold center_of_points.
  assert (E : (length points <? 2)%nat = false) by (apply Nat.ltb_ge; lia).
  rewrite E.
  assert (Hne : points <> []) by (destruct points; [simpl in H; lia|discriminate]).
  destruct (best_by_some fst Z.gtb points Hne) as [p Hp].
  destruct (best_by_some fst Z.ltb points Hne) as [q Hq].
  exists p, q. unfold py_max, py_min. rewrite Hp, Hq.
  split; [apply py_max_spec, Hp|]. split; [apply py_min_spec, Hq|]. reflexivity.
Qed.

Lemma endpoints_length (reps : list line_tuple) :
  length (flat_map endpoints reps) = (2 * length reps)%nat.
Proof.
  induction reps as [|a t IH]; [reflexivity|].
  cbn [flat_map endpoints app length] in *. lia.
Qed.

Lemma detect_both_sides (lines : list segment) (image : Image) :
  filter is_positive lines <> [] -> filter is_negative lines <> [] ->
  let positive_groups := chain_groups (sorted (positive_tuples lines)) in
  let negative_groups := chain_groups (sorted (negative_tuples lines)) in
  let reps := representatives (positive_groups ++ negative_groups) in
  Forall2 (fun g r => best_by item1 root_gtb g = Some r)
          (positive_groups ++ negative_groups) reps
  /\ exists p q,
       first_best fst Z.gtb (flat_map endpoints reps) p
       /\ first_best fst Z.ltb (flat_map endpoints reps) q
       /\ detect_lane_center (Some lines) image
          = Some (midpoint_of p q, draw_all image reps).
Proof.
  intros Hp Hn positive_groups negative_groups reps.
  assert (Hreps : Forall2 (fun g r => best_by item1 root_gtb g = Some r)
                          (positive_groups ++ negative_groups) reps).
  { apply representatives_spec, Forall_app.
    split; apply chain_groups_nonempty. }
  split; [exact Hreps|].
  rewrite detect_lane_center_unfold.
  fold positive_groups negative_groups.
  assert (Tp : truthy positive_groups = true).
  { unfold positive_groups, positive_tuples. rewrite truthy_groups.
    apply truthy_true_iff, Hp. }
  assert (Tn : truthy negative_groups = true).
  { unfold negative_groups, negative_tuples. rewrite truthy_groups.
    apply truthy_true_iff, Hn. }
  rewrite Tp, Tn. cbn [negb andb]. fold reps.
  destruct (center_of_points_some (flat_map endpoints reps))
    as (p & q & Hmax & Hmin & Hc).
  { rewrite endpoints_length, <- (Forall2_length Hreps), length_app.
    destruct positive_groups; [discriminate|simpl; lia]. }
  exists p, q. rewrite Hc. repeat split; assumption.
Qed.

Lemma detect_no_side (lines : list segment) (image : Image) :
  filter is_positive lines = [] -> filter is_negative lines = [] ->
  detect_lane_center (Some lines) image = Some ((None, None), image).
Proof.
  intros Hp Hn. rewrite detect_lane_center_unfold.
  unfold positive_tuples, negative_tuples. rewrite Hp, Hn. reflexivity.
Qed.

Lemma one_sided_numeric (l : list line_tuple) (sentinel : Q) (image : Image) :
  l <> [] ->
  exists a b,
    one_sided (chain_groups (sorted l)) sentinel image = Some (Some a, Some b).
Proof.
  intros Hne.
  assert (Hx : x_coords_of l <> []).
  { destruct l as [|t l']; [congruence|discriminate]. }
  destruct (best_by_some (fun x : Z => x) Z.gtb _ Hx) as [hi Hhi].
  destruct (best_by_some (fun x : Z => x) Z.ltb _ Hx) as [lo Hlo].
  rewrite (one_sided_spec l sentinel image hi lo Hne);
    [|apply py_max_greatest, Hhi|apply py_min_least, Hlo].
  unfold one_sided_outcome. destruct (_ && _); eexists _, _; reflexivity.
Qed.

(** Every call on a present segment array returns, and the pair is absent
    exactly when no segment was classified. *)
Lemma detect_absent_iff (lines : list segment) (image : Image) :
  returns (detect_lane_center (Some lines) image)
    (fun r => (fst r = (None, None)
               <-> filter is_positive lines = [] /\ filter is_negative lines = [])
              /\ (fst r <> (None, None) -> exists a b, fst r = (Some a, Some b))).
Proof.
  destruct (filter is_positive lines) as [|s1 l1] eqn:Ep;
    destruct (filter is_negative lines) as [|s2 l2] eqn:En.
  - eexists. split; [apply detect_no_side; assumption|].
    cbn [fst]. split; [tauto|congruence].
  - rewrite detect_lane_center_unfold. unfold positive_tuples, negative_tuples.
    rewrite !truthy_groups, Ep, En. cbn [truthy negb andb].
    destruct (one_sided_numeric (map tuple_of (s2 :: l2)) (- (1)) image)
      as (a & b & H); [discriminate|].
    rewrite H. eexists. split; [reflexivity|]. cbn [fst].
    split; [split; [discriminate|intros [_ ?]; discriminate]|].
    intros _. exists a, b. reflexivity.
  - rewrite detect_lane_center_unfold. unfold positive_tuples, negative_tuples.
    rewrite !truthy_groups, Ep, En. cbn [truthy negb andb].
    destruct (one_sided_numeric (map tuple_of (s1 :: l1)) 1 image)
      as (a & b & H); [discriminate|].
    rewrite H. eexists. split; [reflexivity|]. cbn [fst].
    split; [split; [discriminate|intros [? _]; discriminate]|].
    intros _. exists a, b. reflexivity.
  - destruct (detect_both_sides lines image) as (_ & p & q & _ & _ & H).
    + rewrite Ep. discriminate.
    + rewrite En. discriminate.
    + rewrite H. eexists. split; [reflexivity|]. cbn [fst]. unfold midpoint_of.
      split; [split; [discriminate|intros [? _]; discriminate]|].
      intros _. eexists _, _. reflexivity.
Qed.

(** C6: with no segment array at all, with an empty one, with one whose
    segments are all dropped, and whenever fewer than two points were
    collected, the answer is the absent pair (None, None); that pair is
    returned in no other case and differs from every pair of numbers, the
    sentinels (-1,-1) and (1,1) included. *)
Theorem C6_no_point :
  (forall image, detect_lane_center None image = Some ((None, None), image))
  /\ (forall image,
         detect_lane_center (Some []) image = Some ((None, None), image))
  /\ (forall points, (length points < 2)%nat ->
                     center_of_points points = Some (None, None))
  /\ (forall lines image,
         returns (detect_lane_center (Some lines) image)
           (fun r => (fst r = (None, None)
                      <-> filter is_positive lines = []
                          /\ filter is_negative lines = [])
                     /\ (fst r <> (None, None) ->
                         exists a b, fst r = (Some a, Some b))))
  /\ (forall a b : Q, (@None Q, @None Q) <> (Some a, Some b))
  /\ (@None Q, @None Q) <> (Some (- (1)), Some (- (1)))
  /\ (@None Q, @None Q) <> (Some 1, Some 1).
Proof.
  split; [reflexivity|]. split; [reflexivity|].
  split; [exact center_of_points_few|].
  split; [exact detect_absent_iff|].
  repeat split; intros; discriminate.
Qed.

Lemma C6_no_point_witness :
  (length [(3, 4)%Z] < 2)%nat
  /\ center_of_points [(3, 4)%Z] = Some (None, None).
Proof.
  assert (H : (length [(3, 4)%Z] < 2)%nat) by (simpl; lia).
  split; [exact H|].
  exact (proj1 (proj2 (proj2 C6_no_point)) [(3, 4)%Z] H).
Defined.

(** ** The steering angle as a function of the lane centre *)

Lemma steering_gain_positive (w m : Q) : 0 < w -> 0 < m -> 0 < 2 * m / w.
Proof.
  intros Hw Hm. apply Qlt_shift_div_l; [exact Hw|]. lra.
Qed.

Lemma steering_angle_value (w x m : Q) :
  0 < w ->
  returns (calculate_steering_angle w x m) (fun a => a == 2 * m / w * x - m).
Proof.
  intros Hw. assert (Hne : ~ w == 0) by lra.
  eexists. split; [apply steering_angle_defined, Hne|].
  apply steering_formula_affine, Hne.
Qed.

(** C4 (amended): for a positive width, a non-negative maximum and a lane
    centre inside the frame, 0 <= lane_center_x <= image_width, the angle
    lies in [-max_steering_angle, +max_steering_angle]. *)
Theorem C4_steering_angle_bounded_in_frame (image_width lane_center_x max_steering_angle : Q) :
  0 < image_width -> 0 <= max_steering_angle ->
  0 <= lane_center_x <= image_width ->
  returns (calculate_steering_angle image_width lane_center_x max_steering_angle)
    (fun a => - max_steering_angle <= a <= max_steering_angle).
Proof.
  intros Hw Hm [Hx0 Hxw].
  destruct (steering_angle_value image_width lane_center_x max_steering_angle Hw)
    as (a & Ha & Hv).
  exists a. split; [exact Ha|]. rewrite Hv.
  set (k := 2 * max_steering_angle / image_width).
  assert (Hk : k * image_width == 2 * max_steering_angle).
  { unfold k. field. lra. }
  assert (Hk0 : 0 <= k).
  { unfold k. apply Qle_shift_div_l; [exact Hw|]. lra. }
  split; nra.
Qed.

Lemma C4_steering_angle_bounded_in_frame_witness :
  0 < 315 /\ 0 <= 70 /\ 0 <= 100 <= 315
  /\ returns (calculate_steering_angle 315 100 70)
       (fun a => - (70) <= a <= 70).
Proof.
  assert (Hw : 0 < 315) by reflexivity.
  assert (Hm : 0 <= 70) by discriminate.
  assert (Hx : 0 <= 100 <= 315) by (split; discriminate).
  repeat (split; [assumption|]).
  exact (C4_steering_angle_bounded_in_frame 315 100 70 Hw Hm Hx).
Defined.

(** The sentinel x = -1 of the estimator, passed on as a lane centre with
    width 315 and maximum 70, gives an angle below -70. *)
Lemma C4_counterexample :
  0 < 315 /\ 0 <= 70
  /\ returns (calculate_steering_angle 315 (- (1)) 70)
       (fun a => a == - (634 # 9) /\ a < - (70))
  /\ ~ returns (calculate_steering_angle 315 (- (1)) 70)
         (fun a => - (70) <= a <= 70).
Proof.
  split; [reflexivity|]. split; [discriminate|]. split.
  - eexists. split; [vm_compute; reflexivity|]. split; reflexivity.
  - intros (a & Ha & Hlo & _). vm_compute in Ha. injection Ha as <-.
    apply Hlo. reflexivity.
Qed.

(** C10: for a positive width and a positive maximum the angle is strictly
    increasing in the lane centre, is 0 exactly at image_width/2, and the
    angle at image_width/2 + d is the negation of the one at
    image_width/2 - d. *)
Theorem C10_steering_angle_monotone_odd (image_width max_steering_angle : Q) :
  0 < image_width -> 0 < max_steering_angle ->
  (forall x y : Q,
      x < y ->
      exists a b,
        calculate_steering_angle image_width x max_steering_angle = Some a
        /\ calculate_steering_angle image_width y max_steering_angle = Some b
        /\ a < b)
  /\ (forall x : Q,
         returns (calculate_steering_angle image_width x max_steering_angle)
           (fun a => a == 0 <-> x == image_width / 2))
  /\ (forall d : Q,
         exists a b,
           calculate_steering_angle image_width (image_width / 2 + d)
                                    max_steering_angle = Some a
           /\ calculate_steering_angle image_width (image_width / 2 - d)
                                       max_steering_angle = Some b
           /\ a == - b).
Proof.
  intros Hw Hm.
  pose proof (steering_gain_positive _ _ Hw Hm) as Hk.
  set (k := 2 * max_steering_angle / image_width) in *.
  assert (Hkw : k * image_width == 2 * max_steering_angle).
  { unfold k. field. lra. }
  assert (Hhalf : image_width / 2 * 2 == image_width) by (field).
  split; [|split].
  - intros x y Hxy.
    destruct (steering_angle_value image_width x max_steering_angle Hw)
      as (a & Ha & Hva).
    destruct (steering_angle_value image_width y max_steering_angle Hw)
      as (b & Hb & Hvb).
    exists a, b. split; [exact Ha|]. split; [exact Hb|].
    rewrite Hva, Hvb. fold k. nra.
  - intros x.
    destruct (steering_angle_value image_width x max_steering_angle Hw)
      as (a & Ha & Hva).
    exists a. split; [exact Ha|]. rewrite Hva. fold k.
    set (h := image_width / 2) in *.
    split; intros H.
    + assert (E : k * (x - h) == 0) by nra.
      apply Qmult_integral in E. destruct E as [E|E]; lra.
    + rewrite H. nra.
  - intros d.
    destruct (steering_angle_value image_width (image_width / 2 + d)
                max_steering_angle Hw) as (a & Ha & Hva).
    destruct (steering_angle_value image_width (image_width / 2 - d)
                max_steering_angle Hw) as (b & Hb & Hvb).
    exists a, b. split; [exact Ha|]. split; [exact Hb|].
    rewrite Hva, Hvb. fold k.
    set (h := image_width / 2) in *. nra.
Qed.

Lemma C10_steering_angle_monotone_odd_witness :
  0 < 315 /\ 0 < 70
  /\ (exists a b,
         calculate_steering_angle 315 100 70 = Some a
         /\ calculate_steering_angle 315 200 70 = Some b
         /\ a < b)
  /\ returns (calculate_steering_angle 315 (315 # 2) 70)
       (fun a => a == 0 <-> 315 # 2 == 315 / 2).
Proof.
  assert (Hw : 0 < 315) by reflexivity.
  assert (Hm : 0 < 70) by reflexivity.
  pose proof (C10_steering_angle_monotone_odd 315 70 Hw Hm) as (Hmono & Hzero & _).
  split; [exact Hw|]. split; [exact Hm|]. split.
  - apply Hmono. reflexivity.
  - apply Hzero.
Defined.

(** ** The longest member of a group *)

Lemma length_sq_nonneg (s : segment) : (0 <= length_sq s)%Z.
Proof. unfold length_sq. nia. Qed.

(** A squared length that fits is stored as it is. *)
Lemma tuple_of_length (s : segment) :
  fits_int32 s -> item1 (tuple_of s) = NpSqrt (inject_Z (length_sq s)).
Proof.
  intros H. unfold tuple_of, item1. cbn [fst snd].
  fold (length_sq s). rewrite wrap32_small; [reflexivity|].
  split; [apply length_sq_nonneg|exact H].
Qed.

Lemma tuple_of_not_nan (s : segment) :
  fits_int32 s -> is_nan (item1 (tuple_of s)) = false.
Proof.
  intros H. rewrite (tuple_of_length s H). unfold is_nan. cbn [radicand].
  apply Qltb_false_iff. rewrite <- (Zle_Qle 0). apply length_sq_nonneg.
Qed.

Lemma root_gtb_length (a b : segment) :
  fits_int32 a -> fits_int32 b ->
  root_gtb (item1 (tuple_of a)) (item1 (tuple_of b))
  = (length_sq a >? length_sq b)%Z.
Proof.
  intros Ha Hb.
  rewrite root_gtb_radicand by (apply tuple_of_not_nan; assumption).
  rewrite (tuple_of_length a Ha), (tuple_of_length b Hb). cbn [radicand].
  rewrite Z.gtb_ltb. unfold Qltb. cbn [Qnum Qden inject_Z].
  rewrite !Z.mul_1_r. reflexivity.
Qed.

(** When every squared length fits, [max] picks the longest member, the
    first of several longest ones. *)
Lemma longest_first_spec (g : list line_tuple) (m : line_tuple) :
  (forall e, In e g -> exists s, fits_int32 s /\ e = tuple_of s) ->
  best_by item1 root_gtb g = Some m -> longest_first g m.
Proof.
  intros Hg Hm.
  assert (Hok : forall e, In e g -> is_nan (item1 e) = false).
  { intros e He. destruct (Hg e He) as (s & Hs & ->).
    apply tuple_of_not_nan, Hs. }
  destruct (longest_spec g m Hok Hm) as (pre & post & -> & Hpre & Hpost).
  destruct (Hg m) as (sm & Hsm & ->);
    [apply in_or_app; right; left; reflexivity|].
  exists pre, post. split; [reflexivity|]. split.
  - intros e He. destruct (Hg e) as (se & Hse & ->);
      [apply in_or_app; left; exact He|].
    change ((length_sq sm >? length_sq se)%Z = true).
    rewrite <- (root_gtb_length sm se Hsm Hse). apply Hpre, He.
  - intros e He. destruct (Hg e) as (se & Hse & ->);
      [apply in_or_app; right; right; exact He|].
    change ((length_sq se >? length_sq sm)%Z = false).
    rewrite <- (root_gtb_length se sm Hse Hsm). apply Hpost, He.
Qed.

(** The members of the groups are the tuples of classified input segments. *)
Lemma group_members (lines : list segment) (f : segment -> bool)
  (g : list line_tuple) (e : line_tuple) :
  In g (chain_groups (sorted (map tuple_of (filter f lines)))) ->
  In e g ->
  exists s, In s lines /\ f s = true /\ e = tuple_of s.
Proof.
  intros Hg He.
  assert (H : In e (concat (chain_groups (sorted (map tuple_of (filter f lines)))))).
  { apply in_concat. exists g. split; assumption. }
  rewrite chain_groups_concat in H.
  apply (Permutation_in _ (Permutation_sym (sorted_perm _))) in H.
  apply in_map_iff in H. destruct H as (s & <- & Hs).
  apply filter_In in Hs. exists s. tauto.
Qed.

(** C1 (amended): when both slope signs have groups and the squared length
    of every segment fits the 32-bit integers of the segment array, the
    answer is the midpoint of the maximum-x and the minimum-x point among
    the endpoints of the groups' longest members, the first one winning
    every tie; the two segments (400,500,300,100) and (0,100,100,500) both
    have positive slope, so for them the answer is the sentinel (1, 1). *)
Theorem C1_both_sides_center :
  (forall (lines : list segment) (image : Image),
      filter is_positive lines <> [] -> filter is_negative lines <> [] ->
      Forall fits_int32 lines ->
      exists (positive_groups negative_groups : groups)
             (reps : list line_tuple) (p q : Z * Z),
        group_lines (positive_tuples lines) = Some positive_groups
        /\ group_lines (negative_tuples lines) = Some negative_groups
        /\ Forall2 longest_first (positive_groups ++ negative_groups) reps
        /\ first_best fst Z.gtb (flat_map endpoints reps) p
        /\ first_best fst Z.ltb (flat_map endpoints reps) q
        /\ returns (detect_lane_center (Some lines) image)
             (fun r => fst r = midpoint_of p q))
  /\ (forall image : Image,
         filter is_negative [Segment 400 500 300 100; Segment 0 100 100 500] = []
         /\ detect_lane_center
              (Some [Segment 400 500 300 100; Segment 0 100 100 500]) image
            = Some ((Some 1, Some 1), image)).
Proof.
  split.
  - intros lines image Hp Hn Hfit.
    destruct (detect_both_sides lines image Hp Hn)
      as (Hreps & p & q & Hmax & Hmin & Hd).
    eexists _, _, _, p, q.
    split; [apply group_lines_chain|]. split; [apply group_lines_chain|].
    split; [|split; [exact Hmax|split; [exact Hmin|]]].
    + refine (Forall2_impl_in _ _ _ _ _ Hreps).
      intros g r Hg Hr. apply longest_first_spec; [|exact Hr].
      intros e He.
      assert (H : exists s, In s lines /\ e = tuple_of s).
      { apply in_app_or in Hg. destruct Hg as [Hg|Hg];
          destruct (group_members lines _ g e Hg He) as (s & Hs & _ & ->);
          exists s; split; [exact Hs|reflexivity|exact Hs|reflexivity]. }
      destruct H as (s & Hs & ->). exists s. split; [|reflexivity].
      exact (proj1 (Forall_forall _ _) Hfit s Hs).
    + eexists. split; [exact Hd|]. reflexivity.
  - intros image. split; reflexivity.
Qed.

Lemma C1_both_sides_center_witness :
  let lines := [Segment 400 500 300 100; Segment 0 100 100 50] in
  let image := MkImage 600 [] in
  filter is_positive lines <> [] /\ filter is_negative lines <> []
  /\ Forall fits_int32 lines
  /\ (exists (positive_groups negative_groups : groups)
             (reps : list line_tuple) (p q : Z * Z),
         group_lines (positive_tuples lines) = Some positive_groups
         /\ group_lines (negative_tuples lines) = Some negative_groups
         /\ Forall2 longest_first (positive_groups ++ negative_groups) reps
         /\ first_best fst Z.gtb (flat_map endpoints reps) p
         /\ first_best fst Z.ltb (flat_map endpoints reps) q
         /\ returns (detect_lane_center (Some lines) image)
              (fun r => fst r = midpoint_of p q))
  /\ returns (detect_lane_center (Some lines) image)
       (fun r => fst r = midpoint_of (400, 500)%Z (0, 100)%Z).
Proof.
  intros lines image.
  assert (Hp : filter is_positive lines <> []) by discriminate.
  assert (Hn : filter is_negative lines <> []) by discriminate.
  assert (Hfit : Forall fits_int32 lines)
    by (repeat constructor).
  split; [exact Hp|]. split; [exact Hn|]. split; [exact Hfit|].
  split; [exact (proj1 C1_both_sides_center lines image Hp Hn Hfit)|].
  eexists. split; reflexivity.
Defined.

(** Why the squared lengths must fit: a segment some 47000 pixels long has a
    squared length that wraps to a negative 32-bit integer, its stored
    length is [nan], and [max] keeps the 8-pixel segment in front of it. *)
Example wrapped_length_not_longest :
  let short := tuple_of (Segment 23167 4999 23175 5000) in
  let long := tuple_of (Segment 0 0 46342 10000) in
  group_lines [long; short] = Some [[short; long]]
  /\ is_nan (item1 long) = true
  /\ representatives [[short; long]] = [short]
  /\ ~ longest_first [short; long] short.
Proof.
  intros short long.
  split; [vm_compute; reflexivity|]. split; [reflexivity|].
  split; [vm_compute; reflexivity|].
  intros (pre & post & Hl & _ & Hpost).
  destruct pre as [|a pre]; simpl in Hl.
  - injection Hl as <-.
    specialize (Hpost long (or_introl eq_refl)). vm_compute in Hpost.
    discriminate.
  - injection Hl as _ Hl. destruct pre as [|b pre]; simpl in Hl.
    + injection Hl as Hl _. vm_compute in Hl. discriminate.
    + injection Hl as _ Hl. destruct pre; discriminate.
Qed.

(** For the two segments of the both-sides scenario the second one has
    slope 4, no segment is negative, and the answer is (1, 1), not
    (200, 300). *)
Lemma C1_counterexample :
  let lines := [Segment 400 500 300 100; Segment 0 100 100 500] in
  let image := MkImage 600 [] in
  slope (Segment 0 100 100 500) == 4
  /\ filter is_negative lines = []
  /\ detect_lane_center (Some lines) image = Some ((Some 1, Some 1), image)
  /\ ~ returns (detect_lane_center (Some lines) image)
         (fun r => exists cx cy,
              fst r = (Some cx, Some cy) /\ cx == 200 /\ cy == 300).
Proof.
  intros lines image.
  split; [reflexivity|]. split; [reflexivity|]. split; [reflexivity|].
  intros (r & Hr & cx & cy & Hxy & Hx & _).
  vm_compute in Hr. injection Hr as <-. cbn [fst] in Hxy.
  injection Hxy as <- _. discriminate Hx.
Qed.

(** ** What a call does to the frame *)

Lemma draw_all_strokes (image : Image) (reps : list line_tuple) :
  shape0 (draw_all image reps) = shape0 image
  /\ strokes (draw_all image reps)
     = strokes image
       ++ map (fun t => ((x1 (item2 t), y1 (item2 t)),
                         (x2 (item2 t), y2 (item2 t)))) reps.
Proof.
  revert image. induction reps as [|t reps IH]; intros image.
  - simpl. rewrite app_nil_r. split; reflexivity.
  - unfold draw_all. cbn [fold_left map]. fold (draw_all (cv2_line image
      (x1 (item2 t), y1 (item2 t)) (x2 (item2 t), y2 (item2 t))) reps).
    destruct (IH (cv2_line image (x1 (item2 t), y1 (item2 t))
                           (x2 (item2 t), y2 (item2 t)))) as [H0 Hs].
    rewrite H0, Hs. cbn [cv2_line shape0 strokes].
    rewrite <- app_assoc. split; reflexivity.
Qed.

Lemma draw_all_changes (image : Image) (reps : list line_tuple) :
  reps <> [] -> draw_all image reps <> image.
Proof.
  intros Hne H. apply (f_equal strokes) in H.
  rewrite (proj2 (draw_all_strokes image reps)) in H.
  apply (f_equal (@length _)) in H. rewrite length_app, length_map in H.
  destruct reps; [congruence|simpl in H; lia].
Qed.

(** ** The store *)

Lemma length_update {A : Type} (n : nat) (x : A) (l : list A) :
  length (update n x l) = length l.
Proof.
  revert n. induction l as [|a t IH]; intros [|n]; simpl; auto.
Qed.

Lemma nth_error_update_same {A : Type} (n : nat) (x : A) (l : list A) :
  (n < length l)%nat -> nth_error (update n x l) n = Some x.
Proof.
  revert n. induction l as [|a t IH]; intros [|n] H; simpl in *; try lia.
  - reflexivity.
  - apply IH. lia.
Qed.

Lemma nth_error_update_other {A : Type} (n m : nat) (x : A) (l : list A) :
  n <> m -> nth_error (update n x l) m = nth_error l m.
Proof.
  revert n m. induction l as [|a t IH]; intros [|n] [|m] H; simpl;
    try reflexivity; try congruence.
  apply IH. congruence.
Qed.

Lemma update_app_r {A : Type} (k : nat) (x : A) (l0 l : list A) :
  update (length l0 + k) x (l0 ++ l) = l0 ++ update k x l.
Proof.
  induction l0 as [|a t IH]; simpl; [reflexivity|]. rewrite IH. reflexivity.
Qed.

Lemma nth_error_some_lt {A : Type} (l : list A) (n : nat) (x : A) :
  nth_error l n = Some x -> (n < length l)%nat.
Proof. intros H. apply nth_error_Some. congruence. Qed.

Lemma append_at (a : nat) (v : value) (h : store) (o : list value) :
  nth_error h a = Some o ->
  append a v h = Some (tt, update a (o ++ [v]) h).
Proof. intros H. unfold append. rewrite H. reflexivity. Qed.

Lemma read_at (a : nat) (h : store) (o : list value) :
  nth_error h a = Some o -> read a h = Some (o, h).
Proof. intros H. unfold read. rewrite H. reflexivity. Qed.

Lemma traverse_tuples (l : list line_tuple) :
  traverse as_tuple (map VTuple l) = Some l.
Proof.
  induction l as [|a t IH]; [reflexivity|]. simpl. rewrite IH. reflexivity.
Qed.

Lemma traverse_refs (l : list nat) : traverse as_ref (map VRef l) = Some l.
Proof.
  induction l as [|a t IH]; [reflexivity|]. simpl. rewrite IH. reflexivity.
Qed.

Lemma traverse_points (l : list (Z * Z)) :
  traverse as_point (map VPoint l) = Some l.
Proof.
  induction l as [|a t IH]; [reflexivity|]. simpl. rewrite IH. reflexivity.
Qed.

Lemma read_tuples_at (a : nat) (h : store) (l : list line_tuple) :
  nth_error h a = Some (map VTuple l) -> read_tuples a h = Some (l, h).
Proof.
  intros H. unfold read_tuples, bind_h. rewrite (read_at _ _ _ H).
  unfold lift. rewrite traverse_tuples. reflexivity.
Qed.

Lemma read_points_at (a : nat) (h : store) (l : list (Z * Z)) :
  nth_error h a = Some (map VPoint l) -> read_points a h = Some (l, h).
Proof.
  intros H. unfold read_points, bind_h. rewrite (read_at _ _ _ H).
  unfold lift. rewrite traverse_points. reflexivity.
Qed.

Lemma map_h_read_tuples (h : store) (addrs : list nat) (gs : groups) :
  Forall2 (fun r g => nth_error h r = Some (map VTuple g)) addrs gs ->
  map_h read_tuples addrs h = Some (gs, h).
Proof.
  induction 1 as [|r g addrs gs Hr _ IH]; [reflexivity|].
  cbn [map_h]. unfold bind_h at 1. rewrite (read_tuples_at _ _ _ Hr).
  unfold bind_h at 1. rewrite IH. reflexivity.
Qed.

Lemma read_groups_at (n : nat) (h : store) (a : nat) (gs : groups) :
  holds_groups n h a gs -> read_groups a h = Some (gs, h).
Proof.
  intros (addrs & _ & Ha & _ & Hg). unfold read_groups, bind_h.
  rewrite (read_at _ _ _ Ha). unfold lift. rewrite traverse_refs.
  apply map_h_read_tuples, Hg.
Qed.

Lemma unchanged_below_refl (n : nat) (h : store) : unchanged_below n h h.
Proof. split; [lia|reflexivity]. Qed.

Lemma unchanged_below_trans (n : nat) (h1 h2 h3 : store) :
  unchanged_below n h1 h2 -> unchanged_below n h2 h3 -> unchanged_below n h1 h3.
Proof.
  intros [L1 H1] [L2 H2]. split; [lia|].
  intros b Hb. rewrite H2, H1 by exact Hb. reflexivity.
Qed.

Lemma unchanged_below_le (n m : nat) (h h' : store) :
  (m <= n)%nat -> unchanged_below n h h' -> unchanged_below m h h'.
Proof. intros Hm [L H]. split; [exact L|]. intros b Hb. apply H. lia. Qed.

Lemma unchanged_below_app (n : nat) (h l : store) :
  (n <= length h)%nat -> unchanged_below n h (h ++ l).
Proof.
  intros Hn. split; [rewrite length_app; lia|].
  intros b Hb. apply nth_error_app1. lia.
Qed.

Lemma unchanged_below_update (n a : nat) (o : list value) (h : store) :
  (n <= a)%nat -> unchanged_below n h (update a o h).
Proof.
  intros Hn. split; [rewrite length_update; lia|].
  intros b Hb. apply nth_error_update_other. lia.
Qed.

Lemma holds_groups_unchanged (n : nat) (h h' : store) (a : nat) (gs : groups) :
  holds_groups n h a gs -> unchanged_below (length h) h h' ->
  holds_groups n h' a gs.
Proof.
  intros (addrs & Hn & Ha & Hb & Hg) [_ Hu]. exists addrs.
  split; [exact Hn|]. split.
  - rewrite Hu; [exact Ha|]. eapply nth_error_some_lt, Ha.
  - split; [exact Hb|].
    eapply Forall2_impl; [|exact Hg]. cbn beta. intros r g Hr.
    rewrite Hu; [exact Hr|]. eapply nth_error_some_lt, Hr.
Qed.

Lemma holds_groups_le (n m : nat) (h : store) (a : nat) (gs : groups) :
  (m <= n)%nat -> holds_groups n h a gs -> holds_groups m h a gs.
Proof.
  intros Hm (addrs & Hn & Ha & Hb & Hg). exists addrs.
  split; [lia|]. split; [exact Ha|]. split; [|exact Hg].
  eapply Forall_impl; [|exact Hb]. cbn beta. intros; lia.
Qed.

Lemma holds_groups_except (n p : nat) (h h' : store) (a : nat) (gs : groups) :
  (p < n)%nat -> holds_groups n h a gs -> unchanged_except p h h' ->
  holds_groups n h' a gs.
Proof.
  intros Hp (addrs & Hn & Ha & Hb & Hg) [_ Hu]. exists addrs.
  split; [exact Hn|]. split; [rewrite Hu; [exact Ha|lia]|].
  split; [exact Hb|].
  clear Ha. revert Hb.
  induction Hg as [|r g addrs gs Hr _ IH]; intros Hb; [constructor|].
  inversion Hb as [|? ? Hr' Hb']; subst.
  constructor; [rewrite Hu; [exact Hr|lia]|apply IH, Hb'].
Qed.

(** ** [group_lines] over the store *)

Lemma groups_at_lt (h : store) (addrs : list nat) (gs : groups) :
  Forall2 (fun r g => nth_error h r = Some (map VTuple g)) addrs gs ->
  Forall (fun r => (r < length h)%nat) addrs.
Proof.
  induction 1 as [|r g addrs gs Hr _ IH]; constructor; [|exact IH].
  eapply nth_error_some_lt, Hr.
Qed.

Lemma groups_at_transfer (h h' : store) (addrs : list nat) (gs : groups) :
  Forall2 (fun r g => nth_error h r = Some (map VTuple g)) addrs gs ->
  (forall r, In r addrs -> nth_error h' r = nth_error h r) ->
  Forall2 (fun r g => nth_error h' r = Some (map VTuple g)) addrs gs.
Proof.
  induction 1 as [|r g addrs gs Hr _ IH]; intros Hsame; constructor.
  - rewrite Hsame; [exact Hr|left; reflexivity].
  - apply IH. intros r' Hr'. apply Hsame. right. exact Hr'.
Qed.

Lemma group_lines_body_h_step (n : nat) (h : store) (s g c : nat)
  (items : list line_tuple) (closed : groups) (current : list line_tuple)
  (prev e : line_tuple) (i : nat) :
  open_grouping n h s g c items closed current ->
  nth_error items i = Some e ->
  last_error current = Some prev ->
  exists c' h',
    group_lines_body_h s g c i h = Some (c', h')
    /\ unchanged_below n h h'
    /\ if chained prev e
       then open_grouping n h' s g c' items closed (current ++ [e])
       else open_grouping n h' s g c' items (closed ++ [current]) [e].
Proof.
  intros (Hns & Hng & Hnc & Hsg & Hsc & Hgc & Hs & Hc & addrs & Hg & Hfresh & Hgrp)
         Hi Hlast.
  pose proof (nth_error_some_lt _ _ _ Hs) as Ls.
  pose proof (nth_error_some_lt _ _ _ Hg) as Lg.
  pose proof (nth_error_some_lt _ _ _ Hc) as Lc.
  pose proof (groups_at_lt _ _ _ Hgrp) as Laddrs.
  rewrite Forall_forall in Hfresh, Laddrs.
  assert (Hjoin :
    exists c' h',
      (if chained prev e
       then bind_h (append c (VTuple e)) (fun _ => ret c)
       else bind_h (append g (VRef c)) (fun _ => new_list [VTuple e])) h
      = Some (c', h')
      /\ unchanged_below n h h'
      /\ if chained prev e
         then open_grouping n h' s g c' items closed (current ++ [e])
         else open_grouping n h' s g c' items (closed ++ [current]) [e]).
  { destruct (chained prev e).
    - exists c, (update c (map VTuple current ++ [VTuple e]) h).
      split; [unfold bind_h; rewrite (append_at _ _ _ _ Hc); reflexivity|].
      split; [apply unchanged_below_update, Hnc|].
      repeat (split; [assumption|]).
      split; [rewrite nth_error_update_other by congruence; exact Hs|].
      split; [rewrite nth_error_update_same, map_app by exact Lc; reflexivity|].
      exists addrs.
      split; [rewrite nth_error_update_other by congruence; exact Hg|].
      split; [apply Forall_forall, Hfresh|].
      apply (groups_at_transfer h); [exact Hgrp|].
      intros r Hr. apply nth_error_update_other.
      destruct (Hfresh r Hr) as (_ & _ & Hrc). congruence.
    - exists (length h), (update g (map VRef addrs ++ [VRef c]) h ++ [[VTuple e]]).
      split.
      { unfold bind_h. rewrite (append_at _ _ _ _ Hg). unfold new_list.
        rewrite length_update. reflexivity. }
      split.
      { eapply unchanged_below_trans; [apply unchanged_below_update, Hng|].
        apply unchanged_below_app. rewrite length_update. lia. }
      assert (Hold : forall b, b <> g -> (b < length h)%nat ->
                nth_error (update g (map VRef addrs ++ [VRef c]) h ++ [[VTuple e]]) b
                = nth_error h b).
      { intros b Hb Lb. rewrite nth_error_app1 by (rewrite length_update; lia).
        apply nth_error_update_other. congruence. }
      split; [exact Hns|]. split; [exact Hng|]. split; [lia|].
      split; [exact Hsg|]. split; [lia|]. split; [lia|].
      split; [rewrite Hold by (congruence || lia); exact Hs|].
      split.
      { rewrite nth_error_app2 by (rewrite length_update; lia).
        rewrite length_update, Nat.sub_diag. reflexivity. }
      exists (addrs ++ [c]).
      split.
      { rewrite nth_error_app1 by (rewrite length_update; lia).
        rewrite nth_error_update_same, map_app by exact Lg. reflexivity. }
      split.
      { apply Forall_forall. intros r Hr. apply in_app_or in Hr.
        destruct Hr as [Hr|[<-|[]]].
        - destruct (Hfresh r Hr) as (Hnr & Hrg & _).
          specialize (Laddrs r Hr). cbn beta in Laddrs.
          split; [exact Hnr|]. split; [exact Hrg|]. lia.
        - split; [exact Hnc|]. split; [congruence|]. lia. }
      apply Forall2_app.
      + apply (groups_at_transfer h); [exact Hgrp|].
        intros r Hr. destruct (Hfresh r Hr) as (_ & Hrg & _).
        apply Hold; [exact Hrg|apply Laddrs, Hr].
      + constructor; [|constructor].
        rewrite Hold by (congruence || lia). exact Hc. }
  destruct Hjoin as (c' & h' & Hrun & Hframe & Hinv).
  exists c', h'. split; [|split; assumption].
  unfold group_lines_body_h, bind_h at 1.
  rewrite (read_tuples_at _ _ _ Hs). unfold bind_h at 1, lift at 1. rewrite Hi.
  unfold bind_h at 1. rewrite (read_tuples_at _ _ _ Hc).
  unfold bind_h at 1, lift at 1. rewrite Hlast.
  rewrite <- Hrun. unfold chained.
  destruct (Qltb (Qabs (round64 (item0 e - item0 prev))) (round64 (3 # 10)));
    [|reflexivity].
  destruct (item2 prev) as [a1 b1 a2 b2], (item2 e) as [c1 d1 c2 d2].
  cbn [andb]. unfold root_lt_const, dist_sq, midpoint;
    cbn [radicand fst snd x1 y1 x2 y2].
  destruct (Qltb _ _); reflexivity.
Qed.

Lemma group_loop_h (n : nat) (s g : nat) (rest pre : list line_tuple)
  (h : store) (c : nat) (closed : groups) (current : list line_tuple)
  (prev : line_tuple) :
  open_grouping n h s g c (pre ++ rest) closed current ->
  last_error current = Some prev ->
  exists c' h' closed' current',
    for_each_h (group_lines_body_h s g)
               (seq (length pre) (length rest)) c h = Some (c', h')
    /\ unchanged_below n h h'
    /\ open_grouping n h' s g c' (pre ++ rest) closed' current'
    /\ closed' ++ [current'] = chain_from closed current prev rest.
Proof.
  revert pre h c closed current prev.
  induction rest as [|e t IH]; intros pre h c closed current prev Hinv Hlast.
  - exists c, h, closed, current.
    split; [reflexivity|]. split; [apply unchanged_below_refl|].
    split; [exact Hinv|reflexivity].
  - assert (Hi : nth_error (pre ++ e :: t) (length pre) = Some e).
    { rewrite nth_error_app2, Nat.sub_diag by lia. reflexivity. }
    destruct (group_lines_body_h_step _ _ _ _ _ _ _ _ _ _ _ Hinv Hi Hlast)
      as (c1 & h1 & Hrun & Hframe & Hinv1).
    cbn [length seq for_each_h chain_from]. unfold bind_h at 1. rewrite Hrun.
    assert (Hshift : pre ++ e :: t = (pre ++ [e]) ++ t)
      by (rewrite <- app_assoc; reflexivity).
    assert (Hlen : S (length pre) = length (pre ++ [e]))
      by (rewrite length_app; simpl; lia).
    rewrite Hshift in Hinv1 |- *. rewrite Hlen.
    destruct (chained prev e).
    + destruct (IH _ _ _ _ _ e Hinv1 (last_error_snoc _ _))
        as (c' & h' & closed' & current' & Hrun' & Hframe' & Hinv' & Hout).
      exists c', h', closed', current'.
      split; [exact Hrun'|].
      split; [eapply unchanged_below_trans; eassumption|].
      split; assumption.
    + destruct (IH _ _ _ _ _ e Hinv1 eq_refl)
        as (c' & h' & closed' & current' & Hrun' & Hframe' & Hinv' & Hout).
      exists c', h', closed', current'.
      split; [exact Hrun'|].
      split; [eapply unchanged_below_trans; eassumption|].
      split; assumption.
Qed.

Lemma bind_h_run {A B : Type} (m : M A) (k : A -> M B) (h h' : store) (a : A) :
  m h = Some (a, h') -> bind_h m k h = k a h'.
Proof. intros H. unfold bind_h. rewrite H. reflexivity. Qed.

(** [group_lines] over the store runs to the end, leaves every list that
    was there before the call as it was, and returns new lists that hold
    the groups of the pure model. *)
Lemma group_lines_h_spec (h : store) (a : nat) (items : list line_tuple) :
  nth_error h a = Some (map VTuple items) ->
  exists g h',
    group_lines_h a h = Some (g, h')
    /\ unchanged_below (length h) h h'
    /\ holds_groups (length h) h' g (chain_groups (sorted items)).
Proof.
  intros Ha. unfold group_lines_h.
  rewrite (bind_h_run _ _ _ _ _ (read_tuples_at _ _ _ Ha)).
  destruct items as [|i0 items'] eqn:Ei.
  - exists (length h), (h ++ [[]]). split; [reflexivity|].
    split; [apply unchanged_below_app; lia|].
    exists []. split; [lia|].
    split; [rewrite nth_error_app2, Nat.sub_diag by lia; reflexivity|].
    split; constructor.
  - rewrite <- Ei. clear Ha.
    assert (Et : negb (truthy items) = false) by (subst items; reflexivity).
    rewrite Et.
    destruct (sorted items) as [|first rest] eqn:Es.
    { apply (proj1 (sorted_nil _)) in Es. congruence. }
    set (g := length h).
    set (h1 := h ++ [[]]).
    set (s := length h1).
    set (h2 := h1 ++ [map VTuple (first :: rest)]).
    set (c := length h2).
    set (h3 := h2 ++ [[VTuple first]]).
    assert (Lh1 : length h1 = S (length h))
      by (unfold h1; rewrite length_app; simpl; lia).
    assert (Lh2 : length h2 = S (S (length h)))
      by (unfold h2; rewrite length_app; simpl; lia).
    assert (Hs3 : nth_error h3 s = Some (map VTuple (first :: rest))).
    { unfold h3. rewrite nth_error_app1 by (unfold s; lia).
      unfold h2, s. rewrite nth_error_app2, Nat.sub_diag by lia. reflexivity. }
    assert (Hg3 : nth_error h3 g = Some (map VRef [])).
    { unfold h3. rewrite nth_error_app1 by (unfold g; lia).
      unfold h2. rewrite nth_error_app1 by (unfold g; lia).
      unfold h1, g. rewrite nth_error_app2, Nat.sub_diag by lia. reflexivity. }
    assert (Hc3 : nth_error h3 c = Some (map VTuple [first])).
    { unfold h3, c. rewrite nth_error_app2, Nat.sub_diag by lia. reflexivity. }
    assert (Hinv : open_grouping (length h) h3 s g c ([first] ++ rest) [] [first]).
    { unfold s, g, c. rewrite Lh1, Lh2.
      repeat (split; [lia|]).
      split; [rewrite <- Lh1; exact Hs3|].
      split; [rewrite <- Lh2; exact Hc3|].
      exists []. split; [exact Hg3|]. split; constructor. }
    destruct (group_loop_h _ _ _ rest [first] _ _ _ _ first Hinv eq_refl)
      as (c' & h' & closed' & current' & Hrun & Hframe & Hinv' & Hout).
    destruct Hinv' as (_ & Hng & Hnc' & _ & _ & Hgc' & _ & Hc' & addrs & Hg'
                       & Hfresh & Hgrp).
    pose proof (nth_error_some_lt _ _ _ Hg') as Lg'.
    exists g, (update g (map VRef addrs ++ [VRef c']) h').
    split.
    { rewrite (bind_h_run (new_list []) _ h h1 g eq_refl).
      rewrite (bind_h_run (new_list _) _ h1 h2 s eq_refl).
      rewrite (bind_h_run (read_tuples s) _ h2 h2 (first :: rest)).
      2:{ apply read_tuples_at. unfold h2, s.
          rewrite nth_error_app2, Nat.sub_diag by lia. reflexivity. }
      rewrite (bind_h_run (lift (nth_error (first :: rest) 0)) _ h2 h2 first eq_refl).
      rewrite (bind_h_run (new_list _) _ h2 h3 c eq_refl).
      cbn [length Nat.sub]. rewrite Nat.sub_0_r.
      cbn [length app] in Hrun.
      rewrite (bind_h_run _ _ h3 h' c' Hrun).
      rewrite (bind_h_run _ _ h' _ tt (append_at _ _ _ _ Hg')). reflexivity. }
    split.
    { eapply unchanged_below_trans; [|apply unchanged_below_update, Hng].
      eapply unchanged_below_trans; [|exact Hframe].
      unfold h3, h2, h1. rewrite <- !app_assoc. apply unchanged_below_app. lia. }
    cbn [chain_groups]. rewrite <- Hout. exists (addrs ++ [c']).
    split; [exact Hng|].
    split; [rewrite nth_error_update_same, map_app by exact Lg'; reflexivity|].
    rewrite Forall_forall in Hfresh.
    split.
    { apply Forall_forall. intros r Hr. apply in_app_or in Hr.
      destruct Hr as [Hr|[<-|[]]]; [apply Hfresh, Hr|exact Hnc']. }
    apply Forall2_app.
    + apply (groups_at_transfer h'); [exact Hgrp|].
      intros r Hr. apply nth_error_update_other.
      destruct (Hfresh r Hr) as (_ & Hrg & _). congruence.
    + constructor; [|constructor].
      rewrite nth_error_update_other by exact Hgc'. exact Hc'.
Qed.

(** ** The classifier over the store *)

Lemma append_first (h0 : store) (a b : list value) (v : value) :
  append (length h0) v (h0 ++ [a; b]) = Some (tt, h0 ++ [a ++ [v]; b]).
Proof.
  rewrite (append_at _ _ _ a).
  - rewrite <- (Nat.add_0_r (length h0)) at 1. rewrite update_app_r. reflexivity.
  - rewrite nth_error_app2, Nat.sub_diag by lia. reflexivity.
Qed.

Lemma append_second (h0 : store) (a b : list value) (v : value) :
  append (S (length h0)) v (h0 ++ [a; b]) = Some (tt, h0 ++ [a; b ++ [v]]).
Proof.
  rewrite (append_at _ _ _ b).
  - replace (S (length h0)) with (length h0 + 1)%nat by lia.
    rewrite update_app_r. reflexivity.
  - rewrite nth_error_app2 by lia.
    replace (S (length h0) - length h0)%nat with 1%nat by lia. reflexivity.
Qed.

Lemma classify_body_h_spec (h0 : store) (ps ns : list line_tuple) (s : segment) :
  classify_body_h (length h0) (S (length h0)) tt s
                  (h0 ++ [map VTuple ps; map VTuple ns])
  = Some (tt, h0 ++ [map VTuple (ps ++ map tuple_of (filter is_positive [s]));
                     map VTuple (ns ++ map tuple_of (filter is_negative [s]))]).
Proof.
  destruct s as [a1 b1 a2 b2].
  unfold classify_body_h, is_positive, is_negative, slope, tuple_of.
  cbn [filter x1 y1 x2 y2].
  destruct (a2 - a1 =? 0)%Z eqn:E.
  - apply Z.eqb_eq in E.
    assert (Ha : (a1 =? a2)%Z = true) by (apply Z.eqb_eq; lia).
    rewrite Ha. cbn [negb andb map]. rewrite !app_nil_r. reflexivity.
  - apply Z.eqb_neq in E.
    assert (Ha : (a1 =? a2)%Z = false) by (apply Z.eqb_neq; lia).
    rewrite Ha. cbn [negb andb].
    rewrite true_div_nonzero.
    2:{ intros H. apply E. unfold Qeq in H. simpl in H. lia. }
    unfold bind_h, lift. cbv zeta. rewrite Qltb_0_round64, Qltb_round64_0.
    destruct (Qltb 0 _) eqn:Ep.
    + assert (En : Qltb (inject_Z (b2 - b1) / inject_Z (a2 - a1)) 0 = false).
      { apply Qltb_false_iff. apply Qltb_iff in Ep. lra. }
      rewrite En. cbn [map]. rewrite app_nil_r, append_first, map_app.
      reflexivity.
    + destruct (Qltb _ 0); cbn [map]; rewrite ?app_nil_r; [|reflexivity].
      rewrite append_second, map_app. reflexivity.
Qed.

Lemma classify_loop_h (h0 : store) (lines : list segment)
  (ps ns : list line_tuple) :
  for_each_h (classify_body_h (length h0) (S (length h0))) lines tt
             (h0 ++ [map VTuple ps; map VTuple ns])
  = Some (tt, h0 ++ [map VTuple (ps ++ map tuple_of (filter is_positive lines));
                     map VTuple (ns ++ map tuple_of (filter is_negative lines))]).
Proof.
  revert ps ns. induction lines as [|s t IH]; intros ps ns.
  - simpl. rewrite !app_nil_r. reflexivity.
  - cbn [for_each_h].
    rewrite (bind_h_run _ _ _ _ _ (classify_body_h_spec h0 ps ns s)).
    rewrite IH. rewrite <- !app_assoc, <- !map_app.
    change (s :: t) with ([s] ++ t). rewrite !filter_app. reflexivity.
Qed.

Lemma stage_classify_spec (lines : list segment) (h : store) :
  stage_classify lines h
  = Some ((length h, S (length h)),
          h ++ [map VTuple (positive_tuples lines);
                map VTuple (negative_tuples lines)]).
Proof.
  unfold stage_classify.
  rewrite (bind_h_run (new_list []) _ h (h ++ [[]]) (length h) eq_refl).
  rewrite (bind_h_run (new_list []) _ (h ++ [[]]) (h ++ [[]; []]) (S (length h))).
  2:{ unfold new_list. rewrite length_app, <- app_assoc. simpl.
      rewrite Nat.add_1_r. reflexivity. }
  rewrite (bind_h_run _ _ _ _ _ (classify_loop_h h lines [] [])).
  reflexivity.
Qed.

(** ** The estimator over the store *)

Lemma unchanged_except_refl (p : nat) (h : store) : unchanged_except p h h.
Proof. split; reflexivity. Qed.

Lemma unchanged_except_trans (p : nat) (h1 h2 h3 : store) :
  unchanged_except p h1 h2 -> unchanged_except p h2 h3 ->
  unchanged_except p h1 h3.
Proof.
  intros [L1 H1] [L2 H2]. split; [congruence|].
  intros b Hb. rewrite H2, H1 by exact Hb. reflexivity.
Qed.

Lemma unchanged_except_update (p : nat) (o : list value) (h : store) :
  unchanged_except p h (update p o h).
Proof.
  split; [apply length_update|].
  intros b Hb. apply nth_error_update_other. congruence.
Qed.

Lemma draw_loop_h (n points : nat) (addrs : list nat) (gs : groups) :
  (points < n)%nat ->
  Forall (fun r => (n <= r)%nat) addrs ->
  forall (image : Image) (h : store) (pts : list (Z * Z)),
    Forall2 (fun r g => nth_error h r = Some (map VTuple g)) addrs gs ->
    nth_error h points = Some (map VPoint pts) ->
    exists h',
      for_each_h (draw_body_h points) (map VRef addrs) image h
      = Some (draw_all image (representatives gs), h')
      /\ unchanged_except points h h'
      /\ nth_error h' points
         = Some (map VPoint (pts ++ flat_map endpoints (representatives gs))).
Proof.
  intros Hp Hfresh. revert gs.
  induction Hfresh as [|r addrs Hr Hrest IH]; intros gs image h pts Hgrp Hpts.
  - inversion Hgrp; subst. exists h.
    split; [reflexivity|]. split; [apply unchanged_except_refl|].
    simpl. rewrite app_nil_r. exact Hpts.
  - inversion Hgrp as [|? g ? gs' Hg Hgrp']; subst.
    cbn [map for_each_h]. unfold representatives. cbn [flat_map].
    fold (representatives gs').
    pose proof (nth_error_some_lt _ _ _ Hpts) as Lp.
    assert (Hbody : exists h1,
      draw_body_h points image (VRef r) h
      = Some (draw_all image (match best_by item1 root_gtb g with
                              | Some m => [m] | None => [] end), h1)
      /\ unchanged_except points h h1
      /\ nth_error h1 points
         = Some (map VPoint (pts ++ flat_map endpoints
                                      (match best_by item1 root_gtb g with
                                       | Some m => [m] | None => [] end)))).
    { unfold draw_body_h.
      rewrite (bind_h_run (lift (as_ref (VRef r))) _ h h r eq_refl).
      rewrite (bind_h_run _ _ _ _ _ (read_tuples_at _ _ _ Hg)).
      destruct (best_by item1 root_gtb g) as [m|].
      - destruct m as [[sl len] [a1 b1 a2 b2]].
        cbn [item2 snd].
        rewrite (bind_h_run _ _ _ _ _ (append_at _ _ _ _ Hpts)).
        rewrite (bind_h_run _ _ _ _ _
                   (append_at _ _ _ _ (nth_error_update_same _ _ _ Lp))).
        eexists. split; [reflexivity|]. split.
        + eapply unchanged_except_trans; apply unchanged_except_update.
        + rewrite nth_error_update_same by (rewrite length_update; exact Lp).
          cbn [flat_map endpoints item2 snd x1 y1 x2 y2 app].
          rewrite <- app_assoc, map_app. reflexivity.
      - exists h. split; [reflexivity|].
        split; [apply unchanged_except_refl|].
        simpl. rewrite app_nil_r. exact Hpts. }
    destruct Hbody as (h1 & Hrun1 & Hex1 & Hpts1).
    rewrite (bind_h_run _ _ _ _ _ Hrun1).
    assert (Hgrp1 : Forall2 (fun r g => nth_error h1 r = Some (map VTuple g))
                            addrs gs').
    { apply (groups_at_transfer h); [exact Hgrp'|].
      intros r' Hr'. apply (proj2 Hex1).
      rewrite Forall_forall in Hrest. specialize (Hrest r' Hr'). lia. }
    destruct (IH gs' (draw_all image match best_by item1 root_gtb g with
                                     | Some m => [m] | None => [] end)
                 h1 _ Hgrp1 Hpts1) as (h' & Hrun & Hex & Hpts').
    exists h'. rewrite Hrun, Hpts', draw_all_app, flat_map_app, app_assoc.
    split; [reflexivity|].
    split; [eapply unchanged_except_trans; eassumption|reflexivity].
Qed.

Lemma detect_lane_center_stages (lines : list segment) (image : Image) :
  detect_lane_center (Some lines) image
  = estimate (chain_groups (sorted (positive_tuples lines)))
             (chain_groups (sorted (negative_tuples lines))) image.
Proof. apply detect_lane_center_unfold. Qed.

Lemma truthy_refs (addrs : list nat) (h : store) (gs : groups) :
  Forall2 (fun r g => nth_error h r = Some (map VTuple g)) addrs gs ->
  truthy (map VRef addrs) = truthy gs.
Proof. intros [|]; reflexivity. Qed.

(** The estimator over the store gives what the pure estimator gives and
    writes to no list but its own [points]. *)
Lemma stage_estimate_spec (n points pg ng : nat) (pgs ngs : groups)
  (image : Image) (h : store) (out : lane_center * Image) :
  (points < n)%nat ->
  nth_error h points = Some [] ->
  holds_groups n h pg pgs -> holds_groups n h ng ngs ->
  estimate pgs ngs image = Some out ->
  exists h',
    stage_estimate points (pg, ng) image h = Some (out, h')
    /\ unchanged_except points h h'.
Proof.
  intros Hp Hpts Hpg Hng Hest.
  pose proof (read_groups_at _ _ _ _ Hpg) as Rpg.
  pose proof (read_groups_at _ _ _ _ Hng) as Rng.
  destruct Hpg as (paddrs & _ & Hpa & Hpfresh & Hpgrp).
  destruct Hng as (naddrs & _ & Hna & Hnfresh & Hngrp).
  unfold stage_estimate.
  rewrite (bind_h_run _ _ _ _ _ (read_at _ _ _ Hpa)).
  rewrite (bind_h_run _ _ _ _ _ (read_at _ _ _ Hna)).
  rewrite (truthy_refs _ _ _ Hpgrp), (truthy_refs _ _ _ Hngrp).
  unfold estimate in Hest.
  destruct (negb (truthy pgs) && truthy ngs).
  { exists h. split; [|apply unchanged_except_refl].
    unfold one_sided_h.
    destruct (one_sided ngs (- (1)) image) as [r|] eqn:E; [|discriminate].
    injection Hest as <-.
    unfold bind_h. rewrite Rng. unfold lift. rewrite E. reflexivity. }
  destruct (negb (truthy ngs) && truthy pgs).
  { exists h. split; [|apply unchanged_except_refl].
    unfold one_sided_h.
    destruct (one_sided pgs 1 image) as [r|] eqn:E; [|discriminate].
    injection Hest as <-.
    unfold bind_h. rewrite Rpg. unfold lift. rewrite E. reflexivity. }
  cbv zeta in Hest.
  destruct (draw_loop_h n points paddrs pgs Hp Hpfresh image h [] Hpgrp Hpts)
    as (h1 & Hrun1 & Hex1 & Hpts1).
  assert (Hngrp1 : Forall2 (fun r g => nth_error h1 r = Some (map VTuple g))
                           naddrs ngs).
  { apply (groups_at_transfer h); [exact Hngrp|].
    intros r Hr. apply (proj2 Hex1).
    rewrite Forall_forall in Hnfresh. specialize (Hnfresh r Hr). lia. }
  destruct (draw_loop_h n points naddrs ngs Hp Hnfresh
              (draw_all image (representatives pgs)) h1 _ Hngrp1 Hpts1)
    as (h2 & Hrun2 & Hex2 & Hpts2).
  exists h2. split; [|eapply unchanged_except_trans; eassumption].
  rewrite (bind_h_run _ _ _ _ _ Hrun1), (bind_h_run _ _ _ _ _ Hrun2).
  cbn [app] in Hpts2.
  rewrite representatives_app, flat_map_app, draw_all_app in Hest.
  destruct (center_of_points _) as [r|] eqn:Ec; [|discriminate].
  injection Hest as <-.
  assert (Hc : center_of_points_h points h2 = Some (r, h2)).
  { unfold center_of_points_h.
    rewrite (bind_h_run _ _ _ _ _ (read_points_at _ _ _ Hpts2)).
    unfold lift. rewrite Ec. reflexivity. }
  rewrite (bind_h_run _ _ _ _ _ Hc). reflexivity.
Qed.

(** The whole call over the store: it returns what the pure model returns;
    the caller's lists are as they were; the classified lists and the
    grouped lists still hold, at the end of the call, what the classifier
    and the grouper put into them. *)
Lemma detect_lane_center_h_spec (lines : list segment) (image : Image)
  (h : store) (out : lane_center * Image) :
  detect_lane_center (Some lines) image = Some out ->
  exists h' pg ng,
    detect_lane_center_h (Some lines) image h = Some (out, h')
    /\ unchanged_below (length h) h h'
    /\ nth_error h' (S (length h)) = Some (map VTuple (positive_tuples lines))
    /\ nth_error h' (S (S (length h))) = Some (map VTuple (negative_tuples lines))
    /\ holds_groups (S (length h)) h' pg
         (chain_groups (sorted (positive_tuples lines)))
    /\ holds_groups (S (length h)) h' ng
         (chain_groups (sorted (negative_tuples lines))).
Proof.
  intros Hout. rewrite detect_lane_center_stages in Hout.
  set (h0 := h ++ [[]]).
  set (h1 := h0 ++ [map VTuple (positive_tuples lines);
                    map VTuple (negative_tuples lines)]).
  assert (L0 : length h0 = S (length h))
    by (unfold h0; rewrite length_app; simpl; lia).
  assert (L1 : length h1 = S (S (S (length h))))
    by (unfold h1; rewrite length_app; simpl; lia).
  assert (Hpos1 : nth_error h1 (S (length h))
                  = Some (map VTuple (positive_tuples lines))).
  { unfold h1. rewrite nth_error_app2 by lia. rewrite L0, Nat.sub_diag.
    reflexivity. }
  assert (Hneg1 : nth_error h1 (S (S (length h)))
                  = Some (map VTuple (negative_tuples lines))).
  { unfold h1. rewrite nth_error_app2 by lia. rewrite L0.
    replace (S (S (length h)) - S (length h))%nat with 1%nat by lia.
    reflexivity. }
  assert (Hpts1 : nth_error h1 (length h) = Some []).
  { unfold h1. rewrite nth_error_app1 by lia.
    unfold h0. rewrite nth_error_app2, Nat.sub_diag by lia. reflexivity. }
  destruct (group_lines_h_spec h1 _ _ Hpos1) as (pg & h2 & Hrun2 & Hfr2 & Hpg2).
  assert (Hneg2 : nth_error h2 (S (S (length h)))
                  = Some (map VTuple (negative_tuples lines))).
  { rewrite (proj2 Hfr2) by lia. exact Hneg1. }
  destruct (group_lines_h_spec h2 _ _ Hneg2) as (ng & h3 & Hrun3 & Hfr3 & Hng3).
  pose proof (proj1 Hfr2) as L2. pose proof (proj1 Hfr3) as L3.
  assert (Hpg3 : holds_groups (S (length h)) h3 pg
                   (chain_groups (sorted (positive_tuples lines)))).
  { eapply holds_groups_le; [|eapply holds_groups_unchanged; eassumption]. lia. }
  assert (Hng3' : holds_groups (S (length h)) h3 ng
                    (chain_groups (sorted (negative_tuples lines)))).
  { eapply holds_groups_le; [|exact Hng3]. lia. }
  assert (Hpts3 : nth_error h3 (length h) = Some []).
  { rewrite (proj2 Hfr3), (proj2 Hfr2) by lia. exact Hpts1. }
  destruct (stage_estimate_spec (S (length h)) (length h) pg ng _ _ image h3 out
              (Nat.lt_succ_diag_r _) Hpts3 Hpg3 Hng3' Hout)
    as (h4 & Hrun4 & Hex4).
  exists h4, pg, ng.
  split.
  { unfold detect_lane_center_h.
    rewrite (bind_h_run (new_list []) _ h h0 (length h) eq_refl).
    rewrite (bind_h_run _ _ _ _ _ (stage_classify_spec lines h0)).
    rewrite L0. fold h1.
    assert (Hgrp : stage_group (S (length h), S (S (length h))) h1
                   = Some ((pg, ng), h3)).
    { unfold stage_group.
      rewrite (bind_h_run _ _ _ _ _ Hrun2), (bind_h_run _ _ _ _ _ Hrun3).
      reflexivity. }
    rewrite (bind_h_run _ _ _ _ _ Hgrp). exact Hrun4. }
  assert (Hsame : forall b, b <> length h -> (b < length h1)%nat ->
                            nth_error h4 b = nth_error h1 b).
  { intros b Hb Lb.
    rewrite (proj2 Hex4) by exact Hb.
    rewrite (proj2 Hfr3), (proj2 Hfr2) by lia. reflexivity. }
  split.
  { split; [rewrite (proj1 Hex4); lia|].
    intros b Hb. rewrite Hsame by lia.
    unfold h1. rewrite nth_error_app1 by lia.
    unfold h0. apply nth_error_app1. exact Hb. }
  split; [rewrite Hsame by lia; exact Hpos1|].
  split; [rewrite Hsame by lia; exact Hneg1|].
  split; eapply holds_groups_except; try eassumption; lia.
Qed.

Lemma detect_total (lines : option (list segment)) (image : Image) :
  exists out, detect_lane_center lines image = Some out.
Proof.
  destruct lines as [l|]; [|eexists; reflexivity].
  destruct (detect_absent_iff l image) as (out & H & _). exists out. exact H.
Qed.


(** What a call leaves in the frame. *)
Lemma detect_frame (l : list segment) (image : Image)
  (out : lane_center * Image) :
  detect_lane_center (Some l) image = Some out ->
  (filter is_positive l = [] \/ filter is_negative l = [] -> snd out = image)
  /\ (filter is_positive l <> [] -> filter is_negative l <> [] ->
      let reps := representatives
                    (chain_groups (sorted (positive_tuples l))
                     ++ chain_groups (sorted (negative_tuples l))) in
      snd out = draw_all image reps
      /\ (2 <= length reps)%nat
      /\ snd out <> image).
Proof.
  intros Hout. split.
  - intros Hside. rewrite detect_lane_center_unfold in Hout.
    unfold positive_tuples, negative_tuples in Hout.
    rewrite !truthy_groups in Hout.
    destruct (filter is_positive l) as [|sp tp] eqn:Ep;
      destruct (filter is_negative l) as [|sn tn] eqn:En;
      cbn [truthy negb andb] in Hout.
    + cbn in Hout. injection Hout as <-. reflexivity.
    + destruct (one_sided _ _ _); [|discriminate].
      injection Hout as <-. reflexivity.
    + destruct (one_sided _ _ _); [|discriminate].
      injection Hout as <-. reflexivity.
    + destruct Hside; discriminate.
  - intros Hp Hn reps.
    destruct (detect_both_sides l image Hp Hn) as (Hreps & p & q & _ & _ & Hd).
    fold reps in Hreps, Hd. rewrite Hd in Hout. injection Hout as <-.
    cbn [snd].
    assert (Hlen : (2 <= length reps)%nat).
    { rewrite <- (Forall2_length Hreps), length_app.
      assert (Hpg : chain_groups (sorted (positive_tuples l)) <> []).
      { intros H. apply (proj1 (chain_groups_nil _)) in H.
        apply (proj1 (sorted_nil _)) in H.
        apply (proj1 (map_eq_nil_iff _ _)) in H. contradiction. }
      assert (Hng : chain_groups (sorted (negative_tuples l)) <> []).
      { intros H. apply (proj1 (chain_groups_nil _)) in H.
        apply (proj1 (sorted_nil _)) in H.
        apply (proj1 (map_eq_nil_iff _ _)) in H. contradiction. }
      destruct (chain_groups (sorted (positive_tuples l))); [congruence|].
      destruct (chain_groups (sorted (negative_tuples l))); [congruence|].
      simpl. lia. }
    split; [reflexivity|]. split; [exact Hlen|].
    apply draw_all_changes. destruct reps; [simpl in Hlen; lia|discriminate].
Qed.

(** C8 (amended): no stage changes a list it was handed.  [group_lines]
    leaves every list that existed before the call, its argument included,
    as it was and answers with new lists; over a whole call of
    [detect_lane_center] the caller's lists are untouched and the classified
    and grouped lists hold at the end what the classifier and the grouper
    put into them.  The frame is a different matter: it is left as it was
    when no segment array comes in or at most one slope side has segments,
    but with segments on both sides the call draws one stroke per group
    onto the frame it was given. *)
Theorem C8_lists_kept_frame_drawn :
  (forall (h : store) (a : nat) (items : list line_tuple),
      nth_error h a = Some (map VTuple items) ->
      exists g h',
        group_lines_h a h = Some (g, h')
        /\ unchanged_below (length h) h h'
        /\ holds_groups (length h) h' g (chain_groups (sorted items)))
  /\ (forall (lines : list segment) (image : Image) (h : store),
         exists out h' pg ng,
           detect_lane_center (Some lines) image = Some out
           /\ detect_lane_center_h (Some lines) image h = Some (out, h')
           /\ unchanged_below (length h) h h'
           /\ nth_error h' (S (length h))
              = Some (map VTuple (positive_tuples lines))
           /\ nth_error h' (S (S (length h)))
              = Some (map VTuple (negative_tuples lines))
           /\ holds_groups (S (length h)) h' pg
                (chain_groups (sorted (positive_tuples lines)))
           /\ holds_groups (S (length h)) h' ng
                (chain_groups (sorted (negative_tuples lines))))
  /\ (forall image : Image,
         detect_lane_center None image = Some ((None, None), image))
  /\ (forall (lines : list segment) (image : Image),
         returns (detect_lane_center (Some lines) image)
           (fun out =>
              (filter is_positive lines = [] \/ filter is_negative lines = [] ->
               snd out = image)
              /\ (filter is_positive lines <> [] ->
                  filter is_negative lines <> [] ->
                  let reps :=
                    representatives
                      (chain_groups (sorted (positive_tuples lines))
                       ++ chain_groups (sorted (negative_tuples lines))) in
                  snd out = draw_all image reps
                  /\ strokes (snd out) = strokes image ++ map stroke_of reps
                  /\ (2 <= length reps)%nat
                  /\ snd out <> image))).
Proof.
  split; [exact group_lines_h_spec|]. split; [|split; [reflexivity|]].
  - intros lines image h.
    destruct (detect_total (Some lines) image) as (out & Hout).
    destruct (detect_lane_center_h_spec lines image h out Hout)
      as (h' & pg & ng & H).
    exists out, h', pg, ng. split; [exact Hout|exact H].
  - intros lines image.
    destruct (detect_total (Some lines) image) as (out & Hout).
    exists out. split; [exact Hout|].
    destruct (detect_frame lines image out Hout) as [Hone Hboth].
    split; [exact Hone|]. intros Hp Hn reps.
    destruct (Hboth Hp Hn) as (Hd & Hlen & Hne). fold reps in Hd, Hlen.
    split; [exact Hd|]. split; [|split; assumption].
    rewrite Hd. apply draw_all_strokes.
Qed.

Lemma C8_lists_kept_frame_drawn_witness :
  let a := tuple_of (Segment 0 0 4 4) in
  let b := tuple_of (Segment 28 37 36 47) in
  let h := [[VPoint (1, 2)%Z]; map VTuple [b; a]] in
  nth_error h 1 = Some (map VTuple [b; a])
  /\ exists g h',
       group_lines_h 1 h = Some (g, h')
       /\ unchanged_below (length h) h h'
       /\ holds_groups (length h) h' g (chain_groups (sorted [b; a])).
Proof.
  intros a b h.
  assert (H : nth_error h 1 = Some (map VTuple [b; a])) by reflexivity.
  split; [exact H|].
  exact (proj1 C8_lists_kept_frame_drawn h 1%nat [b; a] H).
Defined.

(** With one positive and one negative segment the frame that comes back
    carries two strokes the frame that went in did not. *)
Lemma C8_counterexample :
  let lines := [Segment 400 500 300 100; Segment 0 100 100 50] in
  let image := MkImage 600 [] in
  exists out,
    detect_lane_center (Some lines) image = Some out
    /\ strokes (snd out) = [((400, 500), (300, 100)); ((0, 100), (100, 50))]%Z
    /\ snd out <> image.
Proof.
  intros lines image. eexists. split; [vm_compute; reflexivity|].
  split; [reflexivity|]. discriminate.
Qed.

(** * Further properties *)

(** ** The steering angle *)

(** X2: the angle does not depend on the unit of length: scaling the image
    width and the lane centre by the same non-zero factor leaves it as it
    is. *)
Theorem steering_angle_scale_free (k image_width lane_center_x max_steering_angle : Q) :
  ~ k == 0 -> ~ image_width == 0 ->
  exists a b,
    calculate_steering_angle (k * image_width) (k * lane_center_x)
                             max_steering_angle = Some a
    /\ calculate_steering_angle image_width lane_center_x
                                max_steering_angle = Some b
    /\ a == b.
Proof.
  intros Hk Hw.
  assert (Hkw : ~ k * image_width == 0).
  { intros H. apply Qmult_integral in H. tauto. }
  eexists _, _. split; [apply steering_angle_defined, Hkw|].
  split; [apply steering_angle_defined, Hw|].
  field. split; assumption.
Qed.

Lemma steering_angle_scale_free_witness :
  ~ 2 == 0 /\ ~ 315 == 0
  /\ exists a b,
       calculate_steering_angle (2 * 315) (2 * 100) 70 = Some a
       /\ calculate_steering_angle 315 100 70 = Some b
       /\ a == b.
Proof.
  assert (Hk : ~ 2 == 0) by discriminate.
  assert (Hw : ~ 315 == 0) by discriminate.
  split; [exact Hk|]. split; [exact Hw|].
  exact (steering_angle_scale_free 2 315 100 70 Hk Hw).
Defined.

(** X3: for a positive width and a positive maximum the angle is
    +max at the right edge, -max at the left edge, and lies in
    [-max, +max] exactly when the lane centre lies in the frame. *)
Theorem steering_angle_in_range_iff (image_width lane_center_x max_steering_angle : Q) :
  0 < image_width -> 0 < max_steering_angle ->
  returns (calculate_steering_angle image_width image_width max_steering_angle)
    (fun a => a == max_steering_angle)
  /\ returns (calculate_steering_angle image_width 0 max_steering_angle)
       (fun a => a == - max_steering_angle)
  /\ returns (calculate_steering_angle image_width lane_center_x
                                       max_steering_angle)
       (fun a => - max_steering_angle <= a <= max_steering_angle
                 <-> 0 <= lane_center_x <= image_width).
Proof.
  intros Hw Hm.
  pose proof (steering_gain_positive _ _ Hw Hm) as Hk.
  set (k := 2 * max_steering_angle / image_width) in *.
  assert (Hkw : k * image_width == 2 * max_steering_angle).
  { unfold k. field. lra. }
  split; [|split].
  - destruct (steering_angle_value image_width image_width max_steering_angle Hw)
      as (a & Ha & Hv).
    exists a. split; [exact Ha|]. rewrite Hv. fold k. lra.
  - destruct (steering_angle_value image_width 0 max_steering_angle Hw)
      as (a & Ha & Hv).
    exists a. split; [exact Ha|]. rewrite Hv. lra.
  - destruct (steering_angle_value image_width lane_center_x max_steering_angle Hw)
      as (a & Ha & Hv).
    exists a. split; [exact Ha|]. rewrite Hv. fold k.
    split.
    + intros [Hlo Hhi]. split; nra.
    + intros [Hlo Hhi]. split; nra.
Qed.

Lemma steering_angle_in_range_iff_witness :
  0 < 315 /\ 0 < 70
  /\ returns (calculate_steering_angle 315 400 70)
       (fun a => - (70) <= a <= 70 <-> 0 <= 400 <= 315).
Proof.
  assert (Hw : 0 < 315) by reflexivity.
  assert (Hm : 0 < 70) by reflexivity.
  split; [exact Hw|]. split; [exact Hm|].
  exact (proj2 (proj2 (steering_angle_in_range_iff 315 400 70 Hw Hm))).
Defined.

(** ** The classifier *)

Lemma slope_sign_positive (dx dy : Z) :
  dx <> 0%Z -> (0 < inject_Z dy / inject_Z dx <-> (0 < dx * dy)%Z).
Proof.
  intros Hdx.
  set (a := inject_Z dx). set (b := inject_Z dy). set (q := b / a).
  assert (Ha : ~ a == 0).
  { unfold a, Qeq. simpl. lia. }
  assert (Hq : q * a == b) by (unfold q; field; exact Ha).
  rewrite (Zlt_Qlt 0 (dx * dy)), inject_Z_mult. fold a b.
  change (inject_Z 0) with 0.
  assert (Hsign : 0 < a \/ a < 0).
  { destruct (Q_dec a 0) as [[H|H]|H]; [right|left|contradiction]; exact H. }
  destruct Hsign as [Hs|Hs]; split; intros H.
  - assert (Hb : 0 < b) by nra. nra.
  - assert (Hb : 0 < b) by nra. nra.
  - assert (Hb : b < 0) by nra. nra.
  - assert (Hb : b < 0) by nra. nra.
Qed.

Lemma slope_sign_negative (dx dy : Z) :
  dx <> 0%Z -> (inject_Z dy / inject_Z dx < 0 <-> (dx * dy < 0)%Z).
Proof.
  intros Hdx.
  set (a := inject_Z dx). set (b := inject_Z dy). set (q := b / a).
  assert (Ha : ~ a == 0).
  { unfold a, Qeq. simpl. lia. }
  assert (Hq : q * a == b) by (unfold q; field; exact Ha).
  rewrite (Zlt_Qlt (dx * dy) 0), inject_Z_mult. fold a b.
  change (inject_Z 0) with 0.
  assert (Hsign : 0 < a \/ a < 0).
  { destruct (Q_dec a 0) as [[H|H]|H]; [right|left|contradiction]; exact H. }
  destruct Hsign as [Hs|Hs]; split; intros H.
  - assert (Hb : b < 0) by nra. nra.
  - assert (Hb : b < 0) by nra. nra.
  - assert (Hb : 0 < b) by nra. nra.
  - assert (Hb : 0 < b) by nra. nra.
Qed.

Lemma is_positive_rise_run (s : segment) :
  is_positive s = (0 <? rise_run s)%Z.
Proof.
  apply eq_true_iff_eq. rewrite is_positive_iff, Z.ltb_lt. unfold rise_run, slope.
  split.
  - intros [Hx Hs]. apply slope_sign_positive; [lia|exact Hs].
  - intros H. assert (Hx : x1 s <> x2 s) by nia.
    split; [exact Hx|]. apply slope_sign_positive; [lia|exact H].
Qed.

Lemma is_negative_rise_run (s : segment) :
  is_negative s = (rise_run s <? 0)%Z.
Proof.
  apply eq_true_iff_eq. rewrite is_negative_iff, Z.ltb_lt. unfold rise_run, slope.
  split.
  - intros [Hx Hs]. apply slope_sign_negative; [lia|exact Hs].
  - intros H. assert (Hx : x1 s <> x2 s) by nia.
    split; [exact Hx|]. apply slope_sign_negative; [lia|exact H].
Qed.

Lemma three_way_count (lines : list segment) :
  (length (filter (fun s => (0 <? rise_run s)%Z) lines)
   + length (filter (fun s => (rise_run s <? 0)%Z) lines)
   + length (filter (fun s => (x1 s =? x2 s)%Z || (y1 s =? y2 s)%Z) lines)
   = length lines)%nat.
Proof.
  induction lines as [|s t IH]; [reflexivity|].
  cbn [filter].
  destruct (0 <? rise_run s)%Z eqn:Ep;
    destruct (rise_run s <? 0)%Z eqn:En;
    destruct ((x1 s =? x2 s)%Z || (y1 s =? y2 s)%Z) eqn:Ed;
    cbn [length]; try lia; exfalso;
    rewrite ?Z.ltb_lt, ?Z.ltb_ge, ?orb_true_iff, ?orb_false_iff,
            ?Z.eqb_eq, ?Z.eqb_neq in *;
    unfold rise_run in *; nia.
Qed.

(** X4: the class of a segment is the sign of (x2-x1)*(y2-y1): positive
    product, positive list; negative product, negative list; zero product,
    that is a vertical or a horizontal segment, dropped.  Every segment is
    in exactly one of the three classes. *)
Theorem classify_by_rise_run (lines : list segment) :
  exists positive_slopes negative_slopes,
    classify lines = Some (positive_slopes, negative_slopes)
    /\ map item2 positive_slopes
       = filter (fun s => (0 <? rise_run s)%Z) lines
    /\ map item2 negative_slopes
       = filter (fun s => (rise_run s <? 0)%Z) lines
    /\ (length positive_slopes + length negative_slopes
        + length (filter (fun s => (x1 s =? x2 s)%Z || (y1 s =? y2 s)%Z) lines)
        = length lines)%nat.
Proof.
  eexists _, _. split; [apply classify_spec|].
  rewrite !item2_tuple_of, !length_map.
  rewrite (filter_ext _ _ is_positive_rise_run).
  rewrite (filter_ext _ _ is_negative_rise_run).
  split; [reflexivity|]. split; [reflexivity|]. apply three_way_count.
Qed.

Lemma rise_run_reversed (s : segment) : rise_run (reversed s) = rise_run s.
Proof. unfold rise_run, reversed. simpl. ring. Qed.

Lemma slope_reversed (s : segment) : slope (reversed s) == slope s.
Proof.
  unfold slope, reversed. cbn [x1 y1 x2 y2].
  destruct (Z.eq_dec (x2 s) (x1 s)) as [E|E].
  - rewrite E, !Z.sub_diag. unfold Qdiv. cbn. rewrite !Qmult_0_r. reflexivity.
  - replace (y1 s - y2 s)%Z with (- (y2 s - y1 s))%Z by ring.
    replace (x1 s - x2 s)%Z with (- (x2 s - x1 s))%Z by ring.
    rewrite !inject_Z_opp. field. unfold Qeq. simpl. lia.
Qed.

Lemma same_line_reversed (s : segment) : same_line (tuple_of s) (tuple_of (reversed s)).
Proof.
  unfold same_line, tuple_of, item0, item1, item2. cbn [fst snd radicand].
  split; [rewrite (round64_eq _ _ (slope_reversed s)); reflexivity|].
  split; [|reflexivity].
  unfold reversed. cbn [x1 y1 x2 y2].
  replace ((x1 s - x2 s) ^ 2 + (y1 s - y2 s) ^ 2)%Z
    with ((x2 s - x1 s) ^ 2 + (y2 s - y1 s) ^ 2)%Z by ring.
  reflexivity.
Qed.

Lemma filter_map_swap {A B : Type} (f : B -> bool) (g : A -> B) (l : list A) :
  filter f (map g l) = map g (filter (fun a => f (g a)) l).
Proof.
  induction l as [|a t IH]; [reflexivity|].
  simpl. destruct (f (g a)); simpl; rewrite IH; reflexivity.
Qed.

Lemma same_line_all (l : list segment) :
  Forall2 same_line (map tuple_of l) (map tuple_of (map reversed l)).
Proof.
  induction l as [|s t IH]; [constructor|].
  simpl. constructor; [apply same_line_reversed|exact IH].
Qed.

(** X5: the class of a segment does not depend on which endpoint comes
    first: with the endpoints of every segment exchanged, the classifier
    fills its two lists with the same lines in the same order, each with
    the same slope and the same length. *)
Theorem classify_reversed (lines : list segment) :
  exists positive_slopes negative_slopes positive_slopes' negative_slopes',
    classify lines = Some (positive_slopes, negative_slopes)
    /\ classify (map reversed lines) = Some (positive_slopes', negative_slopes')
    /\ Forall2 same_line positive_slopes positive_slopes'
    /\ Forall2 same_line negative_slopes negative_slopes'.
Proof.
  eexists _, _, _, _.
  split; [apply classify_spec|]. split; [apply classify_spec|].
  rewrite !filter_map_swap.
  rewrite (filter_ext (fun a => is_positive (reversed a)) is_positive).
  2:{ intros s. rewrite !is_positive_rise_run, rise_run_reversed. reflexivity. }
  rewrite (filter_ext (fun a => is_negative (reversed a)) is_negative).
  2:{ intros s. rewrite !is_negative_rise_run, rise_run_reversed. reflexivity. }
  split; apply same_line_all.
Qed.

(** ** The groups *)

Lemma Sorted_snoc {A : Type} (R : A -> A -> Prop) (l : list A) (prev a : A) :
  Sorted R l -> last_error l = Some prev -> R prev a -> Sorted R (l ++ [a]).
Proof.
  induction l as [|x t IH]; intros Hs Hl Hr; [discriminate|].
  inversion Hs as [|? ? Ht Hh]; subst.
  destruct t as [|y t'].
  - injection Hl as <-. simpl. repeat constructor. exact Hr.
  - cbn [app]. constructor.
    + apply IH; [exact Ht|exact Hl|exact Hr].
    + inversion Hh; subst. constructor. assumption.
Qed.

Lemma chain_from_linked (rest : list line_tuple) closed current prev :
  Forall (Sorted close_enough) closed ->
  Sorted close_enough current ->
  last_error current = Some prev ->
  Forall (Sorted close_enough) (chain_from closed current prev rest).
Proof.
  revert closed current prev.
  induction rest as [|e t IH]; intros closed current prev Hc Hs Hl;
    cbn [chain_from].
  - apply Forall_app. split; [exact Hc|]. constructor; [exact Hs|constructor].
  - destruct (chained prev e) eqn:E.
    + apply IH; [exact Hc| |apply last_error_snoc].
      eapply Sorted_snoc; [exact Hs|exact Hl|apply chained_iff, E].
    + apply IH; [|repeat constructor|reflexivity].
      apply Forall_app. split; [exact Hc|]. constructor; [exact Hs|constructor].
Qed.

Lemma hd_error_snoc {A : Type} (l : list A) (a : A) :
  l <> [] -> hd_error (l ++ [a]) = hd_error l.
Proof. destruct l; [congruence|reflexivity]. Qed.

Lemma separated_extend_last (gs : groups) (g : list line_tuple) (e : line_tuple) :
  g <> [] -> separated (gs ++ [g]) -> separated (gs ++ [g ++ [e]]).
Proof.
  intros Hg. induction gs as [|g0 gs IH]; intros H; [constructor|].
  destruct gs as [|g1 gs'].
  - cbn [app] in *. inversion H as [| |? ? ? Hb Hrest]; subst.
    constructor; [|constructor].
    intros a b Ha Hb'. rewrite hd_error_snoc in Hb' by exact Hg.
    apply Hb; assumption.
  - cbn [app] in *. inversion H as [| |? ? ? Hb Hrest]; subst.
    constructor; [exact Hb|]. apply IH. exact Hrest.
Qed.

Lemma separated_snoc (gs : groups) (g1 g2 : list line_tuple) :
  separated (gs ++ [g1]) ->
  (forall a b, last_error g1 = Some a -> hd_error g2 = Some b ->
               ~ close_enough a b) ->
  separated (gs ++ [g1; g2]).
Proof.
  intros H Hb. induction gs as [|g0 gs IH].
  - cbn [app]. constructor; [exact Hb|constructor].
  - destruct gs as [|g gs'].
    + cbn [app] in *. inversion H as [| |? ? ? Hb0 Hrest]; subst.
      constructor; [exact Hb0|]. constructor; [exact Hb|constructor].
    + cbn [app] in *. inversion H as [| |? ? ? Hb0 Hrest]; subst.
      constructor; [exact Hb0|]. apply IH. exact Hrest.
Qed.

Lemma chain_from_separated (rest : list line_tuple) closed current prev :
  current <> [] ->
  last_error current = Some prev ->
  separated (closed ++ [current]) ->
  separated (chain_from closed current prev rest).
Proof.
  revert closed current prev.
  induction rest as [|e t IH]; intros closed current prev Hne Hl Hs;
    cbn [chain_from]; [exact Hs|].
  destruct (chained prev e) eqn:E.
  - apply IH; [destruct current; discriminate|apply last_error_snoc|].
    apply separated_extend_last; assumption.
  - apply IH; [discriminate|reflexivity|].
    rewrite <- app_assoc. cbn [app]. apply separated_snoc; [exact Hs|].
    intros a b Ha Hb. cbn in Hb. injection Hb as <-.
    assert (a = prev) as -> by congruence.
    apply chained_false_iff, E.
Qed.

Lemma groups_are_maximal_runs_aux (lines : list line_tuple) :
  Forall (Sorted close_enough) (chain_groups (sorted lines))
  /\ separated (chain_groups (sorted lines)).
Proof.
  destruct (sorted lines) as [|first rest]; cbn [chain_groups].
  - split; constructor.
  - split.
    + apply chain_from_linked; [constructor|repeat constructor|reflexivity].
    + apply chain_from_separated; [discriminate|reflexivity|constructor].
Qed.

(** X6: the groups that [group_lines] returns cut the sorted input into
    consecutive non-empty pieces (joined in order they give the sorted input
    back), inside every group each member passes the chaining test against
    the member before it, and between neighbouring groups the test fails
    (last member of one against first member of the next): the groups are
    the maximal chained runs of the sorted input. *)
Theorem groups_are_maximal_runs (lines : list line_tuple) :
  exists out : groups,
    group_lines lines = Some out
    /\ concat out = sorted lines
    /\ Forall (fun g => g <> []) out
    /\ Forall (Sorted close_enough) out
    /\ separated out.
Proof.
  eexists. split; [apply group_lines_chain|].
  split; [apply chain_groups_concat|].
  split; [apply chain_groups_nonempty|].
  apply groups_are_maximal_runs_aux.
Qed.

Lemma StronglySorted_app_parts {A : Type} (R : A -> A -> Prop) (l1 l2 : list A) :
  StronglySorted R (l1 ++ l2) -> StronglySorted R l1 /\ StronglySorted R l2.
Proof.
  induction l1 as [|a t IH]; intros H; [split; [constructor|exact H]|].
  cbn [app] in H. inversion H as [|? ? Ht Hh]; subst.
  destruct (IH Ht) as [H1 H2]. split; [|exact H2].
  constructor; [exact H1|]. apply Forall_app in Hh. tauto.
Qed.

Lemma StronglySorted_concat {A : Type} (R : A -> A -> Prop) (gs : list (list A)) :
  StronglySorted R (concat gs) -> Forall (StronglySorted R) gs.
Proof.
  induction gs as [|g gs IH]; intros H; [constructor|].
  cbn [concat] in H. apply StronglySorted_app_parts in H.
  constructor; [tauto|apply IH; tauto].
Qed.

Lemma last_error_in {A : Type} (l : list A) (a : A) :
  last_error l = Some a -> In a l.
Proof.
  induction l as [|x t IH]; [discriminate|].
  destruct t as [|y t']; [intros [= <-]; left; reflexivity|].
  intros H. right. apply IH. exact H.
Qed.

Lemma linked_slope_span (g : list line_tuple) (a b : line_tuple) :
  Sorted close_enough g ->
  hd_error g = Some a -> last_error g = Some b ->
  item0 b - item0 a <= (3 # 10) * inject_Z (Z.of_nat (length g - 1)).
Proof.
  revert a. induction g as [|x t IH]; intros a Hs Hh Hl; [discriminate|].
  injection Hh as ->.
  destruct t as [|y t'].
  - injection Hl as <-. cbn [length Nat.sub].
    change (inject_Z (Z.of_nat 0)) with 0. lra.
  - inversion Hs as [|? ? Ht Hrel]; subst.
    inversion Hrel as [|? ? [Hclose _]]; subst.
    specialize (IH y Ht eq_refl Hl).
    apply round64_below_03, Qabs_Qle_condition in Hclose.
    cbn [length Nat.sub] in IH |- *. rewrite Nat.sub_0_r in IH.
    rewrite Nat2Z.inj_succ, <- Z.add_1_r, inject_Z_plus.
    change (inject_Z 1) with 1. lra.
Qed.

(** X7: within a returned group the slopes ascend, and the slope of the
    last member exceeds the slope of the first by at most 0.3 for each
    further member: a group of k members spans at most 0.3*(k-1). *)
Theorem group_slope_span (lines : list line_tuple) (out : groups)
  (g : list line_tuple) (a b : line_tuple) :
  group_lines lines = Some out -> In g out ->
  hd_error g = Some a -> last_error g = Some b ->
  StronglySorted slope_le g
  /\ 0 <= item0 b - item0 a
  /\ item0 b - item0 a <= (3 # 10) * inject_Z (Z.of_nat (length g - 1)).
Proof.
  intros Hout Hg Ha Hb.
  rewrite group_lines_chain in Hout. injection Hout as <-.
  assert (Hasc : StronglySorted slope_le g).
  { assert (H : Forall (StronglySorted slope_le) (chain_groups (sorted lines))).
    { apply StronglySorted_concat. rewrite chain_groups_concat.
      apply sorted_ascending. }
    rewrite Forall_forall in H. apply H, Hg. }
  assert (Hlink : Sorted close_enough g).
  { destruct (groups_are_maximal_runs_aux lines) as [H _].
    rewrite Forall_forall in H. apply H, Hg. }
  split; [exact Hasc|]. split; [|apply linked_slope_span; assumption].
  destruct g as [|x t]; [discriminate|]. injection Ha as ->.
  apply last_error_in in Hb. destruct Hb as [<-|Hb]; [lra|].
  inversion Hasc as [|? ? _ Hall]; subst.
  rewrite Forall_forall in Hall. specialize (Hall b Hb).
  unfold slope_le in Hall. lra.
Qed.

Lemma group_slope_span_witness :
  let a := tuple_of (Segment 0 0 4 4) in
  let b := tuple_of (Segment 28 37 36 47) in
  group_lines [b; a] = Some [[a; b]] /\ In [a; b] [[a; b]]
  /\ hd_error [a; b] = Some a /\ last_error [a; b] = Some b
  /\ StronglySorted slope_le [a; b]
  /\ 0 <= item0 b - item0 a
  /\ item0 b - item0 a <= (3 # 10) * inject_Z (Z.of_nat (length [a; b] - 1)).
Proof.
  intros a b.
  assert (H1 : group_lines [b; a] = Some [[a; b]]) by reflexivity.
  assert (H2 : In [a; b] [[a; b]]) by (left; reflexivity).
  assert (H3 : hd_error [a; b] = Some a) by reflexivity.
  assert (H4 : last_error [a; b] = Some b) by reflexivity.
  repeat (split; [assumption|]).
  exact (group_slope_span [b; a] [[a; b]] [a; b] a b H1 H2 H3 H4).
Defined.

Lemma ascending_perm_unique (l1 l2 : list line_tuple) :
  StronglySorted slope_le l1 -> StronglySorted slope_le l2 ->
  Permutation l1 l2 -> slopes_distinct l1 -> l1 = l2.
Proof.
  revert l2. induction l1 as [|a t IH]; intros l2 H1 H2 Hp Hd.
  - apply Permutation_nil in Hp. congruence.
  - destruct l2 as [|b u].
    { apply Permutation_sym, Permutation_nil in Hp. discriminate. }
    inversion H1 as [|? ? Ht Ha]; subst.
    inversion H2 as [|? ? Hu Hb]; subst.
    rewrite Forall_forall in Ha, Hb.
    assert (Hab : a = b).
    { assert (Hbin : In b (a :: t)).
      { apply (Permutation_in _ (Permutation_sym Hp)). left. reflexivity. }
      assert (Hain : In a (b :: u)).
      { apply (Permutation_in _ Hp). left. reflexivity. }
      destruct Hbin as [E|Hbin]; [exact E|].
      destruct Hain as [E|Hain]; [symmetry; exact E|].
      specialize (Ha b Hbin). specialize (Hb a Hain). unfold slope_le in *.
      apply Hd; [left; reflexivity|right; exact Hbin|lra]. }
    subst b. f_equal.
    apply IH; [exact Ht|exact Hu|eapply Permutation_cons_inv, Hp|].
    intros x y Hx Hy. apply Hd; right; assumption.
Qed.

Lemma sorted_order_free (l l' : list line_tuple) :
  Permutation l l' -> slopes_distinct l -> sorted l = sorted l'.
Proof.
  intros Hp Hd. apply ascending_perm_unique.
  - apply sorted_ascending.
  - apply sorted_ascending.
  - rewrite <- (sorted_perm l), <- (sorted_perm l'). exact Hp.
  - intros a b Ha Hb. apply Hd; eapply Permutation_in;
      try (apply Permutation_sym, sorted_perm); assumption.
Qed.

(** X8: when no two different items have the same slope, the groups do
    not depend on the order in which the items come in.  With equal slopes
    they can: the sort is stable, so the input order of such items shows in
    the groups. *)
Theorem group_lines_order_free :
  (forall lines lines' : list line_tuple,
      Permutation lines lines' -> slopes_distinct lines ->
      group_lines lines = group_lines lines')
  /\ (let a := tuple_of (Segment 0 0 4 4) in
      let b := tuple_of (Segment 10 10 14 14) in
      Permutation [a; b] [b; a]
      /\ group_lines [a; b] = Some [[a; b]]
      /\ group_lines [b; a] = Some [[b; a]]).
Proof.
  split.
  - intros lines lines' Hp Hd.
    rewrite !group_lines_chain, (sorted_order_free lines lines' Hp Hd).
    reflexivity.
  - cbv zeta. split; [apply perm_swap|]. split; reflexivity.
Qed.

Lemma group_lines_order_free_witness :
  let a := tuple_of (Segment 0 0 4 4) in
  let b := tuple_of (Segment 28 37 36 47) in
  Permutation [a; b] [b; a] /\ slopes_distinct [a; b]
  /\ group_lines [a; b] = group_lines [b; a].
Proof.
  intros a b.
  assert (Hp : Permutation [a; b] [b; a]) by apply perm_swap.
  assert (Hd : slopes_distinct [a; b]).
  { intros x y [<-|[<-|[]]] [<-|[<-|[]]] H; try reflexivity; discriminate H. }
  split; [exact Hp|]. split; [exact Hd|].
  exact (proj1 group_lines_order_free [a; b] [b; a] Hp Hd).
Defined.

(** ** The estimator, by cases *)

Lemma best_from_in {A K : Type} (key : A -> K) (better : K -> K -> bool)
  (l : list A) (b : A) :
  best_from key better b l = b \/ In (best_from key better b l) l.
Proof.
  revert b. induction l as [|a t IH]; intros b; [left; reflexivity|].
  cbn [best_from]. destruct (better (key a) (key b)).
  - destruct (IH a) as [H|H]; right; [left; symmetry; exact H|right; exact H].
  - destruct (IH b) as [H|H]; [left; exact H|right; right; exact H].
Qed.

Lemma best_by_in {A K : Type} (key : A -> K) (better : K -> K -> bool)
  (l : list A) (m : A) :
  best_by key better l = Some m -> In m l.
Proof.
  destruct l as [|a t]; [discriminate|]. intros [= <-].
  destruct (best_from_in key better t a) as [H|H];
    [left; symmetry; exact H|right; exact H].
Qed.

Lemma representatives_in (gs : groups) (r : line_tuple) :
  In r (representatives gs) -> In r (concat gs).
Proof.
  induction gs as [|g gs IH]; [intros []|].
  unfold representatives. cbn [flat_map concat]. fold (representatives gs).
  intros H. apply in_app_or in H. apply in_or_app.
  destruct H as [H|H]; [left|right; apply IH, H].
  destruct (best_by item1 root_gtb g) as [m|] eqn:E; [|destruct H].
  destruct H as [<-|[]]. eapply best_by_in, E.
Qed.

Lemma representative_kept (lines : list segment) (r : line_tuple) :
  In r (representatives (chain_groups (sorted (positive_tuples lines))
                         ++ chain_groups (sorted (negative_tuples lines)))) ->
  exists s, In s lines /\ (is_positive s = true \/ is_negative s = true)
            /\ r = tuple_of s.
Proof.
  intros H. apply representatives_in in H.
  rewrite concat_app, !chain_groups_concat in H.
  apply in_app_or in H.
  destruct H as [H|H];
    apply (Permutation_in _ (Permutation_sym (sorted_perm _))) in H;
    apply in_map_iff in H; destruct H as (s & <- & Hs);
    apply filter_In in Hs; exists s; tauto.
Qed.

Lemma endpoint_kept (lines : list segment) (p : Z * Z) :
  In p (flat_map endpoints
          (representatives (chain_groups (sorted (positive_tuples lines))
                            ++ chain_groups (sorted (negative_tuples lines))))) ->
  kept_endpoint lines p.
Proof.
  intros H. apply in_flat_map in H. destruct H as (r & Hr & Hp).
  destruct (representative_kept lines r Hr) as (s & Hs & Hk & ->).
  exists s. split; [exact Hs|]. split; [exact Hk|].
  cbn in Hp. destruct Hp as [<-|[<-|[]]]; [left|right]; reflexivity.
Qed.

Lemma extremes_exist (xs : list Z) :
  xs <> [] -> exists hi lo, greatest hi xs /\ least lo xs.
Proof.
  intros H.
  destruct (best_by_some (fun x : Z => x) Z.gtb xs H) as [hi Hhi].
  destruct (best_by_some (fun x : Z => x) Z.ltb xs H) as [lo Hlo].
  exists hi, lo. split; [apply py_max_greatest, Hhi|apply py_min_least, Hlo].
Qed.

Lemma segment_xs_nonempty (l : list segment) : l <> [] -> segment_xs l <> [].
Proof. destruct l; [congruence|discriminate]. Qed.

(** The four ways a call on a present segment array ends. *)
Lemma detect_cases (lines : list segment) (image : Image) :
  (filter is_positive lines = [] /\ filter is_negative lines = []
   /\ detect_lane_center (Some lines) image = Some ((None, None), image))
  \/ (filter is_positive lines = [] /\ filter is_negative lines <> []
      /\ exists hi lo,
           greatest hi (segment_xs (filter is_negative lines))
           /\ least lo (segment_xs (filter is_negative lines))
           /\ detect_lane_center (Some lines) image
              = Some (one_sided_outcome (segment_xs (filter is_negative lines))
                                        hi lo (- (1)) image, image))
  \/ (filter is_negative lines = [] /\ filter is_positive lines <> []
      /\ exists hi lo,
           greatest hi (segment_xs (filter is_positive lines))
           /\ least lo (segment_xs (filter is_positive lines))
           /\ detect_lane_center (Some lines) image
              = Some (one_sided_outcome (segment_xs (filter is_positive lines))
                                        hi lo 1 image, image))
  \/ (filter is_positive lines <> [] /\ filter is_negative lines <> []
      /\ exists p q image',
           kept_endpoint lines p /\ kept_endpoint lines q
           /\ detect_lane_center (Some lines) image
              = Some (midpoint_of p q, image')).
Proof.
  destruct (filter is_positive lines) as [|sp tp] eqn:Ep;
    destruct (filter is_negative lines) as [|sn tn] eqn:En.
  - left. repeat split. apply detect_no_side; assumption.
  - right; left. split; [reflexivity|]. split; [discriminate|].
    destruct (extremes_exist (segment_xs (sn :: tn))) as (hi & lo & Hhi & Hlo);
      [discriminate|].
    exists hi, lo. split; [exact Hhi|]. split; [exact Hlo|].
    rewrite <- En in *. apply detect_negative_only; try assumption.
    rewrite En. discriminate.
  - right; right; left. split; [reflexivity|]. split; [discriminate|].
    destruct (extremes_exist (segment_xs (sp :: tp))) as (hi & lo & Hhi & Hlo);
      [discriminate|].
    exists hi, lo. split; [exact Hhi|]. split; [exact Hlo|].
    rewrite <- Ep in *. apply detect_positive_only; try assumption.
    rewrite Ep. discriminate.
  - right; right; right. split; [discriminate|]. split; [discriminate|].
    destruct (detect_both_sides lines image) as (_ & p & q & Hp & Hq & Hd).
    { rewrite Ep. discriminate. }
    { rewrite En. discriminate. }
    exists p, q. eexists. split; [|split; [|exact Hd]].
    + eapply endpoint_kept, first_best_in, Hp.
    + eapply endpoint_kept, first_best_in, Hq.
Qed.

Lemma half_sum_between (lo hi a b : Z) :
  (lo <= a <= hi)%Z -> (lo <= b <= hi)%Z ->
  inject_Z lo <= inject_Z (a + b) / 2 <= inject_Z hi.
Proof.
  intros [Ha1 Ha2] [Hb1 Hb2].
  rewrite inject_Z_plus.
  rewrite Zle_Qle in Ha1, Ha2, Hb1, Hb2.
  set (t := (inject_Z a + inject_Z b) / 2).
  assert (Ht : t * 2 == inject_Z a + inject_Z b) by (unfold t; field).
  split; lra.
Qed.

Lemma segment_xs_in (l : list segment) (x : Z) :
  In x (segment_xs l) -> exists s, In s l /\ (x = x1 s \/ x = x2 s).
Proof.
  unfold segment_xs. intros H. apply in_flat_map in H.
  destruct H as (s & Hs & Hx). exists s. split; [exact Hs|].
  destruct Hx as [<-|[<-|[]]]; [left|right]; reflexivity.
Qed.

(** X9: when every segment lies in the box [xl,xh] x [yl,yh], a call
    answers with the absent pair, with one of the two sentinels, or with a
    point whose x lies in [xl,xh] and whose y lies in [yl,yh] or is half the
    image height. *)
Theorem center_within_segments (lines : list segment) (image : Image)
  (xl xh yl yh : Z) :
  (forall s, In s lines ->
             (xl <= x1 s <= xh)%Z /\ (xl <= x2 s <= xh)%Z
             /\ (yl <= y1 s <= yh)%Z /\ (yl <= y2 s <= yh)%Z) ->
  returns (detect_lane_center (Some lines) image)
    (fun out =>
       fst out = (None, None)
       \/ fst out = (Some (- (1)), Some (- (1)))
       \/ fst out = (Some 1, Some 1)
       \/ exists cx cy,
            fst out = (Some cx, Some cy)
            /\ inject_Z xl <= cx <= inject_Z xh
            /\ (inject_Z yl <= cy <= inject_Z yh
                \/ cy == inject_Z (shape0 image) / 2)).
Proof.
  intros Hbox.
  assert (Hxs : forall l x, (forall s, In s l -> In s lines) ->
                            In x (segment_xs l) -> (xl <= x <= xh)%Z).
  { intros l x Hl Hx. apply segment_xs_in in Hx.
    destruct Hx as (s & Hs & [->| ->]); apply Hbox, Hl, Hs. }
  assert (Hone : forall l hi lo sentinel,
             (forall s, In s l -> In s lines) ->
             greatest hi (segment_xs l) -> least lo (segment_xs l) ->
             fst (one_sided_outcome (segment_xs l) hi lo sentinel image, image)
             = (Some sentinel, Some sentinel)
             \/ exists cx cy,
                  fst (one_sided_outcome (segment_xs l) hi lo sentinel image, image)
                  = (Some cx, Some cy)
                  /\ inject_Z xl <= cx <= inject_Z xh
                  /\ (inject_Z yl <= cy <= inject_Z yh
                      \/ cy == inject_Z (shape0 image) / 2)).
  { intros l hi lo sentinel Hl [Hhi _] [Hlo _]. unfold one_sided_outcome.
    destruct (_ && _); [right|left; reflexivity].
    eexists _, _. split; [reflexivity|].
    split; [|right; reflexivity].
    apply half_sum_between; eapply Hxs; eassumption. }
  destruct (detect_cases lines image)
    as [(_ & _ & Hd)
       |[(_ & _ & hi & lo & Hhi & Hlo & Hd)
        |[(_ & _ & hi & lo & Hhi & Hlo & Hd)
         |(_ & _ & p & q & image' & Hp & Hq & Hd)]]];
    eexists; (split; [exact Hd|]).
  - left. reflexivity.
  - destruct (Hone (filter is_negative lines) hi lo (- (1))) as [H|H];
      try assumption; [intros s Hs; apply filter_In in Hs; tauto| |];
      [right; left; exact H|right; right; right; exact H].
  - destruct (Hone (filter is_positive lines) hi lo 1) as [H|H];
      try assumption; [intros s Hs; apply filter_In in Hs; tauto| |];
      [right; right; left; exact H|right; right; right; exact H].
  - right; right; right. eexists _, _. split; [reflexivity|].
    destruct Hp as (s & Hs & _ & Hp), Hq as (s' & Hs' & _ & Hq).
    pose proof (Hbox s Hs) as (? & ? & ? & ?).
    pose proof (Hbox s' Hs') as (? & ? & ? & ?).
    split; [|left];
      apply half_sum_between;
      destruct Hp as [-> | ->]; destruct Hq as [-> | ->]; cbn [fst snd];
      assumption.
Qed.

Lemma center_within_segments_witness :
  let lines := [Segment 400 500 300 100; Segment 0 100 100 50] in
  let image := MkImage 600 [] in
  (forall s, In s lines ->
             (0 <= x1 s <= 640)%Z /\ (0 <= x2 s <= 640)%Z
             /\ (0 <= y1 s <= 600)%Z /\ (0 <= y2 s <= 600)%Z)
  /\ returns (detect_lane_center (Some lines) image)
       (fun out =>
          fst out = (None, None)
          \/ fst out = (Some (- (1)), Some (- (1)))
          \/ fst out = (Some 1, Some 1)
          \/ exists cx cy,
               fst out = (Some cx, Some cy)
               /\ inject_Z 0 <= cx <= inject_Z 640
               /\ (inject_Z 0 <= cy <= inject_Z 600
                   \/ cy == inject_Z (shape0 image) / 2)).
Proof.
  intros lines image.
  assert (H : forall s, In s lines ->
                        (0 <= x1 s <= 640)%Z /\ (0 <= x2 s <= 640)%Z
                        /\ (0 <= y1 s <= 600)%Z /\ (0 <= y2 s <= 600)%Z).
  { intros s [<-|[<-|[]]]; cbn; lia. }
  split; [exact H|].
  exact (center_within_segments lines image 0 640 0 600 H).
Defined.

Lemma one_sided_outcome_cases (l : list segment) (hi lo : Z) (sentinel : Q)
  (image : Image) :
  l <> [] -> greatest hi (segment_xs l) -> least lo (segment_xs l) ->
  (narrow (segment_xs l)
   /\ one_sided_outcome (segment_xs l) hi lo sentinel image
      = (Some sentinel, Some sentinel))
  \/ (~ narrow (segment_xs l)
      /\ one_sided_outcome (segment_xs l) hi lo sentinel image
         = (Some (inject_Z (hi + lo) / 2), Some (inject_Z (shape0 image) / 2))).
Proof.
  intros Hne Hhi Hlo. unfold one_sided_outcome.
  assert (Hlen : (2 <=? length (segment_xs l))%nat = true).
  { apply Nat.leb_le. destruct l; [congruence|simpl; lia]. }
  rewrite Hlen. cbn [andb].
  destruct (400 <? hi - lo)%Z eqn:E.
  - right. split; [|reflexivity].
    intros (hi' & lo' & Hhi' & Hlo' & Hd). apply Z.ltb_lt in E.
    rewrite (greatest_perm _ _ _ _ (Permutation_refl _) Hhi' Hhi) in Hd.
    rewrite (least_perm _ _ _ _ (Permutation_refl _) Hlo' Hlo) in Hd. lia.
  - left. split; [|reflexivity]. apply Z.ltb_ge in E.
    exists hi, lo. repeat split; try apply Hhi; try apply Hlo; exact E.
Qed.

Lemma half_sum_nonneg (a b : Z) :
  (0 <= a)%Z -> (0 <= b)%Z -> 0 <= inject_Z (a + b) / 2.
Proof.
  intros Ha Hb.
  destruct (half_sum_between 0 (Z.max a b) a b) as [H _]; [lia|lia|exact H].
Qed.

(** X10: with no negative x-coordinate in the segments, a negative x in the
    answer means exactly one thing: only the negative side has segments and
    their x-coordinates span at most 400.  The pair (1, 1) carries no such
    information: a frame with segments on both sides can have (1, 1) as its
    true centre. *)
Theorem negative_sentinel_unambiguous :
  (forall (lines : list segment) (image : Image),
      (forall s, In s lines -> (0 <= x1 s)%Z /\ (0 <= x2 s)%Z) ->
      returns (detect_lane_center (Some lines) image)
        (fun out =>
           forall cx cy,
             fst out = (Some cx, Some cy) ->
             (cx < 0 <->
              filter is_positive lines = []
              /\ filter is_negative lines <> []
              /\ narrow (segment_xs (filter is_negative lines)))))
  /\ (let lines := [Segment 0 0 2 2; Segment 0 2 2 0] in
      filter is_positive lines <> [] /\ filter is_negative lines <> []
      /\ returns (detect_lane_center (Some lines) (MkImage 600 []))
           (fun out => exists cx cy,
                fst out = (Some cx, Some cy) /\ cx == 1 /\ cy == 1)).
Proof.
  split.
  - intros lines image Hpos.
    assert (Hxs : forall l x, (forall s, In s l -> In s lines) ->
                              In x (segment_xs l) -> (0 <= x)%Z).
    { intros l x Hl Hx. apply segment_xs_in in Hx.
      destruct Hx as (s & Hs & [->| ->]); apply Hpos, Hl, Hs. }
    destruct (detect_cases lines image)
      as [(_ & _ & Hd)
         |[(Hp & Hn & hi & lo & Hhi & Hlo & Hd)
          |[(Hn & Hp & hi & lo & Hhi & Hlo & Hd)
           |(Hp & Hn & p & q & image' & Hkp & Hkq & Hd)]]];
      eexists; (split; [exact Hd|]); cbn [fst]; intros cx cy Hc.
    + discriminate.
    + destruct (one_sided_outcome_cases _ hi lo (- (1)) image Hn Hhi Hlo)
        as [[Hnar Ho]|[Hnar Ho]]; rewrite Ho in Hc; injection Hc as <- <-.
      * split; [intros _; repeat split; assumption|reflexivity].
      * split; [|tauto]. intros Hneg. exfalso.
        assert (H0 : 0 <= inject_Z (hi + lo) / 2).
        { apply half_sum_nonneg;
            eapply (Hxs (filter is_negative lines));
            try (intros s Hs; apply filter_In in Hs; tauto);
            [apply Hhi|apply Hlo]. }
        lra.
    + split; [|tauto]. intros Hneg. exfalso.
      destruct (one_sided_outcome_cases _ hi lo 1 image Hp Hhi Hlo)
        as [[Hnar Ho]|[Hnar Ho]]; rewrite Ho in Hc; injection Hc as <- <-.
      * discriminate Hneg.
      * assert (H0 : 0 <= inject_Z (hi + lo) / 2).
        { apply half_sum_nonneg;
            eapply (Hxs (filter is_positive lines));
            try (intros s Hs; apply filter_In in Hs; tauto);
            [apply Hhi|apply Hlo]. }
        lra.
    + split; [|tauto]. intros Hneg. exfalso.
      unfold midpoint_of in Hc. injection Hc as <- <-.
      destruct Hkp as (s & Hs & _ & Hkp), Hkq as (s' & Hs' & _ & Hkq).
      pose proof (Hpos s Hs) as [? ?]. pose proof (Hpos s' Hs') as [? ?].
      assert (Hmid : 0 <= inject_Z (fst p + fst q) / 2).
      { apply half_sum_nonneg;
          [destruct Hkp as [-> | ->]|destruct Hkq as [-> | ->]];
          cbn [fst]; assumption. }
      lra.
  - cbv zeta. split; [discriminate|]. split; [discriminate|].
    eexists. split; [vm_compute; reflexivity|].
    eexists _, _. split; [reflexivity|]. split; reflexivity.
Qed.

Lemma negative_sentinel_unambiguous_witness :
  let lines := [Segment 0 300 100 100] in
  let image := MkImage 600 [] in
  (forall s, In s lines -> (0 <= x1 s)%Z /\ (0 <= x2 s)%Z)
  /\ returns (detect_lane_center (Some lines) image)
       (fun out =>
          forall cx cy,
            fst out = (Some cx, Some cy) ->
            (cx < 0 <->
             filter is_positive lines = []
             /\ filter is_negative lines <> []
             /\ narrow (segment_xs (filter is_negative lines)))).
Proof.
  intros lines image.
  assert (H : forall s, In s lines -> (0 <= x1 s)%Z /\ (0 <= x2 s)%Z).
  { intros s [<-|[]]; cbn; lia. }
  split; [exact H|].
  exact (proj1 negative_sentinel_unambiguous lines image H).
Defined.

(** ** The loop of [main] *)

Lemma truthy_empty_iff {A : Type} (l : list A) : truthy l = false <-> l = [].
Proof. destruct l; simpl; split; congruence. Qed.

Lemma main_body_numeric (lines : option (list segment)) (image image' : Image)
  (cx cy : Q) :
  detect_lane_center lines image = Some ((Some cx, Some cy), image') ->
  main_body (lines, image)
  = Some (MkReport (Some cx, Some cy)
                   ((cx - 315 / 2) / (315 / 2) * 70)
                   (MkMarked image' [(py_int cx, py_int cy)])).
Proof.
  intros H. unfold main_body. rewrite H. cbn [bind].
  rewrite steering_angle_defined by discriminate. reflexivity.
Qed.

Lemma main_body_absent (lines : option (list segment)) (image image' : Image) :
  detect_lane_center lines image = Some ((None, None), image') ->
  main_body (lines, image) = None.
Proof. intros H. unfold main_body. rewrite H. reflexivity. Qed.

Lemma main_body_raises_iff (input : option (list segment) * Image) :
  main_body input = None <-> sloped input = false.
Proof.
  destruct input as [[l|] image]; unfold sloped; cbn [fst].
  - destruct (detect_absent_iff l image) as (out & Hd & Habs & Hnum).
    destruct out as [[c1 c2] image']. cbn [fst] in Habs, Hnum.
    rewrite orb_false_iff, !truthy_empty_iff.
    split.
    + intros Hm. apply Habs.
      destruct c1 as [cx|], c2 as [cy|];
        try (destruct Hnum as (a & b & E); [discriminate|discriminate]);
        [|reflexivity].
      rewrite (main_body_numeric _ _ _ _ _ Hd) in Hm. discriminate.
    + intros Hno. apply Habs in Hno. injection Hno as -> ->.
      eapply main_body_absent, Hd.
  - split; [reflexivity|intros _; reflexivity].
Qed.

Lemma main_loop (inputs : list (option (list segment) * Image))
  (done : list report) :
  (forallb sloped inputs = true ->
   exists reports,
     for_each (fun done input => r <- main_body input ;; Some (done ++ [r]))
              inputs done = Some (done ++ reports)
     /\ length reports = length inputs)
  /\ (forallb sloped inputs = false ->
      for_each (fun done input => r <- main_body input ;; Some (done ++ [r]))
               inputs done = None).
Proof.
  revert done. induction inputs as [|input rest IH]; intros done.
  - split; [|discriminate]. intros _. exists []. rewrite app_nil_r.
    split; reflexivity.
  - cbn [forallb for_each].
    destruct (main_body input) as [r|] eqn:Er.
    + assert (Hs : sloped input = true).
      { destruct (sloped input) eqn:E; [reflexivity|].
        apply main_body_raises_iff in E. congruence. }
      rewrite Hs. cbn [andb bind].
      destruct (IH (done ++ [r])) as [Hall Hsome]. split.
      * intros H. destruct (Hall H) as (reports & Hrun & Hlen).
        exists (r :: reports). rewrite Hrun, <- app_assoc.
        split; [reflexivity|simpl; lia].
      * exact Hsome.
    + apply main_body_raises_iff in Er. rewrite Er. cbn [andb bind].
      split; [discriminate|reflexivity].
Qed.

(** X11: [main] gets through a frame exactly when the frame has at least
    one segment that is neither vertical nor horizontal; on a frame without
    one the steering angle calculation is handed [None] and raises.  The
    loop over the image files therefore ends with one report per file when
    every frame has such a segment, and raises otherwise. *)
Theorem main_raises_without_segments
  (inputs : list (option (list segment) * Image)) :
  (forall input, main_body input = None <-> sloped input = false)
  /\ (forallb sloped inputs = true <->
      exists reports,
        main inputs = Some reports /\ length reports = length inputs)
  /\ (forallb sloped inputs = false <-> main inputs = None).
Proof.
  split; [exact main_body_raises_iff|].
  destruct (main_loop inputs []) as [Hall Hsome]. unfold main.
  split; split.
  - exact Hall.
  - intros (reports & Hrun & _).
    destruct (forallb sloped inputs); [reflexivity|].
    rewrite Hsome in Hrun by reflexivity. discriminate.
  - exact Hsome.
  - intros Hnone. destruct (forallb sloped inputs); [|reflexivity].
    destruct (Hall eq_refl) as (reports & Hrun & _). congruence.
Qed.

(** X12: the sentinels are steered on.  For a frame with segments on the
    negative side only, spanning at most 400 in x, [main] reports the angle
    -634/9 (below -70) and marks the pixel (-1, -1); for such a frame on the
    positive side it reports -626/9 and marks (1, 1): whatever the segments
    are. *)
Theorem main_steers_on_sentinels (lines : list segment) (image : Image) :
  (filter is_positive lines = [] -> filter is_negative lines <> [] ->
   narrow (segment_xs (filter is_negative lines)) ->
   returns (main_body (Some lines, image))
     (fun r => report_center r = (Some (- (1)), Some (- (1)))
               /\ report_angle r == - (634 # 9)
               /\ report_angle r < - (70)
               /\ report_image r = MkMarked image [(-1, -1)%Z]))
  /\ (filter is_negative lines = [] -> filter is_positive lines <> [] ->
      narrow (segment_xs (filter is_positive lines)) ->
      returns (main_body (Some lines, image))
        (fun r => report_center r = (Some 1, Some 1)
                  /\ report_angle r == - (626 # 9)
                  /\ report_image r = MkMarked image [(1, 1)%Z])).
Proof.
  split; intros Hempty Hne Hnar.
  - destruct (extremes_exist _ (segment_xs_nonempty _ Hne)) as (hi & lo & Hhi & Hlo).
    pose proof (detect_negative_only lines image hi lo Hempty Hne Hhi Hlo) as Hd.
    destruct (one_sided_outcome_cases _ hi lo (- (1)) image Hne Hhi Hlo)
      as [[_ Ho]|[Hwide _]]; [|contradiction].
    rewrite Ho in Hd. eexists. split; [apply (main_body_numeric _ _ _ _ _ Hd)|].
    cbn [report_center report_angle report_image].
    split; [reflexivity|]. split; [reflexivity|]. split; reflexivity.
  - destruct (extremes_exist _ (segment_xs_nonempty _ Hne)) as (hi & lo & Hhi & Hlo).
    pose proof (detect_positive_only lines image hi lo Hempty Hne Hhi Hlo) as Hd.
    destruct (one_sided_outcome_cases _ hi lo 1 image Hne Hhi Hlo)
      as [[_ Ho]|[Hwide _]]; [|contradiction].
    rewrite Ho in Hd. eexists. split; [apply (main_body_numeric _ _ _ _ _ Hd)|].
    cbn [report_center report_angle report_image].
    split; [reflexivity|]. split; reflexivity.
Qed.

Lemma main_steers_on_sentinels_witness :
  let lines := [Segment 0 300 100 100] in
  let image := MkImage 600 [] in
  filter is_positive lines = [] /\ filter is_negative lines <> []
  /\ narrow (segment_xs (filter is_negative lines))
  /\ returns (main_body (Some lines, image))
       (fun r => report_center r = (Some (- (1)), Some (- (1)))
                 /\ report_angle r == - (634 # 9)
                 /\ report_angle r < - (70)
                 /\ report_image r = MkMarked image [(-1, -1)%Z]).
Proof.
  intros lines image.
  assert (Hp : filter is_positive lines = []) by reflexivity.
  assert (Hn : filter is_negative lines <> []) by discriminate.
  assert (Hnar : narrow (segment_xs (filter is_negative lines))).
  { exists 100%Z, 0%Z. repeat split; cbn; try tauto; try lia;
      intros x [<-|[<-|[]]]; lia. }
  repeat (split; [assumption|]).
  exact (proj1 (main_steers_on_sentinels lines image) Hp Hn Hnar).
Defined.

Lemma steering_in_frame (x : Q) :
  0 <= x <= 315 -> - (70) <= (x - 315 / 2) / (315 / 2) * 70 <= 70.
Proof.
  intros [H0 H1].
  setoid_replace ((x - 315 / 2) / (315 / 2) * 70) with ((4 # 9) * x - 70)
    by field.
  split; lra.
Qed.

(** X13: [main] takes the image width to be 315.  When every segment has
    its x-coordinates in [0, 315], the angle it reports lies in [-70, 70],
    unless the centre is the sentinel (-1, -1). *)
Theorem main_angle_in_range (lines : list segment) (image : Image) (r : report) :
  (forall s, In s lines -> (0 <= x1 s <= 315)%Z /\ (0 <= x2 s <= 315)%Z) ->
  main_body (Some lines, image) = Some r ->
  report_center r = (Some (- (1)), Some (- (1)))
  \/ - (70) <= report_angle r <= 70.
Proof.
  intros Hbox Hr.
  assert (Hxs : forall l x, (forall s, In s l -> In s lines) ->
                            In x (segment_xs l) -> (0 <= x <= 315)%Z).
  { intros l x Hl Hx. apply segment_xs_in in Hx.
    destruct Hx as (s & Hs & [->| ->]); apply Hbox, Hl, Hs. }
  assert (Hmid : forall a b, (0 <= a <= 315)%Z -> (0 <= b <= 315)%Z ->
                             0 <= inject_Z (a + b) / 2 <= 315).
  { intros a b Ha Hb. exact (half_sum_between 0 315 a b Ha Hb). }
  destruct (detect_cases lines image)
    as [(_ & _ & Hd)
       |[(Hp & Hn & hi & lo & Hhi & Hlo & Hd)
        |[(Hn & Hp & hi & lo & Hhi & Hlo & Hd)
         |(Hp & Hn & p & q & image' & Hkp & Hkq & Hd)]]].
  - rewrite (main_body_absent _ _ _ Hd) in Hr. discriminate.
  - destruct (one_sided_outcome_cases _ hi lo (- (1)) image Hn Hhi Hlo)
      as [[_ Ho]|[_ Ho]]; rewrite Ho in Hd;
      rewrite (main_body_numeric _ _ _ _ _ Hd) in Hr; injection Hr as <-;
      cbn [report_center report_angle]; [left; reflexivity|right].
    apply steering_in_frame, Hmid;
      eapply (Hxs (filter is_negative lines));
      try (intros s Hs; apply filter_In in Hs; tauto);
      [apply Hhi|apply Hlo].
  - right.
    destruct (one_sided_outcome_cases _ hi lo 1 image Hp Hhi Hlo)
      as [[_ Ho]|[_ Ho]]; rewrite Ho in Hd;
      rewrite (main_body_numeric _ _ _ _ _ Hd) in Hr; injection Hr as <-;
      cbn [report_angle].
    + apply steering_in_frame. split; discriminate.
    + apply steering_in_frame, Hmid;
        eapply (Hxs (filter is_positive lines));
        try (intros s Hs; apply filter_In in Hs; tauto);
        [apply Hhi|apply Hlo].
  - right. unfold midpoint_of in Hd.
    rewrite (main_body_numeric _ _ _ _ _ Hd) in Hr. injection Hr as <-.
    cbn [report_angle]. apply steering_in_frame, Hmid.
    + destruct Hkp as (s & Hs & _ & [-> | ->]); cbn [fst]; apply Hbox, Hs.
    + destruct Hkq as (s & Hs & _ & [-> | ->]); cbn [fst]; apply Hbox, Hs.
Qed.

Lemma main_angle_in_range_witness :
  let lines := [Segment 300 200 200 100; Segment 0 100 100 50] in
  let image := MkImage 600 [] in
  exists r,
    (forall s, In s lines -> (0 <= x1 s <= 315)%Z /\ (0 <= x2 s <= 315)%Z)
    /\ main_body (Some lines, image) = Some r
    /\ (report_center r = (Some (- (1)), Some (- (1)))
        \/ - (70) <= report_angle r <= 70).
Proof.
  intros lines image.
  assert (H : forall s, In s lines ->
                        (0 <= x1 s <= 315)%Z /\ (0 <= x2 s <= 315)%Z).
  { intros s [<-|[<-|[]]]; cbn; lia. }
  eexists. split; [exact H|].
  assert (Hr : main_body (Some lines, image) = Some _) by (vm_compute; reflexivity).
  split; [exact Hr|].
  exact (main_angle_in_range lines image _ H Hr).
Defined.

(** ** What is drawn, and when the one-sided estimate is made *)

Lemma groups_count (gs : groups) :
  Forall (fun g => g <> []) gs -> (length gs <= length (concat gs))%nat.
Proof.
  induction 1 as [|g gs Hg _ IH]; [simpl; lia|].
  cbn [concat length]. rewrite length_app.
  destruct g; [congruence|simpl; lia].
Qed.

Lemma chain_groups_count (l : list line_tuple) :
  (length (chain_groups l) <= length l)%nat.
Proof.
  rewrite <- (chain_groups_concat l) at 2.
  apply groups_count, chain_groups_nonempty.
Qed.

Lemma representatives_count (gs : groups) :
  (length (representatives gs) <= length gs)%nat.
Proof.
  induction gs as [|g gs IH]; [simpl; lia|].
  unfold representatives. cbn [flat_map]. fold (representatives gs).
  rewrite length_app. destruct (best_by item1 root_gtb g); simpl; lia.
Qed.

Lemma filter_two_count {A : Type} (f g : A -> bool) (l : list A) :
  (forall a, f a = true -> g a = true -> False) ->
  (length (filter f l) + length (filter g l) <= length l)%nat.
Proof.
  intros Hfg. induction l as [|a t IH]; [simpl; lia|].
  cbn [filter]. destruct (f a) eqn:Ef, (g a) eqn:Eg; cbn [length]; try lia.
  exfalso. eapply Hfg; eassumption.
Qed.

(** X15: a call draws one stroke for each group and nothing else.  When
    the classifier and the grouper give groups on both sides, the strokes
    added to the frame are, in the order of the groups (positive side
    first), one member of each group: the one [max] picks by the stored
    length; otherwise nothing is drawn.  Every stroke is a segment of
    [lines] that the classifier keeps, there are never more strokes than
    segments, and the image height is not touched. *)
Theorem overlay_is_input_segments (lines : list segment) (image : Image) :
  exists positive_slopes negative_slopes positive_groups negative_groups,
    classify lines = Some (positive_slopes, negative_slopes)
    /\ group_lines positive_slopes = Some positive_groups
    /\ group_lines negative_slopes = Some negative_groups
    /\ returns (detect_lane_center (Some lines) image)
         (fun out =>
            shape0 (snd out) = shape0 image
            /\ exists drawn,
                 strokes (snd out) = strokes image ++ drawn
                 /\ (positive_groups <> [] -> negative_groups <> [] ->
                     exists reps,
                       drawn = map stroke_of reps
                       /\ Forall2 (fun g r =>
                                    In r g
                                    /\ best_by item1 root_gtb g = Some r)
                                  (positive_groups ++ negative_groups) reps)
                 /\ (positive_groups = [] \/ negative_groups = [] ->
                     drawn = [])
                 /\ (length drawn <= length lines)%nat
                 /\ forall st, In st drawn ->
                      exists s, In s lines
                                /\ (is_positive s = true \/ is_negative s = true)
                                /\ st = ((x1 s, y1 s), (x2 s, y2 s))).
Proof.
  eexists _, _, _, _. split; [apply classify_spec|].
  split; [apply group_lines_chain|]. split; [apply group_lines_chain|].
  fold (positive_tuples lines) (negative_tuples lines).
  destruct (detect_total (Some lines) image) as (out & Hout).
  exists out. split; [exact Hout|].
  assert (Hnil : forall f, chain_groups (sorted (map tuple_of (filter f lines))) = []
                           <-> filter f lines = []).
  { intros f. rewrite chain_groups_nil, sorted_nil. apply map_eq_nil_iff. }
  destruct (detect_frame lines image out Hout) as [Hone Hboth].
  destruct (filter is_positive lines) as [|sp tp] eqn:Ep.
  { rewrite (Hone (or_introl eq_refl)). split; [reflexivity|].
    exists []. rewrite app_nil_r. split; [reflexivity|].
    split; [|split; [reflexivity|split; [simpl; lia|intros st []]]].
    intros Hpg. exfalso. apply Hpg. apply (Hnil is_positive), Ep. }
  destruct (filter is_negative lines) as [|sn tn] eqn:En.
  { rewrite (Hone (or_intror eq_refl)). split; [reflexivity|].
    exists []. rewrite app_nil_r. split; [reflexivity|].
    split; [|split; [reflexivity|split; [simpl; lia|intros st []]]].
    intros _ Hng. exfalso. apply Hng. apply (Hnil is_negative), En. }
  destruct Hboth as (Hd & _ & _); [discriminate|discriminate|].
  rewrite Hd.
  set (reps := representatives
                 (chain_groups (sorted (positive_tuples lines))
                  ++ chain_groups (sorted (negative_tuples lines)))).
  destruct (draw_all_strokes image reps) as [H0 Hs].
  split; [exact H0|]. exists (map stroke_of reps).
  split; [exact Hs|]. split; [|split; [|split]].
  - intros _ _. exists reps. split; [reflexivity|].
    refine (Forall2_impl_in _ _ _ _ _ (representatives_spec _ _)).
    + intros g r _ Hr. split; [eapply best_by_in, Hr|exact Hr].
    + apply Forall_app. split; apply chain_groups_nonempty.
  - intros [H|H].
    + apply (Hnil is_positive) in H. rewrite Ep in H. discriminate.
    + apply (Hnil is_negative) in H. rewrite En in H. discriminate.
  - rewrite length_map. unfold reps.
    eapply Nat.le_trans; [apply representatives_count|].
    rewrite length_app.
    pose proof (chain_groups_count (sorted (positive_tuples lines))) as Lp.
    pose proof (chain_groups_count (sorted (negative_tuples lines))) as Ln.
    rewrite sorted_length in Lp, Ln.
    assert (Ep' : length (positive_tuples lines)
                  = length (filter is_positive lines))
      by apply length_map.
    assert (En' : length (negative_tuples lines)
                  = length (filter is_negative lines))
      by apply length_map.
    pose proof (filter_two_count is_positive is_negative lines) as Hf.
    assert (Hdisj : forall a, is_positive a = true -> is_negative a = true -> False).
    { intros a Ha Hb. apply is_positive_iff in Ha. apply is_negative_iff in Hb.
      lra. }
    specialize (Hf Hdisj). lia.
  - intros st Hst. apply in_map_iff in Hst. destruct Hst as (r & <- & Hr).
    destruct (representative_kept lines r Hr) as (s & Hs' & Hk & ->).
    exists s. split; [exact Hs'|]. split; [exact Hk|]. reflexivity.
Qed.

(** X16: the one-sided estimate needs room.  When all x-coordinates of the
    segments lie in an interval no wider than 400, a frame with segments on
    one side only is always answered with that side's sentinel. *)
Theorem one_sided_needs_wide_frame (lines : list segment) (image : Image)
  (xl xh : Z) :
  (forall s, In s lines -> (xl <= x1 s <= xh)%Z /\ (xl <= x2 s <= xh)%Z) ->
  (xh - xl <= 400)%Z ->
  (filter is_positive lines = [] -> filter is_negative lines <> [] ->
   detect_lane_center (Some lines) image
   = Some ((Some (- (1)), Some (- (1))), image))
  /\ (filter is_negative lines = [] -> filter is_positive lines <> [] ->
      detect_lane_center (Some lines) image = Some ((Some 1, Some 1), image)).
Proof.
  intros Hbox Hwidth.
  assert (Hnar : forall l, (forall s, In s l -> In s lines) -> l <> [] ->
                           forall hi lo, greatest hi (segment_xs l) ->
                                         least lo (segment_xs l) ->
                                         narrow (segment_xs l)).
  { intros l Hl Hne hi lo Hhi Hlo. exists hi, lo.
    split; [exact Hhi|]. split; [exact Hlo|].
    destruct Hhi as [Hhi _], Hlo as [Hlo _].
    apply segment_xs_in in Hhi, Hlo.
    destruct Hhi as (s & Hs & Hx), Hlo as (s' & Hs' & Hx').
    pose proof (Hbox s (Hl s Hs)). pose proof (Hbox s' (Hl s' Hs')).
    destruct Hx as [-> | ->], Hx' as [-> | ->]; lia. }
  split; intros Hempty Hne.
  - destruct (extremes_exist _ (segment_xs_nonempty _ Hne)) as (hi & lo & Hhi & Hlo).
    rewrite (detect_negative_only lines image hi lo Hempty Hne Hhi Hlo).
    destruct (one_sided_outcome_cases _ hi lo (- (1)) image Hne Hhi Hlo)
      as [[_ Ho]|[Hwide _]]; [rewrite Ho; reflexivity|].
    exfalso. apply Hwide. eapply Hnar; try eassumption.
    intros s Hs. apply filter_In in Hs. tauto.
  - destruct (extremes_exist _ (segment_xs_nonempty _ Hne)) as (hi & lo & Hhi & Hlo).
    rewrite (detect_positive_only lines image hi lo Hempty Hne Hhi Hlo).
    destruct (one_sided_outcome_cases _ hi lo 1 image Hne Hhi Hlo)
      as [[_ Ho]|[Hwide _]]; [rewrite Ho; reflexivity|].
    exfalso. apply Hwide. eapply Hnar; try eassumption.
    intros s Hs. apply filter_In in Hs. tauto.
Qed.

Lemma one_sided_needs_wide_frame_witness :
  let lines := [Segment 0 300 315 100] in
  let image := MkImage 600 [] in
  (forall s, In s lines -> (0 <= x1 s <= 315)%Z /\ (0 <= x2 s <= 315)%Z)
  /\ (315 - 0 <= 400)%Z
  /\ filter is_positive lines = [] /\ filter is_negative lines <> []
  /\ detect_lane_center (Some lines) image
     = Some ((Some (- (1)), Some (- (1))), image).
Proof.
  intros lines image.
  assert (H : forall s, In s lines ->
                        (0 <= x1 s <= 315)%Z /\ (0 <= x2 s <= 315)%Z).
  { intros s [<-|[]]; cbn; lia. }
  assert (Hw : (315 - 0 <= 400)%Z) by lia.
  assert (Hp : filter is_positive lines = []) by reflexivity.
  assert (Hn : filter is_negative lines <> []) by discriminate.
  repeat (split; [assumption|]).
  exact (proj1 (one_sided_needs_wide_frame lines image 0 315 H Hw) Hp Hn).
Defined.
